(** * typescript-memoize: the [Memoize] decorator, its two cache stores and
      the tag registry, embedded from [src/memoize-decorator.ts].

    The decorator replaces a method or [get] accessor by a function that
    looks its result up in a store hidden on the receiving instance.  The
    embedding keeps the shape of the source: a state-and-exception monad for
    the JavaScript effects (own properties, the module-level tag map, the
    clock, thrown values), insertion-ordered association lists for [Map],
    and a record of host primitives for what the file imports or inherits
    from the language ([fast-deep-equal], [Date.now], [Math.random], the
    string-to-number coercion). *)

From Stdlib Require Import ZArith String List Bool Lia.
From stdpp Require Import base option list gmap strings pretty countable.

Local Open Scope Z_scope.
Local Open Scope string_scope.
Local Open Scope list_scope.

(** ** JavaScript values

    Plain data only: numbers are the integers ([Date.now()] and the
    durations are integral milliseconds), an array or object carries the
    identity of its reference next to a snapshot of its contents. *)

#[warnings="-register-all"]
Inductive any : Type :=
| JUndefined
| JNull
| JBool (b : bool)
| JNum (n : Z)
| JStr (s : string)
| JArr (ref : nat) (elems : list any)
| JObj (ref : nat) (fields : list (string * any)).

(** What a statement completes with: a value, or a thrown value. *)
Inductive completion (A : Type) : Type :=
| Normal (a : A)
| Throw (e : any).
Arguments Normal {A} a.
Arguments Throw {A} e.

(** The [TypeError] the language raises by itself. *)
Definition TypeError : any := JStr "TypeError".

(** Key comparison of the built-in [Map] and [Set] (SameValueZero):
    primitives by value, arrays and objects by reference. *)
Definition sameValueZero (a b : any) : bool :=
  match a, b with
  | JUndefined, JUndefined => true
  | JNull, JNull => true
  | JBool x, JBool y => Bool.eqb x y
  | JNum x, JNum y => Z.eqb x y
  | JStr x, JStr y => String.eqb x y
  | JArr r _, JArr r' _ => Nat.eqb r r'
  | JObj r _, JObj r' _ => Nat.eqb r r'
  | _, _ => false
  end.

(** [`${v}`]: the string a template literal puts in place of [v]. *)
Fixpoint ToString (v : any) : string :=
  match v with
  | JUndefined => "undefined"
  | JNull => "null"
  | JBool b => if b then "true" else "false"
  | JNum n => pretty n
  | JStr s => s
  | JArr _ elems =>
      String.concat ","
        (List.map (fun e => match e with
                            | JUndefined | JNull => ""
                            | _ => ToString e
                            end) elems)
  | JObj _ _ => "[object Object]"
  end.

(** [a.toString()]: a method call, so it throws on [undefined] and [null]. *)
Definition toString (a : any) : completion string :=
  match a with
  | JUndefined | JNull => Throw TypeError
  | _ => Normal (ToString a)
  end.

(** ** Host primitives

    [equal] is the imported [fast-deep-equal]; [StringToNumber] is the
    language's reading of a string as a number ([None] for [NaN]);
    [Date_now n] and [Math_random n] are the n-th results the running
    program gets from [Date.now()] and from [Math.random()] (the latter
    already as text, the only way the source uses it). *)

Class Host : Type := {
  equal : any -> any -> bool;
  StringToNumber : string -> option Z;
  Date_now : nat -> Z;
  Math_random : nat -> string
}.

(** The properties of [fast-deep-equal] that some results rely on. *)
Class EqualLaws (H : Host) : Prop := {
  equal_refl : forall a, equal a a = true;
  equal_sym : forall a b, equal a b = true -> equal b a = true;
  equal_trans : forall a b c, equal a b = true -> equal b c = true -> equal a c = true
}.

(** The operand coercion of the binary minus ([None] for [NaN]). *)
Definition ToNumber `{Host} (v : any) : option Z :=
  match v with
  | JUndefined => None
  | JNull => Some 0
  | JBool b => Some (if b then 1 else 0)
  | JNum n => Some n
  | JStr s => StringToNumber s
  | JArr _ _ => StringToNumber (ToString v)
  | JObj _ _ => None
  end.

(** ** The built-in [Map]: insertion-ordered, one entry per key *)

Section JsMap.
Context {K V : Type} (same : K -> K -> bool).

Fixpoint Map_has (m : list (K * V)) (k : K) : bool :=
  match m with
  | [] => false
  | (k', _) :: m' => if same k' k then true else Map_has m' k
  end.

Fixpoint Map_get (m : list (K * V)) (k : K) : option V :=
  match m with
  | [] => None
  | (k', v) :: m' => if same k' k then Some v else Map_get m' k
  end.

(** An existing key keeps its place and gets the new value; a new key is
    appended. *)
Fixpoint Map_set (m : list (K * V)) (k : K) (v : V) : list (K * V) :=
  match m with
  | [] => [(k, v)]
  | (k', v') :: m' =>
      if same k' k then (k', v) :: m' else (k', v') :: Map_set m' k v
  end.

Fixpoint Map_delete (m : list (K * V)) (k : K) : list (K * V) :=
  match m with
  | [] => []
  | (k', v') :: m' =>
      if same k' k then m' else (k', v') :: Map_delete m' k
  end.

(** No two entries under the same key. *)
Fixpoint Map_wf (m : list (K * V)) : bool :=
  match m with
  | [] => true
  | (k', _) :: m' => negb (Map_has m' k') && Map_wf m'
  end.
End JsMap.

(** [Map<any, any>] as the shallow store uses it; [get] of a missing key is
    [undefined]. *)
Definition AnyMap : Type := list (any * any).

Definition AnyMap_has (m : AnyMap) (k : any) : bool := Map_has sameValueZero m k.
Definition AnyMap_get (m : AnyMap) (k : any) : any :=
  default JUndefined (Map_get sameValueZero m k).
Definition AnyMap_set (m : AnyMap) (k v : any) : AnyMap := Map_set sameValueZero m k v.

(** ** [class DeepEqualMap]

    The private [map] is a [Map<string, {key, value}>]; [has], [get] and
    [set] scan its entries in insertion order and compare keys with
    [equal (entry.key, key)]. *)

Module DeepEqualMap.

Record entry : Type := Entry { key : any; value : any }.

Definition t : Type := list (string * entry).

Section Methods.
Context `{Host}.

Fixpoint has_in (entries : list entry) (k : any) : bool :=
  match entries with
  | [] => false
  | e :: rest => if equal (key e) k then true else has_in rest k
  end.

Fixpoint get_in (entries : list entry) (k : any) : any :=
  match entries with
  | [] => JUndefined
  | e :: rest => if equal (key e) k then value e else get_in rest k
  end.

(** The loop of [set]: the serialized key of the first entry whose key
    matches, if any. *)
Fixpoint find_in (entries : list (string * entry)) (k : any) : option string :=
  match entries with
  | [] => None
  | (serializedKey, e) :: rest =>
      if equal (key e) k then Some serializedKey else find_in rest k
  end.

Definition has (map : t) (k : any) : bool := has_in (List.map snd map) k.

Definition get (map : t) (k : any) : any := get_in (List.map snd map) k.

(** [now] and [random] are what [Date.now()] and [Math.random()] return
    inside the call. *)
Definition set (map : t) (k v : any) (now : Z) (random : string) : t :=
  let map1 :=
    match find_in map k with
    | Some serializedKey => Map_delete String.eqb map serializedKey
    | None => map
    end in
  let serializedKey := pretty now +:+ "_" +:+ random in
  Map_set String.eqb map1 serializedKey (Entry k v).

Definition clear (map : t) : t := [].

(** The well-formed stores: the private [map] has one entry per
    serialized key, and no two entries have keys that [equal] takes for
    the same. *)
Fixpoint distinct (entries : list entry) : bool :=
  match entries with
  | [] => true
  | e :: rest => negb (has_in rest (key e)) && distinct rest
  end.

Definition wf (map : t) : bool :=
  Map_wf String.eqb map && distinct (List.map snd map).

(** The first half of [set] without its detour through the serialized
    key: the store less its first entry that matches [k]. *)
Fixpoint drop_match (map : t) (k : any) : t :=
  match map with
  | [] => []
  | (s, e) :: rest => if equal (key e) k then rest else (s, e) :: drop_match rest k
  end.

(** The entries a key matches. *)
Definition matching (map : t) (k : any) : list entry :=
  List.filter (fun e => equal (key e) k) (List.map snd map).

(** The store after a sequence of [set] operations on a new
    [DeepEqualMap]; an operation is the key, the value, and the clock and
    random readings of that call. *)
Definition after (ops : list (any * any * Z * string)) : t :=
  fold_left (fun map '(k, v, now, random) => set map k v now random) ops [].

(** The serialized keys those operations draw, and whether each is drawn
    once. *)
Definition serials (ops : list (any * any * Z * string)) : list string :=
  List.map (fun '(_, _, now, random) => pretty now +:+ "_" +:+ random) ops.

Fixpoint once (l : list string) : bool :=
  match l with
  | [] => true
  | s :: rest => negb (existsb (String.eqb s) rest) && once rest
  end.

(** What the operations say the store should answer for [q]: the value of
    the last one whose key [equal] takes for [q]. *)
Definition written (ops : list (any * any * Z * string)) (q : any) : option any :=
  fold_left (fun answer '(k, v, _, _) => if equal k q then Some v else answer) ops None.
End Methods.

End DeepEqualMap.

(** ** The running program

    A store is created at most once per instance and symbol, as a property
    that is neither writable nor configurable, so the pair (reference of the
    instance, symbol) identifies the store object; a reference to a store is
    that pair.  [maps] and [deepMaps] are the own properties that hold a
    [Map] and a [DeepEqualMap]. *)

Record Instance : Type := { ref : nat; fields : list (string * any) }.

Definition thisValue (this : Instance) : any := JObj (ref this) (fields this).

(** What the module-level tag map holds: the shallow [Map] itself, or the
    object literal [{ clear: () => myMap.clear() }] made around a deep store,
    which has an identity of its own. *)
Inductive Clearable : Type :=
| TheMap (myMap : nat * nat)
| MapWrapper (id : nat) (myMap : nat * nat).

(** Reference identity, as the [Set] named [cleared] sees it. *)
Definition sameObject (a b : Clearable) : bool :=
  match a, b with
  | TheMap m, TheMap m' => bool_decide (m = m')
  | MapWrapper i _, MapWrapper j _ => Nat.eqb i j
  | _, _ => false
  end.

Record World : Type := {
  maps : gmap (nat * nat) AnyMap;
  deepMaps : gmap (nat * nat) DeepEqualMap.t;
  clearCacheTagsMap : gmap string (list Clearable);
  symbols : nat;        (* symbols handed out so far *)
  refs : nat;           (* references handed out to objects made by the decorator *)
  ticks : nat;          (* calls of Date.now() so far *)
  rolls : nat;          (* calls of Math.random() so far *)
  program : any;        (* the state the decorated methods read and write *)
  invoked : nat         (* applications of an original method so far,
                           as a spy on the method would count them *)
}.

(** A method body or key function: receiver, arguments and program state
    in; completion and program state out.  The receiver is an object, and
    the body does not call back into a memoized member or into [clear]: the
    stores and the tag map are out of its reach. *)
Definition method : Type := Instance -> list any -> any -> completion any * any.

Inductive HashFunction : Type :=
| HFundefined
| HFboolean (b : bool)
| HFfunction (h : method).

Definition truthy (h : HashFunction) : bool :=
  match h with
  | HFundefined => false
  | HFboolean b => b
  | HFfunction _ => true
  end.

Module MemoizeArgs.
Record t : Type := {
  expiring : option Z;
  hashFunction : HashFunction;
  tags : option (list string);
  useDeepEqual : option bool
}.
End MemoizeArgs.

(** The function [getNewFunction] returns, with what it closes over. *)
Record MemoizedFunction : Type := {
  originalMethod : method;
  hashFunction : HashFunction;
  duration : Z;
  tags : option (list string);
  useDeepEqual : bool;
  propMapName : nat;
  propDeepMapName : nat
}.

(** ** Effects *)

Definition M (A : Type) : Type := World -> completion A * World.

Definition ret {A} (a : A) : M A := fun w => (Normal a, w).

Definition throw {A} (e : any) : M A := fun w => (Throw e, w).

Definition bind {A B} (m : M A) (k : A -> M B) : M B :=
  fun w =>
    match m w with
    | (Normal a, w') => k a w'
    | (Throw e, w') => (Throw e, w')
    end.

Notation "'let!' x ':=' m 'in' k" := (bind m (fun x => k))
  (at level 10, x pattern, m at level 100, k at level 200).

Fixpoint forEach {A} (l : list A) (body : A -> M unit) : M unit :=
  match l with
  | [] => ret tt
  | x :: rest => let! _ := body x in forEach rest body
  end.

(** Field updates of the world. *)
Definition setMaps (ms : gmap (nat * nat) AnyMap) (w : World) : World :=
  {| maps := ms; deepMaps := deepMaps w; clearCacheTagsMap := clearCacheTagsMap w;
     symbols := symbols w; refs := refs w; ticks := ticks w; rolls := rolls w;
     program := program w; invoked := invoked w |}.
Definition setDeepMaps (ms : gmap (nat * nat) DeepEqualMap.t) (w : World) : World :=
  {| maps := maps w; deepMaps := ms; clearCacheTagsMap := clearCacheTagsMap w;
     symbols := symbols w; refs := refs w; ticks := ticks w; rolls := rolls w;
     program := program w; invoked := invoked w |}.
Definition setTags (registry : gmap string (list Clearable)) (w : World) : World :=
  {| maps := maps w; deepMaps := deepMaps w; clearCacheTagsMap := registry;
     symbols := symbols w; refs := refs w; ticks := ticks w; rolls := rolls w;
     program := program w; invoked := invoked w |}.
Definition setSymbols (n : nat) (w : World) : World :=
  {| maps := maps w; deepMaps := deepMaps w; clearCacheTagsMap := clearCacheTagsMap w;
     symbols := n; refs := refs w; ticks := ticks w; rolls := rolls w;
     program := program w; invoked := invoked w |}.
Definition setRefs (n : nat) (w : World) : World :=
  {| maps := maps w; deepMaps := deepMaps w; clearCacheTagsMap := clearCacheTagsMap w;
     symbols := symbols w; refs := n; ticks := ticks w; rolls := rolls w;
     program := program w; invoked := invoked w |}.
Definition setTicks (n : nat) (w : World) : World :=
  {| maps := maps w; deepMaps := deepMaps w; clearCacheTagsMap := clearCacheTagsMap w;
     symbols := symbols w; refs := refs w; ticks := n; rolls := rolls w;
     program := program w; invoked := invoked w |}.
Definition setRolls (n : nat) (w : World) : World :=
  {| maps := maps w; deepMaps := deepMaps w; clearCacheTagsMap := clearCacheTagsMap w;
     symbols := symbols w; refs := refs w; ticks := ticks w; rolls := n;
     program := program w; invoked := invoked w |}.
Definition setProgram (p : any) (w : World) : World :=
  {| maps := maps w; deepMaps := deepMaps w; clearCacheTagsMap := clearCacheTagsMap w;
     symbols := symbols w; refs := refs w; ticks := ticks w; rolls := rolls w;
     program := p; invoked := invoked w |}.
Definition setInvoked (n : nat) (w : World) : World :=
  {| maps := maps w; deepMaps := deepMaps w; clearCacheTagsMap := clearCacheTagsMap w;
     symbols := symbols w; refs := refs w; ticks := ticks w; rolls := rolls w;
     program := program w; invoked := n |}.

Section Effects.
Context `{Host}.

Definition newSymbol : M nat := fun w => (Normal (symbols w), setSymbols (S (symbols w)) w).

Definition newRef : M nat := fun w => (Normal (refs w), setRefs (S (refs w)) w).

Definition DateNow : M Z := fun w => (Normal (Date_now (ticks w)), setTicks (S (ticks w)) w).

Definition MathRandom : M string := fun w =>
  (Normal (Math_random (rolls w)), setRolls (S (rolls w)) w).

Definition withMaps (f : gmap (nat * nat) AnyMap -> gmap (nat * nat) AnyMap) : M unit :=
  fun w => (Normal tt, setMaps (f (maps w)) w).

Definition withDeepMaps
    (f : gmap (nat * nat) DeepEqualMap.t -> gmap (nat * nat) DeepEqualMap.t) : M unit :=
  fun w => (Normal tt, setDeepMaps (f (deepMaps w)) w).

Definition withTags
    (f : gmap string (list Clearable) -> gmap string (list Clearable)) : M unit :=
  fun w => (Normal tt, setTags (f (clearCacheTagsMap w)) w).

(** Running a piece of the decorated program: it sees and changes the
    program state only. *)
Definition onProgram {A} (g : any -> completion A * any) : M A := fun w =>
  let '(c, p) := g (program w) in (c, setProgram p w).

Definition counted : M unit := fun w => (Normal tt, setInvoked (S (invoked w)) w).

(** [originalMethod.apply(this, args)]; the application is counted. *)
Definition applyOriginal (f : method) (this : Instance) (args : list any) : M any :=
  let! _ := counted in
  onProgram (f this args).

(** The store behind a reference; a property that was never defined reads
    as an empty store. *)
Definition theMap (w : World) (myMap : nat * nat) : AnyMap := default [] (maps w !! myMap).
Definition theDeepMap (w : World) (myMap : nat * nat) : DeepEqualMap.t :=
  default [] (deepMaps w !! myMap).

Definition mapHas (myMap : nat * nat) (k : any) : M bool :=
  fun w => (Normal (AnyMap_has (theMap w myMap) k), w).
Definition mapGet (myMap : nat * nat) (k : any) : M any :=
  fun w => (Normal (AnyMap_get (theMap w myMap) k), w).
Definition mapSet (myMap : nat * nat) (k v : any) : M unit :=
  fun w => withMaps (insert myMap (AnyMap_set (theMap w myMap) k v)) w.

Definition deepHas (myMap : nat * nat) (k : any) : M bool :=
  fun w => (Normal (DeepEqualMap.has (theDeepMap w myMap) k), w).
Definition deepGet (myMap : nat * nat) (k : any) : M any :=
  fun w => (Normal (DeepEqualMap.get (theDeepMap w myMap) k), w).
Definition deepSet (myMap : nat * nat) (k v : any) : M unit :=
  let! now := DateNow in
  let! random := MathRandom in
  fun w => withDeepMaps (insert myMap (DeepEqualMap.set (theDeepMap w myMap) k v now random)) w.

(** [mp.clear()] on an element of the tag map. *)
Definition mp_clear (mp : Clearable) : M unit :=
  match mp with
  | TheMap myMap => withMaps (alter (fun _ => []) myMap)
  | MapWrapper _ myMap => withDeepMaps (alter DeepEqualMap.clear myMap)
  end.

(** [(Date.now() - timestamp) > duration]; a comparison with [NaN] is false. *)
Definition elapsedExceeds (now : Z) (timestamp : any) (duration : Z) : bool :=
  match ToNumber timestamp with
  | Some t => (duration <? now - t)%Z
  | None => false
  end.
End Effects.

(** ** [clear], [getNewFunction], [Memoize] *)

Section Decorator.
Context `{Host}.

(** The [Set] named [cleared], by reference identity and in insertion
    order. *)
Definition Set_has (cleared : list Clearable) (mp : Clearable) : bool :=
  existsb (fun c => sameObject c mp) cleared.

(** [for (const mp of maps) if (!cleared.has(mp)) { mp.clear(); cleared.add(mp) }] *)
Fixpoint clearEach (mps : list Clearable) (cleared : list Clearable) : M (list Clearable) :=
  match mps with
  | [] => ret cleared
  | mp :: rest =>
      if Set_has cleared mp then clearEach rest cleared
      else
        let! _ := mp_clear mp in
        clearEach rest (cleared ++ [mp])
  end.

(** [for (const tag of tags) { const maps = clearCacheTagsMap.get(tag); if (maps) ... }] *)
Fixpoint clearTags (tgs : list string) (cleared : list Clearable) : M (list Clearable) :=
  match tgs with
  | [] => ret cleared
  | tag :: rest =>
      fun w =>
        match clearCacheTagsMap w !! tag with
        | Some mps => (let! cleared' := clearEach mps cleared in clearTags rest cleared') w
        | None => clearTags rest cleared w
        end
  end.

Definition clear (tgs : list string) : M nat :=
  let! cleared := clearTags tgs [] in
  ret (length cleared).

(** [clearCacheTagsMap.has(tag) ? clearCacheTagsMap.get(tag).push(mp)
     : clearCacheTagsMap.set(tag, [mp])] *)
Definition pushInto (registry : gmap string (list Clearable)) (tag : string) (mp : Clearable)
    : gmap string (list Clearable) :=
  match registry !! tag with
  | Some mps => <[tag := mps ++ [mp]]> registry
  | None => <[tag := [mp]]> registry
  end.

Definition pushTag (tag : string) (mp : Clearable) : M unit :=
  withTags (fun registry => pushInto registry tag mp).

(** [if (!this.hasOwnProperty(name)) Object.defineProperty(this, name, ...)]:
    an own property that is missing is defined with an empty store. *)
Definition ensured {E} (myMap : nat * nat) (ms : gmap (nat * nat) (list E))
    : gmap (nat * nat) (list E) :=
  match ms !! myMap with
  | Some _ => ms
  | None => <[myMap := []]> ms
  end.

Definition ownMap (myMap : nat * nat) : M unit := withMaps (ensured myMap).

Definition ownDeepMap (myMap : nat * nat) : M unit := withDeepMaps (ensured myMap).

(** Lines 183-201: the shallow store of the receiver, put under every tag
    of the member. *)
Definition openMap (f : MemoizedFunction) (this : Instance) : M (nat * nat) :=
  let myMap := (ref this, propMapName f) in
  let! _ := ownMap myMap in
  let! _ :=
    match tags f with
    | Some tgs => forEach tgs (fun tag => pushTag tag (TheMap myMap))
    | None => ret tt
    end in
  ret myMap.

(** Lines 120-144: the deep store of the receiver; a new wrapper object
    per tag goes under that tag. *)
Definition openDeepMap (f : MemoizedFunction) (this : Instance) : M (nat * nat) :=
  let myMap := (ref this, propDeepMapName f) in
  let! _ := ownDeepMap myMap in
  let! _ :=
    match tags f with
    | Some tgs =>
        forEach tgs (fun tag =>
          let! id := newRef in
          pushTag tag (MapWrapper id myMap))
    | None => ret tt
    end in
  ret myMap.

(** [args.map(a => a.toString())] *)
Fixpoint mapToString (args : list any) : completion (list string) :=
  match args with
  | [] => Normal []
  | a :: rest =>
      match toString a with
      | Throw e => Throw e
      | Normal s =>
          match mapToString rest with
          | Throw e => Throw e
          | Normal ss => Normal (s :: ss)
          end
      end
  end.

(** Lines 146-157. [argsArray] is the rest parameter [args] as a value;
    only a key function touches the program state [p]. *)
Definition deepHashKey (f : MemoizedFunction) (this : Instance) (args : list any)
    (argsArray : any) (p : any) : completion any * any :=
  match hashFunction f with
  | HFboolean true => (Normal argsArray, p)
  | HFfunction h => h this args p
  | _ =>
      if (0 <? length args)%nat
      then (Normal (if (length args =? 1)%nat then nth 0 args JUndefined else argsArray), p)
      else (Normal (thisValue this), p)
  end.

(** Lines 206-213. *)
Definition shallowHashKey (f : MemoizedFunction) (this : Instance) (args : list any)
    (p : any) : completion any * any :=
  match hashFunction f with
  | HFboolean true =>
      match mapToString args with
      | Normal strings => (Normal (JStr (String.concat "!" strings)), p)
      | Throw e => (Throw e, p)
      end
  | HFfunction h => h this args p
  | _ => (Normal (nth 0 args JUndefined), p)
  end.

(** Lines 159-180, the deep store. *)
Definition deepLookup (f : MemoizedFunction) (this : Instance) (args : list any)
    (myMap : nat * nat) (hashKey timestampKey : any) : M any :=
  let! isExpired :=
    (if (0 <? duration f)%Z then
       let! present := deepHas myMap timestampKey in
       if negb present then ret true
       else
         let! timestamp := deepGet myMap timestampKey in
         let! now := DateNow in
         ret (elapsedExceeds now timestamp (duration f))
     else ret false) in
  let! present := deepHas myMap hashKey in
  if present && negb isExpired then deepGet myMap hashKey
  else
    let! returnedValue := applyOriginal (originalMethod f) this args in
    let! _ := deepSet myMap hashKey returnedValue in
    let! _ :=
      (if (0 <? duration f)%Z then
         let! now := DateNow in
         deepSet myMap timestampKey (JNum now)
       else ret tt) in
    ret returnedValue.

(** Lines 215-235, the built-in [Map]. *)
Definition shallowLookup (f : MemoizedFunction) (this : Instance) (args : list any)
    (myMap : nat * nat) (hashKey timestampKey : any) : M any :=
  let! isExpired :=
    (if (0 <? duration f)%Z then
       let! present := mapHas myMap timestampKey in
       if negb present then ret true
       else
         let! timestamp := mapGet myMap timestampKey in
         let! now := DateNow in
         ret (elapsedExceeds now timestamp (duration f))
     else ret false) in
  let! present := mapHas myMap hashKey in
  if present && negb isExpired then mapGet myMap hashKey
  else
    let! returnedValue := applyOriginal (originalMethod f) this args in
    let! _ := mapSet myMap hashKey returnedValue in
    let! _ :=
      (if (0 <? duration f)%Z then
         let! now := DateNow in
         mapSet myMap timestampKey (JNum now)
       else ret tt) in
    ret returnedValue.

(** Lines 238-244: the receiver itself is the key. *)
Definition thisLookup (f : MemoizedFunction) (this : Instance) (args : list any)
    (myMap : nat * nat) : M any :=
  let hashKey := thisValue this in
  let! present := mapHas myMap hashKey in
  if present then mapGet myMap hashKey
  else
    let! returnedValue := applyOriginal (originalMethod f) this args in
    let! _ := mapSet myMap hashKey returnedValue in
    ret returnedValue.

(** [{ __timestamp: true, key: hashKey }] *)
Definition timestampObject (timestampRef : nat) (hashKey : any) : any :=
  JObj timestampRef [("__timestamp", JBool true); ("key", hashKey)].

(** [`${hashKey}__timestamp`] *)
Definition timestampString (hashKey : any) : any :=
  JStr (ToString hashKey +:+ "__timestamp").

(** The test of line 203. *)
Definition keyed (f : MemoizedFunction) (args : list any) : bool :=
  truthy (hashFunction f) || (0 <? length args)%nat || (0 <? duration f)%Z.

(** The function returned at line 115, applied to a receiver and its
    arguments. *)
Definition call (f : MemoizedFunction) (this : Instance) (args : list any) : M any :=
  let! argsRef := newRef in
  let argsArray := JArr argsRef args in
  if useDeepEqual f then
    let! myMap := openDeepMap f this in
    let! hashKey := onProgram (deepHashKey f this args argsArray) in
    let! timestampRef := newRef in
    let timestampKey := timestampObject timestampRef hashKey in
    deepLookup f this args myMap hashKey timestampKey
  else
    let! myMap := openMap f this in
    if keyed f args then
      let! hashKey := onProgram (shallowHashKey f this args) in
      let timestampKey := timestampString hashKey in
      shallowLookup f this args myMap hashKey timestampKey
    else thisLookup f this args myMap.

(** Lines 104-113: the defaults of the parameters and the two symbols. *)
Definition getNewFunction (originalMethod : method) (hashFunction : HashFunction)
    (duration : option Z) (tags : option (list string)) (useDeepEqual : option bool)
    : M MemoizedFunction :=
  let! propMapName := newSymbol in
  let! propDeepMapName := newSymbol in
  ret {| originalMethod := originalMethod;
         hashFunction := hashFunction;
         duration := default 0 duration;
         tags := tags;
         useDeepEqual := default false useDeepEqual;
         propMapName := propMapName;
         propDeepMapName := propDeepMapName |}.

(** The argument of [Memoize]: nothing, a key function or boolean, or an
    options object. *)
Inductive MemoizeParam : Type :=
| ParamUndefined
| ParamHashFunction (h : HashFunction)
| ParamObject (o : MemoizeArgs.t).

(** A property descriptor: [value] for a method, [get] for an accessor. *)
Record TypedPropertyDescriptor (F : Type) : Type := {
  descriptor_value : option F;
  descriptor_get : option F
}.
Arguments descriptor_value {F} _.
Arguments descriptor_get {F} _.

Inductive Function : Type :=
| Native (m : method)
| Memoized (f : MemoizedFunction).

(** Lines 10-34: [Memoize(args)] applied to the descriptor of a member. *)
Definition Memoize (args : MemoizeParam) (descriptor : TypedPropertyDescriptor method)
    : M (TypedPropertyDescriptor Function) :=
  let '(hashFunction, duration, tags, useDeepEqual) :=
    match args with
    | ParamObject o =>
        (MemoizeArgs.hashFunction o, MemoizeArgs.expiring o, MemoizeArgs.tags o,
         Some (default false (MemoizeArgs.useDeepEqual o)))
    | ParamHashFunction h => (h, None, None, Some false)
    | ParamUndefined => (HFundefined, None, None, Some false)
    end in
  match descriptor_value descriptor, descriptor_get descriptor with
  | Some m, g =>
      let! f := getNewFunction m hashFunction duration tags useDeepEqual in
      ret {| descriptor_value := Some (Memoized f); descriptor_get := option_map Native g |}
  | None, Some g =>
      let! f := getNewFunction g hashFunction duration tags useDeepEqual in
      ret {| descriptor_value := None; descriptor_get := Some (Memoized f) |}
  | None, None => throw (JStr "Only put a Memoize() decorator on a method or get accessor.")
  end.

(** Lines 36-41. *)
Definition MemoizeExpiring (expiring : Z) (hashFunction : HashFunction)
    : TypedPropertyDescriptor method -> M (TypedPropertyDescriptor Function) :=
  Memoize (ParamObject {| MemoizeArgs.expiring := Some expiring;
                          MemoizeArgs.hashFunction := hashFunction;
                          MemoizeArgs.tags := None;
                          MemoizeArgs.useDeepEqual := None |}).

(** Calling what a descriptor slot holds. *)
Definition invoke (fn : Function) (this : Instance) (args : list any) : M any :=
  match fn with
  | Native m => applyOriginal m this args
  | Memoized f => call f this args
  end.
End Decorator.

Arguments descriptor_value {F} _.
Arguments descriptor_get {F} _.

(** The world before anything ran. *)
Definition initial (p : any) : World :=
  {| maps := ∅; deepMaps := ∅; clearCacheTagsMap := ∅;
     symbols := 0; refs := 0; ticks := 0; rolls := 0; program := p; invoked := 0 |}.

(** ** A host to run the definitions on

    [equal] compares the shapes of two values and ignores the identities of
    their references; the clock advances by [step] milliseconds from one
    reading to the next. *)

Module Run.

Fixpoint shape (v : any) : gen_tree (Z + string) :=
  match v with
  | JUndefined => GenNode 0 []
  | JNull => GenNode 1 []
  | JBool b => GenNode (if b then 2 else 3) []
  | JNum n => GenLeaf (inl n)
  | JStr s => GenLeaf (inr s)
  | JArr _ elems => GenNode 4 (List.map shape elems)
  | JObj _ fields =>
      GenNode 5 (List.map (fun kv => match kv with
                                     | (k, x) => GenNode 6 [GenLeaf (inr k); shape x]
                                     end) fields)
  end.

Definition host (step : Z) : Host :=
  {| equal := fun a b => bool_decide (shape a = shape b);
     StringToNumber := fun _ => None;
     Date_now := fun n => step * Z.of_nat n;
     Math_random := fun n => "0." +:+ pretty (Z.of_nat n) |}.

(** [getGreeting(greeting, planet)] of the test suite. *)
Definition getGreeting : method := fun _ args p =>
  match args with
  | [JStr greeting; JStr planet] => (Normal (JStr (greeting +:+ ", " +:+ planet)), p)
  | _ => (Throw TypeError, p)
  end.

(** A method that describes its first argument, one that returns a
    number, one that returns nothing, and one that throws. *)
Definition describe : method := fun _ args p =>
  (Normal (JStr (ToString (nth 0 args JUndefined))), p).
Definition getNumber : method := fun _ _ p => (Normal (JNum 42), p).
Definition failing : method := fun _ _ p => (Throw (JStr "boom"), p).

Definition a : Instance := {| ref := 100; fields := [] |}.

(** A member as [getNewFunction] makes the first one of a program. *)
Definition member (m : method) (h : HashFunction) (d : Z) (tgs : option (list string))
    (deep : bool) : MemoizedFunction :=
  {| originalMethod := m; hashFunction := h; duration := d; tags := tgs;
     useDeepEqual := deep; propMapName := 0; propDeepMapName := 1 |}.

Definition methodOf (d : TypedPropertyDescriptor Function) : Function :=
  default (Native getGreeting) (descriptor_value d).

Definition options (d : option Z) (tgs : option (list string)) (deep : option bool)
    : MemoizeParam :=
  ParamObject {| MemoizeArgs.expiring := d; MemoizeArgs.hashFunction := HFundefined;
                 MemoizeArgs.tags := tgs; MemoizeArgs.useDeepEqual := deep |}.

Section Scenarios.
Context `{Host}.

(** [@Memoize(param) getGreeting], then [a.getGreeting('Hola', 'Mundo')]
    and [a.getGreeting('Hola', 'Mars')]. *)
Definition holaTwice (param : MemoizeParam) : M (any * any) :=
  let! d := Memoize param {| descriptor_value := Some getGreeting; descriptor_get := None |} in
  let! v1 := invoke (methodOf d) a [JStr "Hola"; JStr "Mundo"] in
  let! v2 := invoke (methodOf d) a [JStr "Hola"; JStr "Mars"] in
  ret (v1, v2).

(** A member tagged [foo] and [bar] is called once, then
    [clear(['foo', 'bar'])]. *)
Definition clearAfterOneCall (deep : bool) : M nat :=
  let! d := Memoize (options None (Some ["foo"; "bar"]) (Some deep))
              {| descriptor_value := Some getGreeting; descriptor_get := None |} in
  let! _ := invoke (methodOf d) a [JStr "Hello"; JStr "World"] in
  clear ["foo"; "bar"].
End Scenarios.

Definition Hola : list any := [JStr "Hola"; JStr "Mundo"].

(** Two objects of the same shape behind different references. *)
Definition obj1 : any := JObj 1 [("name", JStr "Test"); ("age", JNum 25)].
Definition obj2 : any := JObj 2 [("name", JStr "Test"); ("age", JNum 25)].
Definition obj3 : any := JObj 3 [("name", JStr "Test"); ("age", JNum 30)].

End Run.


(** ** Vocabulary of the statements

    What a call leaves in the tag map, the world in which it reaches its
    lookup, the key it derives, and the staleness test of an expiring
    member, each read off the definitions above. *)

Section Vocabulary.
Context `{Host}.

Definition shallowStore (f : MemoizedFunction) (this : Instance) (w : World) : AnyMap :=
  theMap w (ref this, propMapName f).

Definition deepStore (f : MemoizedFunction) (this : Instance) (w : World) : DeepEqualMap.t :=
  theDeepMap w (ref this, propDeepMapName f).

(** The tag map after [mp] was pushed under each of [tgs]. *)
Definition registered (tgs : list string) (mp : Clearable)
    (registry : gmap string (list Clearable)) : gmap string (list Clearable) :=
  fold_left (fun r tag => pushInto r tag mp) tgs registry.

(** The tag map after wrappers [id], [id + 1], ... around [myMap] were
    pushed under [tgs], one per tag. *)
Fixpoint registeredDeep (tgs : list string) (myMap : nat * nat) (id : nat)
    (registry : gmap string (list Clearable)) : gmap string (list Clearable) :=
  match tgs with
  | [] => registry
  | tag :: rest => registeredDeep rest myMap (S id) (pushInto registry tag (MapWrapper id myMap))
  end.

(** How often [tag] occurs among the tags of a member. *)
Definition occurrences (tag : string) (tgs : list string) : nat :=
  length (List.filter (fun t => String.eqb t tag) tgs).

(** Wrapper objects one deep call allocates. *)
Definition wrappers (f : MemoizedFunction) : nat :=
  match tags f with
  | Some tgs => length tgs
  | None => 0%nat
  end.

(** The world of a shallow call after lines 183-201. *)
Definition enteredMap (f : MemoizedFunction) (this : Instance) (w : World) : World :=
  let myMap := (ref this, propMapName f) in
  setTags (match tags f with
           | Some tgs => registered tgs (TheMap myMap) (clearCacheTagsMap w)
           | None => clearCacheTagsMap w
           end)
    (setMaps (ensured myMap (maps w)) (setRefs (S (refs w)) w)).

(** The world of a deep call after lines 120-144. *)
Definition enteredDeepMap (f : MemoizedFunction) (this : Instance) (w : World) : World :=
  let myMap := (ref this, propDeepMapName f) in
  setRefs (S (refs w) + wrappers f)
    (setTags (match tags f with
              | Some tgs => registeredDeep tgs myMap (S (refs w)) (clearCacheTagsMap w)
              | None => clearCacheTagsMap w
              end)
       (setDeepMaps (ensured myMap (deepMaps w)) w)).

(** The key a call derives in [w], with the program state its derivation
    leaves. *)
Definition derivedKey (f : MemoizedFunction) (this : Instance) (args : list any)
    (w : World) : completion any * any :=
  if useDeepEqual f then deepHashKey f this args (JArr (refs w) args) (program w)
  else if keyed f args then shallowHashKey f this args (program w)
  else (Normal (thisValue this), program w).

(** The key under which that call keeps the timestamp of [hashKey]. *)
Definition timestampKeyOf (f : MemoizedFunction) (w : World) (hashKey : any) : any :=
  if useDeepEqual f then timestampObject (S (refs w) + wrappers f) hashKey
  else timestampString hashKey.

(** Lines 163-170 and 217-225 as one test: [present] and [timestamp] are
    what [has] and [get] answer for the timestamp key, [now] is the clock. *)
Definition stale (d : Z) (present : bool) (timestamp : any) (now : Z) : bool :=
  (0 <? d)%Z && (if present then elapsedExceeds now timestamp d else true).

(** The clock is read by the test only when a timestamp is present. *)
Definition afterCheck (d : Z) (present : bool) (w : World) : World :=
  if (0 <? d)%Z && present then setTicks (S (ticks w)) w else w.

(** The original method was applied and left program state [p]. *)
Definition ran (p : any) (w : World) : World :=
  setProgram p (setInvoked (S (invoked w)) w).

(** [myMap.has(k)] and [myMap.get(k)] on the store the member uses for
    this receiver, and the comparison of keys that store applies. *)
Definition present (f : MemoizedFunction) (this : Instance) (w : World) (k : any) : bool :=
  if useDeepEqual f then DeepEqualMap.has (deepStore f this w) k
  else AnyMap_has (shallowStore f this w) k.

Definition stored (f : MemoizedFunction) (this : Instance) (w : World) (k : any) : any :=
  if useDeepEqual f then DeepEqualMap.get (deepStore f this w) k
  else AnyMap_get (shallowStore f this w) k.


(** The entry of [k] in world [w] is usable by a call that keeps the
    timestamp under [tk]: present, and not stale at the next reading of
    the clock. *)
Definition usable (f : MemoizedFunction) (this : Instance) (w : World) (k tk : any) : bool :=
  present f this w k &&
  negb (stale (duration f) (present f this w tk) (stored f this w tk) (Date_now (ticks w))).

(** The store an element of the tag map leads to, and whether the element
    is the store itself. *)
Definition myMapOf (mp : Clearable) : nat * nat :=
  match mp with
  | TheMap myMap => myMap
  | MapWrapper _ myMap => myMap
  end.

Definition isTheMap (mp : Clearable) : bool :=
  match mp with
  | TheMap _ => true
  | MapWrapper _ _ => false
  end.

(** The elements of the tag map a list of tags leads to, in the order
    [clear] visits them. *)
Definition reachable (tgs : list string) (registry : gmap string (list Clearable))
    : list Clearable :=
  List.concat (List.map (fun tag => default [] (registry !! tag)) tgs).

(** The [Set] named [cleared] after the elements of [mps] were visited. *)
Definition collected (mps cleared : list Clearable) : list Clearable :=
  fold_left (fun cl mp => if Set_has cl mp then cl else cl ++ [mp]) mps cleared.
End Vocabulary.

(** ** Running programs

    What a program does with the module: it decorates members, calls them
    and calls [clear], in any order.  A world is attainable when such a
    program gets to it from the world before anything ran. *)

Section Programs.
Context `{Host}.

Inductive step : World -> World -> Prop :=
| step_Memoize args descriptor w : step w (snd (Memoize args descriptor w))
| step_call f this args w : step w (snd (call f this args w))
| step_clear tgs w : step w (snd (clear tgs w)).

Inductive Attainable : World -> Prop :=
| Attainable_initial p : Attainable (initial p)
| Attainable_step w w' : Attainable w -> step w w' -> Attainable w'.

(** Any number of steps. *)
Inductive steps : World -> World -> Prop :=
| steps_none w : steps w w
| steps_more w w' w'' : step w w' -> steps w' w'' -> steps w w''.

(** Calls of one member, one after the other, on the receivers and with the
    arguments listed; a caller that catches what a call throws goes on with
    the next. *)
Fixpoint callEach (f : MemoizedFunction) (calls : list (Instance * list any)) (w : World)
    : World :=
  match calls with
  | [] => w
  | (this, args) :: rest => callEach f rest (snd (call f this args w))
  end.

(** The member a decorated descriptor holds. *)
Definition memoizedIn (d : TypedPropertyDescriptor Function) : option MemoizedFunction :=
  match descriptor_value d, descriptor_get d with
  | Some (Memoized f), _ => Some f
  | _, Some (Memoized f) => Some f
  | _, _ => None
  end.
End Programs.

(** The store an element of the tag map leads to has no entries. *)
Definition emptied (w : World) (mp : Clearable) : Prop :=
  match mp with
  | TheMap myMap => theMap w myMap = []
  | MapWrapper _ myMap => theDeepMap w myMap = []
  end.

(** A wrapper object in the tag map was made by [newRef], around one
    store. *)
Definition coherent (w : World) : Prop :=
  forall tag i a, In (MapWrapper i a) (default [] (clearCacheTagsMap w !! tag)) ->
    (i < refs w)%nat /\
    forall tag' a', In (MapWrapper i a') (default [] (clearCacheTagsMap w !! tag')) -> a' = a.

(** [undefined] and [null], the values without a [toString] method. *)
Definition nullish (a : any) : bool :=
  match a with
  | JUndefined | JNull => true
  | _ => false
  end.

(** What [clear] cannot change. *)
Definition untouched (w w' : World) : Prop :=
  clearCacheTagsMap w' = clearCacheTagsMap w /\ symbols w' = symbols w /\ refs w' = refs w /\
  ticks w' = ticks w /\ rolls w' = rolls w /\ program w' = program w /\ invoked w' = invoked w.

(** A store is as it was, or has no entries. *)
Definition shrunk (w w' : World) : Prop :=
  forall b, (theMap w' b = theMap w b \/ theMap w' b = []) /\
            (theDeepMap w' b = theDeepMap w b \/ theDeepMap w' b = []).

(** A shallow store is as it was unless it is itself among the elements
    [mps], a deep store unless a wrapper around it is. *)
Definition sparing (mps : list Clearable) (w w' : World) : Prop :=
  (forall b, ~ In (TheMap b) mps -> theMap w' b = theMap w b) /\
  (forall b, (forall i, ~ In (MapWrapper i b) mps) -> theDeepMap w' b = theDeepMap w b).

(** The shallow stores among the elements of the tag map, and the
    identities of the wrapper objects among them. *)
Definition storesIn (mps : list Clearable) : list (nat * nat) :=
  flat_map (fun mp => match mp with
                      | TheMap myMap => [myMap]
                      | MapWrapper _ _ => []
                      end) mps.

Definition wrapperIds (mps : list Clearable) : list nat :=
  flat_map (fun mp => match mp with
                      | TheMap _ => []
                      | MapWrapper id _ => [id]
                      end) mps.

(** The identities [registeredDeep] gives to the wrappers it puts under
    [tag]. *)
Fixpoint idsFor (tag : string) (tgs : list string) (id : nat) : list nat :=
  match tgs with
  | [] => []
  | t :: rest => (if String.eqb t tag then [id] else []) ++ idsFor tag rest (S id)
  end.

(** Every wrapper object sits in the tag map once. *)
Definition unshared (w : World) : Prop :=
  (forall tag, List.NoDup (wrapperIds (default [] (clearCacheTagsMap w !! tag)))) /\
  (forall tag tag' i, tag <> tag' ->
     In i (wrapperIds (default [] (clearCacheTagsMap w !! tag))) ->
     ~ In i (wrapperIds (default [] (clearCacheTagsMap w !! tag')))) /\
  (forall tag i, In i (wrapperIds (default [] (clearCacheTagsMap w !! tag))) -> (i < refs w)%nat).

(** ** More members to run *)

Module Examples.
Import Run.

(** A second instance. *)
Definition b : Instance := {| ref := 101; fields := [] |}.

(** [multiply2(a, b)] of the test suite. *)
Definition multiply2 : method := fun _ args p =>
  match args with
  | [JNum x; JNum y] => (Normal (JNum (x * y)), p)
  | _ => (Throw TypeError, p)
  end.


(** The descriptor of a method, and that of a [get] accessor. *)
Definition ofMethod (m : method) : TypedPropertyDescriptor method :=
  {| descriptor_value := Some m; descriptor_get := None |}.
Definition ofAccessor (g : method) : TypedPropertyDescriptor method :=
  {| descriptor_value := None; descriptor_get := Some g |}.

(** A member tagged [foo] and [bar]. *)
Definition tagged (deep : bool) : MemoizedFunction :=
  member getGreeting HFundefined 0 (Some ["foo"; "bar"]) deep.
End Examples.

(** ** Values and their text

    The language makes the text of an object by calling its [toString], and
    a number of it by calling its [valueOf] and then its [toString].  Both
    are found on the prototype unless the object has a field of that name;
    a field is data here and cannot be called.  So the conversion of a value
    throws a [TypeError] exactly when an object it prints has a field
    [toString]; an array prints its elements. *)
Fixpoint printable (v : any) : bool :=
  match v with
  | JArr _ elems => forallb printable elems
  | JObj _ fields => negb (existsb (fun kv => String.eqb (fst kv) "toString") fields)
  | _ => true
  end.

(** The numbers a value prints are below 10^21, where the text of a number
    is its decimal notation. *)
Fixpoint decimal (v : any) : bool :=
  match v with
  | JNum n => (Z.abs n <? 10 ^ 21)%Z
  | JArr _ elems => forallb decimal elems
  | _ => true
  end.

(** ** User code that uses the module

    The original method and the key function are user code: the source
    applies them with [apply(this, args)], and their bodies may call
    memoized members, of the receiver or of other instances, and [clear].
    Such code is a computation on the whole world.  [Reentrant] has the
    function of line 115 for it, and with it the places where that function
    throws a [TypeError] of its own on plain data: [this.hasOwnProperty] on
    a receiver that has a field of this name, the texts of lines 208 and
    215, and the number of lines 168 and 223.  The function [call] above is
    [Reentrant.call] for user code that reads and writes the program state
    only ([detached] below), wherever none of these is thrown
    ([call_detached]). *)

Module Reentrant.

Definition method : Type := Instance -> list any -> M any.

Inductive HashFunction : Type :=
| HFundefined
| HFboolean (b : bool)
| HFfunction (h : method).

Definition truthy (h : HashFunction) : bool :=
  match h with
  | HFundefined => false
  | HFboolean b => b
  | HFfunction _ => true
  end.

(** The function [getNewFunction] returns, with what it closes over. *)
Record MemoizedFunction : Type := {
  originalMethod : method;
  hashFunction : HashFunction;
  duration : Z;
  tags : option (list string);
  useDeepEqual : bool;
  propMapName : nat;
  propDeepMapName : nat
}.

Section Wrapper.
Context `{Host}.

(** A step that completes as [c] and leaves the world alone. *)
Definition complete {A} (c : completion A) : M A := fun w => (c, w).

(** The receiver has no field named [hasOwnProperty], so that
    [this.hasOwnProperty] is the method of the prototype. *)
Definition receptive (this : Instance) : bool :=
  negb (existsb (fun kv => String.eqb (fst kv) "hasOwnProperty") (fields this)).

(** [this.hasOwnProperty(...)] of lines 120 and 183, as far as it can
    throw; what it answers is part of [ownMap] and [ownDeepMap]. *)
Definition hasOwnProperty (this : Instance) : M unit :=
  if receptive this then ret tt else throw TypeError.

(** [(Date.now() - timestamp) > duration] of lines 168 and 223: the
    subtraction makes a number of [timestamp]. *)
Definition elapsedExceeds (now : Z) (timestamp : any) (duration : Z) : completion bool :=
  if printable timestamp then Normal (elapsedExceeds now timestamp duration)
  else Throw TypeError.

(** [a.toString()] of line 208: a [TypeError] on [undefined] and [null],
    which have no properties, and where the text cannot be made. *)
Definition toString (a : any) : completion string :=
  match a with
  | JUndefined | JNull => Throw TypeError
  | _ => if printable a then Normal (ToString a) else Throw TypeError
  end.

(** [args.map(a => a.toString())] *)
Fixpoint mapToString (args : list any) : completion (list string) :=
  match args with
  | [] => Normal []
  | a :: rest =>
      match toString a with
      | Throw e => Throw e
      | Normal s =>
          match mapToString rest with
          | Throw e => Throw e
          | Normal ss => Normal (s :: ss)
          end
      end
  end.

(** [`${hashKey}__timestamp`] of line 215. *)
Definition timestampString (hashKey : any) : completion any :=
  if printable hashKey then Normal (JStr (ToString hashKey +:+ "__timestamp"))
  else Throw TypeError.

(** [originalMethod.apply(this, args)]; the application is counted. *)
Definition applyOriginal (f : method) (this : Instance) (args : list any) : M any :=
  let! _ := counted in
  f this args.

(** Lines 183-201. *)
Definition openMap (f : MemoizedFunction) (this : Instance) : M (nat * nat) :=
  let myMap := (ref this, propMapName f) in
  let! _ := hasOwnProperty this in
  let! _ := ownMap myMap in
  let! _ :=
    match tags f with
    | Some tgs => forEach tgs (fun tag => pushTag tag (TheMap myMap))
    | None => ret tt
    end in
  ret myMap.

(** Lines 120-144. *)
Definition openDeepMap (f : MemoizedFunction) (this : Instance) : M (nat * nat) :=
  let myMap := (ref this, propDeepMapName f) in
  let! _ := hasOwnProperty this in
  let! _ := ownDeepMap myMap in
  let! _ :=
    match tags f with
    | Some tgs =>
        forEach tgs (fun tag =>
          let! id := newRef in
          pushTag tag (MapWrapper id myMap))
    | None => ret tt
    end in
  ret myMap.

(** Lines 146-157. *)
Definition deepHashKey (f : MemoizedFunction) (this : Instance) (args : list any)
    (argsArray : any) : M any :=
  match hashFunction f with
  | HFboolean true => ret argsArray
  | HFfunction h => h this args
  | _ =>
      if (0 <? length args)%nat
      then ret (if (length args =? 1)%nat then nth 0 args JUndefined else argsArray)
      else ret (thisValue this)
  end.

(** Lines 206-213. *)
Definition shallowHashKey (f : MemoizedFunction) (this : Instance) (args : list any) : M any :=
  match hashFunction f with
  | HFboolean true =>
      match mapToString args with
      | Normal strings => ret (JStr (String.concat "!" strings))
      | Throw e => throw e
      end
  | HFfunction h => h this args
  | _ => ret (nth 0 args JUndefined)
  end.

(** Lines 159-180. *)
Definition deepLookup (f : MemoizedFunction) (this : Instance) (args : list any)
    (myMap : nat * nat) (hashKey timestampKey : any) : M any :=
  let! isExpired :=
    (if (0 <? duration f)%Z then
       let! present := deepHas myMap timestampKey in
       if negb present then ret true
       else
         let! timestamp := deepGet myMap timestampKey in
         let! now := DateNow in
         complete (elapsedExceeds now timestamp (duration f))
     else ret false) in
  let! present := deepHas myMap hashKey in
  if present && negb isExpired then deepGet myMap hashKey
  else
    let! returnedValue := applyOriginal (originalMethod f) this args in
    let! _ := deepSet myMap hashKey returnedValue in
    let! _ :=
      (if (0 <? duration f)%Z then
         let! now := DateNow in
         deepSet myMap timestampKey (JNum now)
       else ret tt) in
    ret returnedValue.

(** Lines 215-235. *)
Definition shallowLookup (f : MemoizedFunction) (this : Instance) (args : list any)
    (myMap : nat * nat) (hashKey timestampKey : any) : M any :=
  let! isExpired :=
    (if (0 <? duration f)%Z then
       let! present := mapHas myMap timestampKey in
       if negb present then ret true
       else
         let! timestamp := mapGet myMap timestampKey in
         let! now := DateNow in
         complete (elapsedExceeds now timestamp (duration f))
     else ret false) in
  let! present := mapHas myMap hashKey in
  if present && negb isExpired then mapGet myMap hashKey
  else
    let! returnedValue := applyOriginal (originalMethod f) this args in
    let! _ := mapSet myMap hashKey returnedValue in
    let! _ :=
      (if (0 <? duration f)%Z then
         let! now := DateNow in
         mapSet myMap timestampKey (JNum now)
       else ret tt) in
    ret returnedValue.

(** Lines 238-244. *)
Definition thisLookup (f : MemoizedFunction) (this : Instance) (args : list any)
    (myMap : nat * nat) : M any :=
  let hashKey := thisValue this in
  let! present := mapHas myMap hashKey in
  if present then mapGet myMap hashKey
  else
    let! returnedValue := applyOriginal (originalMethod f) this args in
    let! _ := mapSet myMap hashKey returnedValue in
    ret returnedValue.

(** The test of line 203. *)
Definition keyed (f : MemoizedFunction) (args : list any) : bool :=
  truthy (hashFunction f) || (0 <? length args)%nat || (0 <? duration f)%Z.

(** The function returned at line 115. *)
Definition call (f : MemoizedFunction) (this : Instance) (args : list any) : M any :=
  let! argsRef := newRef in
  let argsArray := JArr argsRef args in
  if useDeepEqual f then
    let! myMap := openDeepMap f this in
    let! hashKey := deepHashKey f this args argsArray in
    let! timestampRef := newRef in
    let timestampKey := timestampObject timestampRef hashKey in
    deepLookup f this args myMap hashKey timestampKey
  else
    let! myMap := openMap f this in
    if keyed f args then
      let! hashKey := shallowHashKey f this args in
      let! timestampKey := complete (timestampString hashKey) in
      shallowLookup f this args myMap hashKey timestampKey
    else thisLookup f this args myMap.

(** Calls of one member, one after the other; a caller that catches what a
    call throws goes on with the next. *)
Fixpoint callEach (f : MemoizedFunction) (calls : list (Instance * list any)) (w : World)
    : World :=
  match calls with
  | [] => w
  | (this, args) :: rest => callEach f rest (snd (call f this args w))
  end.
End Wrapper.

End Reentrant.

(** User code that reads and writes the program state only, as user code
    of the module: the member [f] with its method and key function run by
    [onProgram]. *)
Definition detached (f : MemoizedFunction) : Reentrant.MemoizedFunction :=
  {| Reentrant.originalMethod := fun this args => onProgram (originalMethod f this args);
     Reentrant.hashFunction :=
       match hashFunction f with
       | HFundefined => Reentrant.HFundefined
       | HFboolean b => Reentrant.HFboolean b
       | HFfunction h => Reentrant.HFfunction (fun this args => onProgram (h this args))
       end;
     Reentrant.duration := duration f;
     Reentrant.tags := tags f;
     Reentrant.useDeepEqual := useDeepEqual f;
     Reentrant.propMapName := propMapName f;
     Reentrant.propDeepMapName := propDeepMapName f |}.

(** The options and symbols of a member, which is all the vocabulary of the
    stores looks at: the user code is left out. *)
Definition optionsOf (g : Reentrant.MemoizedFunction) : MemoizedFunction :=
  {| originalMethod := fun _ _ p => (Normal JUndefined, p);
     hashFunction := HFundefined;
     duration := Reentrant.duration g;
     tags := Reentrant.tags g;
     useDeepEqual := Reentrant.useDeepEqual g;
     propMapName := Reentrant.propMapName g;
     propDeepMapName := Reentrant.propDeepMapName g |}.

Section ReentrantVocabulary.
Context `{Host}.

(** User code that leaves every store with the entries it found: it calls
    no memoized member that has to store a result, and no [clear] that
    finds something to empty. *)
Definition quiet (m : Reentrant.method) : Prop :=
  forall this args w c w', m this args w = (c, w') ->
    forall b, theMap w' b = theMap w b /\ theDeepMap w' b = theDeepMap w b.

Definition quietKey (g : Reentrant.MemoizedFunction) : Prop :=
  match Reentrant.hashFunction g with
  | Reentrant.HFfunction h => quiet h
  | _ => True
  end.

(** [myMap.has(k)] and [myMap.get(k)] on the store the member uses for
    the receiver, in its mode. *)
Definition held (g : Reentrant.MemoizedFunction) (this : Instance) (w : World) (k : any)
    : bool :=
  present (optionsOf g) this w k.

Definition kept (g : Reentrant.MemoizedFunction) (this : Instance) (w : World) (k : any)
    : any :=
  stored (optionsOf g) this w k.

(** The world of a call after its opening lines (115-144, 183-201). *)
Definition entered (g : Reentrant.MemoizedFunction) (this : Instance) (w : World) : World :=
  snd ((let! _ := newRef in
        if Reentrant.useDeepEqual g then Reentrant.openDeepMap g this
        else Reentrant.openMap g this) w).

(** The key derivation of a call (lines 146-157, 203-213), run where the
    call runs it; it leaves a world of its own when the key function is
    user code. *)
Definition derivation (g : Reentrant.MemoizedFunction) (this : Instance) (args : list any)
    (w : World) : completion any * World :=
  if Reentrant.useDeepEqual g
  then Reentrant.deepHashKey g this args (JArr (refs w) args) (entered g this w)
  else if Reentrant.keyed g args then Reentrant.shallowHashKey g this args (entered g this w)
  else (Normal (thisValue this), entered g this w).

(** Whether the call makes the text of its key (line 215). *)
Definition printed (g : Reentrant.MemoizedFunction) (args : list any) : bool :=
  negb (Reentrant.useDeepEqual g) && Reentrant.keyed g args.

(** The world in which the lookup starts and the key of the timestamp,
    [w1] being the world the key derivation left. *)
Definition atLookup (g : Reentrant.MemoizedFunction) (w1 : World) : World :=
  if Reentrant.useDeepEqual g then setRefs (S (refs w1)) w1 else w1.

Definition timestampKeyAt (g : Reentrant.MemoizedFunction) (w1 : World) (k : any) : any :=
  if Reentrant.useDeepEqual g then timestampObject (refs w1) k else timestampString k.

(** The lookup finds the key present and not stale. *)
Definition answered (g : Reentrant.MemoizedFunction) (this : Instance) (w1 : World) (k : any)
    : bool :=
  usable (optionsOf g) this (atLookup g w1) k (timestampKeyAt g w1 k).

(** The staleness test ends in a [TypeError]: the member has a window and
    the timestamp record is a value of which no number can be made. *)
Definition garbled (g : Reentrant.MemoizedFunction) (this : Instance) (w1 : World) (k : any)
    : bool :=
  (0 <? Reentrant.duration g)%Z &&
  held g this (atLookup g w1) (timestampKeyAt g w1 k) &&
  negb (printable (kept g this (atLookup g w1) (timestampKeyAt g w1 k))).

(** The world after the staleness test. *)
Definition tested (g : Reentrant.MemoizedFunction) (this : Instance) (w1 : World) (k : any)
    : World :=
  afterCheck (Reentrant.duration g) (held g this (atLookup g w1) (timestampKeyAt g w1 k))
    (atLookup g w1).

(** The world in which a call that is not answered from its store applies
    the original method. *)
Definition atMethod (g : Reentrant.MemoizedFunction) (this : Instance) (w1 : World) (k : any)
    : World :=
  setInvoked (S (invoked (tested g this w1 k))) (tested g this w1 k).

(** The call derives the key [k], which leaves the world [w1], and goes on
    to apply the original method: the wrapper throws nothing of its own on
    the way, and the lookup does not answer. *)
Definition applies (g : Reentrant.MemoizedFunction) (this : Instance) (args : list any)
    (w : World) (k : any) (w1 : World) : Prop :=
  Reentrant.receptive this = true /\
  derivation g this args w = (Normal k, w1) /\
  (printed g args = true -> printable k = true) /\
  garbled g this w1 k = false /\
  answered g this w1 k = false.

(** Lines 176-179 and 231-234, run in the world [w2] the original method
    left. *)
Definition recorded (g : Reentrant.MemoizedFunction) (this : Instance) (k tk v : any)
    (w2 : World) : World :=
  if Reentrant.useDeepEqual g then
    let myMap := (ref this, Reentrant.propDeepMapName g) in
    snd ((let! _ := deepSet myMap k v in
          if (0 <? Reentrant.duration g)%Z
          then let! now := DateNow in deepSet myMap tk (JNum now)
          else ret tt) w2)
  else
    let myMap := (ref this, Reentrant.propMapName g) in
    snd ((let! _ := mapSet myMap k v in
          if (0 <? Reentrant.duration g)%Z
          then let! now := DateNow in mapSet myMap tk (JNum now)
          else ret tt) w2).
End ReentrantVocabulary.

(** ** A member that calls itself

    [f(n) { if (n === 0) return 0; this.f(0); throw 'boom'; }] under
    [@Memoize()].  [body fuel] is the method for calls that nest [fuel]
    deep at most; the method nests one deep, the nested call having the
    argument 0, so [f] below is the member itself. *)
Module Nested.
Section Body.
Context `{Host}.

Definition memberOf (m : Reentrant.method) : Reentrant.MemoizedFunction :=
  {| Reentrant.originalMethod := m; Reentrant.hashFunction := Reentrant.HFundefined;
     Reentrant.duration := 0; Reentrant.tags := None; Reentrant.useDeepEqual := false;
     Reentrant.propMapName := 0; Reentrant.propDeepMapName := 1 |}.

Fixpoint body (fuel : nat) : Reentrant.method := fun this args =>
  match nth 0 args JUndefined, fuel with
  | JNum 0, _ => ret (JNum 0)
  | _, S fuel' =>
      let! _ := Reentrant.call (memberOf (body fuel')) this [JNum 0] in
      throw (JStr "boom")
  | _, O => throw (JStr "boom")
  end.

Definition f : Reentrant.MemoizedFunction := memberOf (body 1).

(** [g(n) { if (n === 0) return 0; this.g(0); return 1; }] under
    [@Memoize(() => 'x')]: every call has the key ['x']. *)
Definition keyX : Reentrant.method := fun _ _ => ret (JStr "x").

Definition memberX (m : Reentrant.method) : Reentrant.MemoizedFunction :=
  {| Reentrant.originalMethod := m; Reentrant.hashFunction := Reentrant.HFfunction keyX;
     Reentrant.duration := 0; Reentrant.tags := None; Reentrant.useDeepEqual := false;
     Reentrant.propMapName := 0; Reentrant.propDeepMapName := 1 |}.

Fixpoint bodyX (fuel : nat) : Reentrant.method := fun this args =>
  match nth 0 args JUndefined, fuel with
  | JNum 0, _ => ret (JNum 0)
  | _, S fuel' =>
      let! _ := Reentrant.call (memberX (bodyX fuel')) this [JNum 0] in
      ret (JNum 1)
  | _, O => ret (JNum 1)
  end.

Definition g : Reentrant.MemoizedFunction := memberX (bodyX 1).

(** [h(n) { clear(['foo']); return n; }] under [@Memoize({ tags: ['foo'] })]. *)
Definition clearing : Reentrant.method := fun _ args =>
  let! _ := clear ["foo"] in
  ret (nth 0 args JUndefined).

Definition h : Reentrant.MemoizedFunction :=
  {| Reentrant.originalMethod := clearing; Reentrant.hashFunction := Reentrant.HFundefined;
     Reentrant.duration := 0; Reentrant.tags := Some ["foo"]; Reentrant.useDeepEqual := false;
     Reentrant.propMapName := 0; Reentrant.propDeepMapName := 1 |}.
End Body.
End Nested.

(** * Properties *)

(** ** SameValueZero and the built-in [Map] *)

Lemma sameValueZero_refl a : sameValueZero a a = true.
Proof.
  destruct a as [| |b|n|s|r l|r l]; simpl; auto using Z.eqb_refl, String.eqb_refl, Nat.eqb_refl.
  destruct b; reflexivity.
Qed.

Lemma sameValueZero_sym a b : sameValueZero a b = sameValueZero b a.
Proof.
  destruct a, b; simpl; auto using Z.eqb_sym, String.eqb_sym, Nat.eqb_sym.
  destruct b, b0; reflexivity.
Qed.

Lemma sameValueZero_trans a b c :
  sameValueZero a b = true -> sameValueZero b c = true -> sameValueZero a c = true.
Proof.
  destruct a, b; simpl; try discriminate; destruct c; simpl; try discriminate; auto.
  - destruct b, b0, b1; simpl; auto.
  - rewrite !Z.eqb_eq. congruence.
  - rewrite !String.eqb_eq. congruence.
  - rewrite !Nat.eqb_eq. congruence.
  - rewrite !Nat.eqb_eq. congruence.
Qed.

Section MapFacts.
Context {K V : Type} (same : K -> K -> bool).
Hypothesis same_sym : forall a b, same a b = same b a.
Hypothesis same_trans : forall a b c, same a b = true -> same b c = true -> same a c = true.

Lemma Map_has_get (m : list (K * V)) k :
  Map_has same m k = match Map_get same m k with Some _ => true | None => false end.
Proof.
  induction m as [|[k' v'] m IH]; simpl; [reflexivity|].
  destruct (same k' k); auto.
Qed.

Lemma Map_get_set (m : list (K * V)) k v q :
  Map_get same (Map_set same m k v) q =
  if same k q then Some v else Map_get same m q.
Proof.
  induction m as [|[k' v'] m IH]; simpl.
  - destruct (same k q); reflexivity.
  - destruct (same k' k) eqn:Ek; simpl.
    + destruct (same k q) eqn:Eq.
      * rewrite (same_trans k' k q Ek Eq). reflexivity.
      * destruct (same k' q) eqn:Eq'; [|reflexivity].
        rewrite same_sym in Ek.
        rewrite (same_trans k k' q Ek Eq') in Eq. discriminate.
    + destruct (same k' q) eqn:Eq'.
      * destruct (same k q) eqn:Eq; [|reflexivity].
        rewrite (same_sym k q) in Eq.
        rewrite (same_trans k' q k Eq' Eq) in Ek. discriminate.
      * apply IH.
Qed.

Lemma Map_has_set (m : list (K * V)) k v q :
  Map_has same (Map_set same m k v) q = same k q || Map_has same m q.
Proof.
  rewrite !Map_has_get, Map_get_set. destruct (same k q); reflexivity.
Qed.
End MapFacts.

Lemma AnyMap_get_set m k v q :
  AnyMap_get (AnyMap_set m k v) q = if sameValueZero k q then v else AnyMap_get m q.
Proof.
  unfold AnyMap_get, AnyMap_set.
  rewrite (Map_get_set sameValueZero sameValueZero_sym sameValueZero_trans).
  destruct (sameValueZero k q); reflexivity.
Qed.

Lemma AnyMap_has_set m k v q :
  AnyMap_has (AnyMap_set m k v) q = sameValueZero k q || AnyMap_has m q.
Proof.
  unfold AnyMap_has, AnyMap_set.
  apply (Map_has_set sameValueZero sameValueZero_sym sameValueZero_trans).
Qed.

Lemma string_length_app (s1 s2 : string) :
  String.length (s1 +:+ s2) = (String.length s1 + String.length s2)%nat.
Proof. induction s1 as [|c s1 IH]; simpl; [reflexivity|]. rewrite IH. reflexivity. Qed.

(** A key never coincides with the string that holds its timestamp. *)
Lemma timestampString_fresh k : sameValueZero k (timestampString k) = false.
Proof.
  destruct k; simpl; try reflexivity.
  apply String.eqb_neq. intros E.
  apply (f_equal String.length) in E. rewrite string_length_app in E. simpl in E. lia.
Qed.

Lemma string_eqb_sym' (a b : string) : String.eqb a b = String.eqb b a.
Proof. apply String.eqb_sym. Qed.

Lemma string_eqb_trans (a b c : string) :
  String.eqb a b = true -> String.eqb b c = true -> String.eqb a c = true.
Proof. rewrite !String.eqb_eq. congruence. Qed.

Section MapWf.
Context {K V : Type} (same : K -> K -> bool).
Hypothesis same_sym : forall a b, same a b = same b a.
Hypothesis same_trans : forall a b c, same a b = true -> same b c = true -> same a c = true.

Lemma Map_has_delete_false (m : list (K * V)) k q :
  Map_has same m q = false -> Map_has same (Map_delete same m k) q = false.
Proof.
  induction m as [|[k' v'] m IH]; simpl; [auto|].
  destruct (same k' q) eqn:Eq; [discriminate|]. intros Hq.
  destruct (same k' k); simpl; [assumption|]. rewrite Eq. auto.
Qed.

Lemma Map_wf_delete (m : list (K * V)) k :
  Map_wf same m = true -> Map_wf same (Map_delete same m k) = true.
Proof.
  induction m as [|[k' v'] m IH]; simpl; [auto|].
  intros Hwf. apply andb_true_iff in Hwf as [Hh Hw].
  destruct (same k' k); simpl; [assumption|].
  apply andb_true_iff. split; [|auto].
  apply negb_true_iff. apply Map_has_delete_false. apply negb_true_iff. assumption.
Qed.

Lemma Map_wf_set (m : list (K * V)) k v :
  Map_wf same m = true -> Map_wf same (Map_set same m k v) = true.
Proof.
  induction m as [|[k' v'] m IH]; simpl; [auto|].
  intros Hwf. apply andb_true_iff in Hwf as [Hh Hw].
  destruct (same k' k) eqn:Ek; simpl.
  - rewrite Hh, Hw. reflexivity.
  - rewrite (Map_has_set same same_sym same_trans), IH by assumption.
    rewrite same_sym, Ek. simpl. rewrite Hh. reflexivity.
Qed.
End MapWf.

Lemma Map_set_fresh {K V} (same : K -> K -> bool) (m : list (K * V)) k v :
  Map_has same m k = false -> Map_set same m k v = m ++ [(k, v)].
Proof.
  induction m as [|[k' v'] m IH]; simpl; [reflexivity|].
  destruct (same k' k); [discriminate|]. intros Hk. rewrite IH by exact Hk. reflexivity.
Qed.

Lemma once_app l s :
  DeepEqualMap.once (l ++ [s]) =
  DeepEqualMap.once l && negb (existsb (fun s' => String.eqb s' s) l).
Proof.
  induction l as [|x l IH]; simpl; [reflexivity|].
  rewrite IH, existsb_app. simpl. rewrite orb_false_r.
  destruct (existsb (String.eqb x) l); simpl; [reflexivity|].
  destruct (String.eqb x s); simpl; [rewrite andb_false_r; reflexivity|].
  reflexivity.
Qed.

(** ** [DeepEqualMap] *)

Module DeepFacts.
Import DeepEqualMap.
Section Laws.
Context `{EqualLaws}.

Lemma equal_false_sym a b : equal a b = false -> equal b a = false.
Proof.
intros E. destruct (equal b a) eqn:E'; [|reflexivity].
apply equal_sym in E'. congruence.
Qed.

Lemma has_in_equal es k q : equal k q = true -> has_in es k = has_in es q.
Proof.
intros E. induction es as [|e es IH]; simpl; [reflexivity|].
destruct (equal (key e) k) eqn:E1.
- rewrite (equal_trans _ _ _ E1 E). reflexivity.
- destruct (equal (key e) q) eqn:E2; [|exact IH].
apply equal_sym in E. rewrite (equal_trans _ _ _ E2 E) in E1. discriminate.
Qed.


Lemma find_in_serial (map : t) k s :
find_in map k = Some s -> Map_has String.eqb map s = true.
Proof.
induction map as [|[s' e] rest IH]; simpl; [discriminate|].
destruct (equal (key e) k).
- intros [= ->]. rewrite String.eqb_refl. reflexivity.
- intros Hf. rewrite (IH Hf). destruct (String.eqb s' s); reflexivity.
Qed.

(** The loop of [set] removes the first matching entry. *)
Lemma delete_found (map : t) k :
Map_wf String.eqb map = true ->
match find_in map k with
| Some s => Map_delete String.eqb map s
| None => map
end = drop_match map k.
Proof.
induction map as [|[s e] rest IH]; simpl; [reflexivity|].
intros Hwf. apply andb_true_iff in Hwf as [Hs Hw]. apply negb_true_iff in Hs.
destruct (equal (key e) k) eqn:Ek.
- rewrite String.eqb_refl. reflexivity.
- specialize (IH Hw). destruct (find_in rest k) as [s'|] eqn:Ef.
+ destruct (String.eqb s s') eqn:Es.
  * apply String.eqb_eq in Es. subst s'.
    apply find_in_serial in Ef. congruence.
  * f_equal. exact IH.
+ f_equal. exact IH.
Qed.

Lemma has_in_drop_false (map : t) k q :
has map q = false -> has (drop_match map k) q = false.
Proof.
unfold has. induction map as [|[s e] rest IH]; simpl; [auto|].
destruct (equal (key e) q) eqn:Eq; [discriminate|]. intros Hq.
destruct (equal (key e) k); simpl; [assumption|]. rewrite Eq. auto.
Qed.

Lemma distinct_drop (map : t) k :
distinct (List.map snd map) = true -> distinct (List.map snd (drop_match map k)) = true.
Proof.
induction map as [|[s e] rest IH]; simpl; [auto|].
intros Hd. apply andb_true_iff in Hd as [Hh Hd].
destruct (equal (key e) k); simpl; [assumption|].
apply andb_true_iff. split; [|auto].
apply negb_true_iff. apply (has_in_drop_false rest k (key e)).
apply negb_true_iff. exact Hh.
Qed.

Lemma serials_drop (map : t) k s :
Map_has String.eqb map s = false -> Map_has String.eqb (drop_match map k) s = false.
Proof.
induction map as [|[s' e] rest IH]; simpl; [auto|].
destruct (String.eqb s' s) eqn:Es; [discriminate|]. intros Hs.
destruct (equal (key e) k); simpl; [assumption|]. rewrite Es. auto.
Qed.

Lemma Map_wf_drop (map : t) k :
Map_wf String.eqb map = true -> Map_wf String.eqb (drop_match map k) = true.
Proof.
induction map as [|[s e] rest IH]; simpl; [auto|].
intros Hwf. apply andb_true_iff in Hwf as [Hs Hw].
destruct (equal (key e) k); simpl; [assumption|].
apply andb_true_iff. split; [|auto].
apply negb_true_iff. apply serials_drop. apply negb_true_iff. exact Hs.
Qed.

(** In a well-formed store nothing else matches once the first match is
gone. *)
Lemma has_drop_match (map : t) k :
distinct (List.map snd map) = true -> has (drop_match map k) k = false.
Proof.
unfold has. induction map as [|[s e] rest IH]; simpl; [auto|].
intros Hd. apply andb_true_iff in Hd as [Hh Hd]. apply negb_true_iff in Hh.
destruct (equal (key e) k) eqn:Ek; simpl.
- rewrite <- (has_in_equal _ _ _ Ek). exact Hh.
- rewrite Ek. auto.
Qed.

(** Putting an entry into a store that has no match for its key. *)
Lemma distinct_put (map : t) s k v :
has map k = false -> distinct (List.map snd map) = true ->
distinct (List.map snd (Map_set String.eqb map s (Entry k v))) = true.
Proof.
unfold has. induction map as [|[s' e] rest IH]; simpl; [auto|].
destruct (equal (key e) k) eqn:Ek; [discriminate|]. intros Hk Hd.
apply andb_true_iff in Hd as [Hh Hd]. apply negb_true_iff in Hh.
destruct (String.eqb s' s); simpl.
- rewrite Hd, andb_true_r. apply negb_true_iff.
destruct (has_in (List.map snd rest) k) eqn:E; congruence.
- rewrite IH by assumption. rewrite andb_true_r. apply negb_true_iff.
clear IH Hd. revert Hh. induction rest as [|[s1 e1] rest IH1]; simpl.
+ intros _. rewrite (equal_false_sym _ _ Ek). reflexivity.
+ destruct (equal (key e1) (key e)) eqn:E1; [discriminate|]. intros Hh.
  simpl in Hk. destruct (equal (key e1) k) eqn:E2; [discriminate|].
  destruct (String.eqb s1 s); simpl.
  * rewrite (equal_false_sym _ _ Ek). exact Hh.
  * rewrite E1. apply IH1; assumption.
Qed.

Lemma get_put (map : t) s k v q :
has map q = false -> equal k q = true ->
get (Map_set String.eqb map s (Entry k v)) q = v /\
has (Map_set String.eqb map s (Entry k v)) q = true /\
length (matching (Map_set String.eqb map s (Entry k v)) q) = 1%nat.
Proof.
unfold has, get, matching. intros Hq E.
induction map as [|[s' e] rest IH]; simpl in *.
- rewrite E. auto.
- destruct (equal (key e) q) eqn:Eq; [discriminate|].
destruct (String.eqb s' s); simpl.
+ rewrite E. simpl. repeat split; auto.
  f_equal. clear IH. induction rest as [|[s1 e1] rest IH1]; simpl in *; [reflexivity|].
  destruct (equal (key e1) q); [discriminate|]. auto.
+ rewrite Eq. auto.
Qed.

Lemma set_eq (map : t) k v now random :
Map_wf String.eqb map = true ->
set map k v now random =
Map_set String.eqb (drop_match map k) (pretty now +:+ "_" +:+ random) (Entry k v).
Proof. intros Hwf. unfold set. rewrite delete_found by assumption. reflexivity. Qed.

Lemma wf_set (map : t) k v now random :
wf map = true -> wf (set map k v now random) = true.
Proof.
unfold wf. intros Hwf. apply andb_true_iff in Hwf as [Hs Hd].
rewrite set_eq by assumption. apply andb_true_iff. split.
- apply (Map_wf_set String.eqb string_eqb_sym' string_eqb_trans).
apply Map_wf_drop. assumption.
- apply distinct_put; [apply has_drop_match|apply distinct_drop]; assumption.
Qed.

Lemma wf_after ops : wf (after ops) = true.
Proof.
unfold after. 
assert (G : forall m, wf m = true ->
wf (fold_left (fun map '(k, v, now, random) => set map k v now random) ops m) = true).
{ induction ops as [|[[[k v] now] random] ops IH]; simpl; [auto|].
intros m Hm. apply IH. apply wf_set. exact Hm. }
apply G. reflexivity.
Qed.

Lemma set_same (map : t) k v now random q :
wf map = true -> equal k q = true ->
get (set map k v now random) q = v /\
has (set map k v now random) q = true /\
length (matching (set map k v now random) q) = 1%nat.
Proof.
unfold wf. intros Hwf E. apply andb_true_iff in Hwf as [Hs Hd].
rewrite set_eq by assumption. apply get_put; [|assumption].
unfold has. rewrite <- (has_in_equal _ _ _ E). apply has_drop_match. assumption.
Qed.

Lemma length_drop_match (map : t) k :
has map k = true -> S (length (drop_match map k)) = length map.
Proof.
unfold has. induction map as [|[s e] rest IH]; simpl; [discriminate|].
destruct (equal (key e) k); simpl; [reflexivity|]. intros Hk. rewrite IH; auto.
Qed.

Lemma length_Map_set {K V} (same : K -> K -> bool) (m : list (K * V)) k v :
(length (Map_set same m k v) <= S (length m))%nat.
Proof.
induction m as [|[k' v'] m IH]; simpl; [lia|].
destruct (same k' k); simpl; lia.
Qed.

Lemma set_replaces (map : t) k v now random :
wf map = true -> has map k = true ->
(length (set map k v now random) <= length map)%nat.
Proof.
unfold wf. intros Hwf Hk. apply andb_true_iff in Hwf as [Hs Hd].
rewrite set_eq by assumption. rewrite <- (length_drop_match map k Hk).
apply length_Map_set.
Qed.
Lemma drop_match_other (map : t) k q :
  equal k q = false ->
  has (drop_match map k) q = has map q /\ get (drop_match map k) q = get map q.
Proof.
  intros E. unfold has, get. induction map as [|[s e] rest IH]; simpl; [auto|].
  destruct (equal (key e) k) eqn:Ek; simpl.
  - destruct (equal (key e) q) eqn:Eq; [|auto].
    apply equal_sym in Ek. rewrite (equal_trans _ _ _ Ek Eq) in E. discriminate.
  - destruct (equal (key e) q); auto.
Qed.

Lemma put_other (map : t) s k v q :
  equal k q = false -> Map_has String.eqb map s = false ->
  has (Map_set String.eqb map s (Entry k v)) q = has map q /\
  get (Map_set String.eqb map s (Entry k v)) q = get map q.
Proof.
  intros E Hs. rewrite (Map_set_fresh String.eqb map s _ Hs).
  unfold has, get. rewrite map_app. simpl.
  induction (List.map snd map) as [|e es IH]; simpl.
  - rewrite E. auto.
  - destruct (equal (key e) q); auto.
Qed.

(** Storing under one key leaves the answers for a key that is not equal
    to it, when the serialized key drawn is not in use. *)
Lemma set_other (map : t) k v now random q :
  wf map = true -> equal k q = false ->
  Map_has String.eqb map (pretty now +:+ "_" +:+ random) = false ->
  has (set map k v now random) q = has map q /\
  get (set map k v now random) q = get map q.
Proof.
  unfold wf. intros Hwf E Hs. apply andb_true_iff in Hwf as [Hw Hd].
  rewrite set_eq by exact Hw.
  destruct (drop_match_other map k q E) as [Eh Eg].
  destruct (put_other (drop_match map k) (pretty now +:+ "_" +:+ random) k v q E) as [Eh' Eg'].
  - apply serials_drop. exact Hs.
  - split; congruence.
Qed.

Lemma after_snoc ops k v now random :
  after (ops ++ [(k, v, now, random)]) = set (after ops) k v now random.
Proof. unfold after. rewrite fold_left_app. reflexivity. Qed.

Lemma written_snoc ops k v now random q :
  written (ops ++ [(k, v, now, random)]) q = if equal k q then Some v else written ops q.
Proof. unfold written. rewrite fold_left_app. reflexivity. Qed.

(** The serialized keys in the store are among those drawn. *)
Lemma serials_after ops s :
  Map_has String.eqb (after ops) s = true ->
  existsb (fun s' => String.eqb s' s) (serials ops) = true.
Proof.
  induction ops as [|[[[k v] now] random] ops IH] using rev_ind; [discriminate|].
  rewrite after_snoc. unfold serials. rewrite map_app, existsb_app. simpl.
  fold (serials ops). unfold set.
  rewrite (Map_has_set String.eqb string_eqb_sym' string_eqb_trans).
  destruct (String.eqb (pretty now +:+ "_" +:+ random) s) eqn:Es; simpl.
  - intros _. apply orb_true_r.
  - intros Hs. rewrite IH; [reflexivity|].
    destruct (find_in (after ops) k) as [s0|]; [|exact Hs].
    destruct (Map_has String.eqb (after ops) s) eqn:Em; [reflexivity|].
    rewrite (Map_has_delete_false String.eqb (after ops) s0 s Em) in Hs. discriminate.
Qed.

(** When no serialized key is drawn twice, the store answers for every key
    what was written last for it. *)
Lemma after_written ops q :
  once (serials ops) = true ->
  has (after ops) q = match written ops q with Some _ => true | None => false end /\
  get (after ops) q = default JUndefined (written ops q).
Proof.
  induction ops as [|[[[k v] now] random] ops IH] using rev_ind; [intros _; split; reflexivity|].
  unfold serials. rewrite map_app. simpl. fold (serials ops).
  rewrite once_app. intros Ho. apply andb_true_iff in Ho as [Ho Hs].
  apply negb_true_iff in Hs. specialize (IH Ho).
  rewrite after_snoc, written_snoc.
  destruct (equal k q) eqn:E.
  - destruct (set_same (after ops) k v now random q (wf_after ops) E)
      as (Hg & Hh & _).
    simpl. auto.
  - destruct (set_other (after ops) k v now random q (wf_after ops) E)
      as [Eh Eg].
    + destruct (Map_has String.eqb (after ops) (pretty now +:+ "_" +:+ random)) eqn:Em;
        [|reflexivity].
      apply serials_after in Em. congruence.
    + rewrite Eh, Eg. exact IH.
Qed.
End Laws.
End DeepFacts.

(** ** A call, step by step *)

Ltac exec :=
  unfold shallowLookup, deepLookup, thisLookup, applyOriginal, counted, onProgram,
    mapHas, mapGet, mapSet, deepHas, deepGet, deepSet, DateNow, MathRandom, newRef,
    withMaps, withDeepMaps, ret, bind, theMap, theDeepMap, stale, afterCheck, ran in *.

Section Calls.
Context `{Host}.

Lemma forEach_pushTag tgs mp w :
  forEach tgs (fun tag => pushTag tag mp) w =
  (Normal tt, setTags (registered tgs mp (clearCacheTagsMap w)) w).
Proof.
  revert w. induction tgs as [|tag rest IH]; intros w; simpl.
  - destruct w; reflexivity.
  - unfold bind, pushTag, withTags. rewrite IH. destruct w; reflexivity.
Qed.

Lemma forEach_pushWrapper tgs myMap w :
  forEach tgs (fun tag => let! id := newRef in pushTag tag (MapWrapper id myMap)) w =
  (Normal tt,
   setRefs (refs w + length tgs)
     (setTags (registeredDeep tgs myMap (refs w) (clearCacheTagsMap w)) w)).
Proof.
  revert w. induction tgs as [|tag rest IH]; intros w; simpl.
  - rewrite Nat.add_0_r. destruct w; reflexivity.
  - unfold bind, pushTag, withTags, newRef. rewrite IH. destruct w; simpl.
    rewrite Nat.add_succ_r. reflexivity.
Qed.

Lemma ensured_default {E} (a b : nat * nat) (ms : gmap (nat * nat) (list E)) :
  default [] (ensured a ms !! b) = default [] (ms !! b).
Proof.
  unfold ensured. destruct (ms !! a) eqn:E1; rewrite ?E1; [reflexivity|].
  destruct (decide (a = b)) as [->|Hne].
  - rewrite lookup_insert_eq, E1. reflexivity.
  - rewrite lookup_insert_ne by assumption. reflexivity.
Qed.

Lemma shallowLookup_eq f this args a k tk w :
  shallowLookup f this args a k tk w =
  let m := theMap w a in
  let w0 := afterCheck (duration f) (AnyMap_has m tk) w in
  if AnyMap_has m k &&
     negb (stale (duration f) (AnyMap_has m tk) (AnyMap_get m tk) (Date_now (ticks w)))
  then (Normal (AnyMap_get m k), w0)
  else
    let '(c, p) := originalMethod f this args (program w) in
    match c with
    | Throw e => (Throw e, ran p w0)
    | Normal v =>
        (Normal v,
         if (0 <? duration f)%Z
         then setMaps (<[a := AnyMap_set (AnyMap_set m k v) tk (JNum (Date_now (ticks w0)))]> (maps w))
                (setTicks (S (ticks w0)) (ran p w0))
         else setMaps (<[a := AnyMap_set m k v]> (maps w)) (ran p w0))
    end.
Proof.
  exec. cbv zeta.
  destruct (0 <? duration f)%Z eqn:Ed; simpl;
  destruct (AnyMap_has (default [] (maps w !! a)) tk) eqn:Et; simpl;
  destruct (AnyMap_has (default [] (maps w !! a)) k) eqn:Ek; simpl;
  try destruct (elapsedExceeds _ _ _) eqn:Ee; simpl; try reflexivity;
  destruct (originalMethod f this args (program w)) as [[v|e] p]; simpl; try reflexivity;
  rewrite ?Ed; simpl; rewrite ?lookup_insert_eq, ?insert_insert_eq; simpl; reflexivity.
Qed.

Lemma thisLookup_eq f this args a tk w :
  (duration f <= 0)%Z ->
  thisLookup f this args a w = shallowLookup f this args a (thisValue this) tk w.
Proof.
  intros Hd. assert (Ed : (0 <? duration f)%Z = false) by (apply Z.ltb_ge; assumption).
  exec. rewrite Ed. simpl.
  destruct (AnyMap_has (default [] (maps w !! a)) (thisValue this)) eqn:Ek; simpl;
    reflexivity.
Qed.

Lemma deepLookup_eq f this args a k tk w :
  deepLookup f this args a k tk w =
  let m := theDeepMap w a in
  let w0 := afterCheck (duration f) (DeepEqualMap.has m tk) w in
  if DeepEqualMap.has m k &&
     negb (stale (duration f) (DeepEqualMap.has m tk) (DeepEqualMap.get m tk)
             (Date_now (ticks w)))
  then (Normal (DeepEqualMap.get m k), w0)
  else
    let '(c, p) := originalMethod f this args (program w) in
    match c with
    | Throw e => (Throw e, ran p w0)
    | Normal v =>
        let m1 := DeepEqualMap.set m k v (Date_now (ticks w0)) (Math_random (rolls w)) in
        (Normal v,
         if (0 <? duration f)%Z
         then
           let m2 := DeepEqualMap.set m1 tk (JNum (Date_now (S (ticks w0))))
                       (Date_now (S (S (ticks w0)))) (Math_random (S (rolls w))) in
           setDeepMaps (<[a := m2]> (deepMaps w))
             (setRolls (S (S (rolls w))) (setTicks (S (S (S (ticks w0)))) (ran p w0)))
         else
           setDeepMaps (<[a := m1]> (deepMaps w))
             (setRolls (S (rolls w)) (setTicks (S (ticks w0)) (ran p w0))))
    end.
Proof.
  exec. cbv zeta.
  destruct (0 <? duration f)%Z eqn:Ed; simpl;
  destruct (DeepEqualMap.has (default [] (deepMaps w !! a)) tk) eqn:Et; simpl;
  destruct (DeepEqualMap.has (default [] (deepMaps w !! a)) k) eqn:Ek; simpl;
  try destruct (elapsedExceeds _ _ _) eqn:Ee; simpl; try reflexivity;
  destruct (originalMethod f this args (program w)) as [[v|e] p]; simpl; try reflexivity;
  rewrite ?Ed; simpl; rewrite ?lookup_insert_eq, ?insert_insert_eq; simpl;
  destruct w; reflexivity.
Qed.

(** The call up to its lookup. *)
Lemma call_eq f this args w :
  call f this args w =
  match derivedKey f this args w with
  | (Throw e, p) =>
      (Throw e, setProgram p (if useDeepEqual f then enteredDeepMap f this w
                              else enteredMap f this w))
  | (Normal k, p) =>
      if useDeepEqual f then
        deepLookup f this args (ref this, propDeepMapName f) k (timestampKeyOf f w k)
          (setRefs (S (S (refs w) + wrappers f)) (setProgram p (enteredDeepMap f this w)))
      else
        shallowLookup f this args (ref this, propMapName f) k (timestampKeyOf f w k)
          (setProgram p (enteredMap f this w))
  end.
Proof.
  unfold call, derivedKey, timestampKeyOf, enteredMap, enteredDeepMap, wrappers.
  destruct (useDeepEqual f) eqn:Hm.
  - unfold bind at 1. unfold newRef at 1. unfold openDeepMap.
    unfold bind at 1. unfold bind at 1. unfold ownDeepMap, withDeepMaps. unfold bind at 1.
    destruct (tags f) as [tgs|].
    + rewrite forEach_pushWrapper. cbn [ret refs setRefs setDeepMaps].
      unfold bind at 1. unfold onProgram at 1. cbn [program setRefs setTags setDeepMaps].
      destruct (deepHashKey f this args (JArr (refs w) args) (program w)) as [[k|e] p].
      * unfold bind at 1. unfold newRef at 1. destruct w; reflexivity.
      * destruct w; reflexivity.
    + cbn [ret]. unfold bind at 1. unfold onProgram at 1. cbn [program setRefs setTags setDeepMaps].
      destruct (deepHashKey f this args (JArr (refs w) args) (program w)) as [[k|e] p].
      * unfold bind at 1. unfold newRef at 1. destruct w; simpl. rewrite Nat.add_0_r. reflexivity.
      * destruct w; simpl. rewrite Nat.add_0_r. reflexivity.
  - unfold bind at 1. unfold newRef at 1. unfold openMap.
    unfold bind at 1. unfold bind at 1. unfold ownMap, withMaps. unfold bind at 1.
    assert (E : forall W W', W = W' ->
      (if keyed f args
       then let! hashKey := onProgram (shallowHashKey f this args) in
            shallowLookup f this args (ref this, propMapName f) hashKey (timestampString hashKey)
       else thisLookup f this args (ref this, propMapName f)) W =
      (let (c, p) := if keyed f args then shallowHashKey f this args (program W')
                     else (Normal (thisValue this), program W') in
       match c with
       | Normal k => shallowLookup f this args (ref this, propMapName f) k (timestampString k)
                       (setProgram p W')
       | Throw e => (Throw e, setProgram p W')
       end)).
    { intros W W' <-. destruct (keyed f args) eqn:Ek.
      - unfold bind, onProgram.
        destruct (shallowHashKey f this args (program W)) as [[k|e] p]; reflexivity.
      - rewrite (thisLookup_eq f this args _ (timestampString (thisValue this))).
        + destruct W; reflexivity.
        + unfold keyed in Ek. apply orb_false_iff in Ek as [_ Ek]. apply Z.ltb_ge. exact Ek. }
    destruct (tags f) as [tgs|].
    + rewrite forEach_pushTag. cbn [ret].
      erewrite E; [|reflexivity]. cbn [program setTags setMaps setRefs].
      destruct (keyed f args);
        [destruct (shallowHashKey f this args (program w)) as [[k|e] p]|]; destruct w; reflexivity.
    + cbn [ret]. erewrite E; [|reflexivity]. cbn [program setTags setMaps setRefs].
      destruct (keyed f args);
        [destruct (shallowHashKey f this args (program w)) as [[k|e] p]|]; destruct w; reflexivity.
Qed.

Lemma theMap_ready f this p w b :
  theMap (setProgram p (enteredMap f this w)) b = theMap w b.
Proof. unfold theMap, enteredMap; simpl. apply ensured_default. Qed.

Lemma theDeepMap_ready f this p w b :
  theDeepMap (setProgram p (enteredMap f this w)) b = theDeepMap w b.
Proof. reflexivity. Qed.

(** A call that finds its key present and not stale. *)
Lemma shallow_hit f this args w k p :
  useDeepEqual f = false ->
  derivedKey f this args w = (Normal k, p) ->
  let m := shallowStore f this w in
  let tk := timestampKeyOf f w k in
  AnyMap_has m k = true ->
  stale (duration f) (AnyMap_has m tk) (AnyMap_get m tk) (Date_now (ticks w)) = false ->
  exists w', call f this args w = (Normal (AnyMap_get m k), w') /\
    invoked w' = invoked w /\ program w' = p /\
    (forall b, theMap w' b = theMap w b) /\ (forall b, theDeepMap w' b = theDeepMap w b).
Proof.
  intros Hm Hk m tk Hhas Hstale.
  rewrite call_eq, Hk, Hm, shallowLookup_eq. cbv zeta.
  rewrite !theMap_ready. cbn [ticks enteredMap setProgram setTags setMaps setRefs].
  fold (shallowStore f this w). fold m. fold tk.
  rewrite Hhas, Hstale. simpl.
  eexists. split; [reflexivity|].
  unfold afterCheck.
  destruct ((0 <? duration f)%Z && AnyMap_has m tk); simpl; repeat split; auto;
    intros b; apply theMap_ready.
Qed.

(** A call that misses, or finds a stale entry. *)
Lemma shallow_miss f this args w k p c p' :
  useDeepEqual f = false ->
  derivedKey f this args w = (Normal k, p) ->
  let m := shallowStore f this w in
  let tk := timestampKeyOf f w k in
  AnyMap_has m k &&
    negb (stale (duration f) (AnyMap_has m tk) (AnyMap_get m tk) (Date_now (ticks w))) = false ->
  originalMethod f this args p = (c, p') ->
  exists w', call f this args w = (c, w') /\
    invoked w' = S (invoked w) /\ program w' = p' /\
    (forall b, theDeepMap w' b = theDeepMap w b) /\
    (forall b, b <> (ref this, propMapName f) -> theMap w' b = theMap w b) /\
    match c with
    | Throw _ => shallowStore f this w' = m
    | Normal v =>
        shallowStore f this w' =
        if (0 <? duration f)%Z
        then AnyMap_set (AnyMap_set m k v) tk
               (JNum (Date_now (if AnyMap_has m tk then S (ticks w) else ticks w)))
        else AnyMap_set m k v
    end.
Proof.
  intros Hm Hk m tk Hcond Hrun.
  rewrite call_eq, Hk, Hm, shallowLookup_eq. cbv zeta.
  rewrite !theMap_ready. cbn [ticks program enteredMap setProgram setTags setMaps setRefs].
  fold (shallowStore f this w). fold m. fold tk.
  rewrite Hcond, Hrun.
  unfold shallowStore, afterCheck, ran.
  destruct c as [v|e].
  - eexists. split; [reflexivity|].
    destruct (0 <? duration f)%Z eqn:Ed; simpl.
    + destruct (AnyMap_has m tk) eqn:Et; unfold theMap; simpl; rewrite lookup_insert_eq; simpl;
        repeat split; auto; intros b Hb; rewrite lookup_insert_ne by congruence;
        apply ensured_default.
    + unfold theMap; simpl. rewrite lookup_insert_eq; simpl.
      repeat split; auto; intros b Hb; rewrite lookup_insert_ne by congruence;
        apply ensured_default.
  - eexists. split; [reflexivity|].
    destruct ((0 <? duration f)%Z && AnyMap_has m tk); simpl; repeat split; auto;
      try (intros b Hb); apply theMap_ready.
Qed.

Lemma theDeepMap_readyDeep f this p n w b :
  theDeepMap (setRefs n (setProgram p (enteredDeepMap f this w))) b = theDeepMap w b.
Proof. unfold theDeepMap, enteredDeepMap; simpl. apply ensured_default. Qed.

Lemma deep_hit f this args w k p :
  useDeepEqual f = true ->
  derivedKey f this args w = (Normal k, p) ->
  let m := deepStore f this w in
  let tk := timestampKeyOf f w k in
  DeepEqualMap.has m k = true ->
  stale (duration f) (DeepEqualMap.has m tk) (DeepEqualMap.get m tk) (Date_now (ticks w)) = false ->
  exists w', call f this args w = (Normal (DeepEqualMap.get m k), w') /\
    invoked w' = invoked w /\ program w' = p /\
    (forall b, theMap w' b = theMap w b) /\ (forall b, theDeepMap w' b = theDeepMap w b).
Proof.
  intros Hm Hk m tk Hhas Hstale.
  rewrite call_eq, Hk, Hm, deepLookup_eq. cbv zeta.
  rewrite !theDeepMap_readyDeep. cbn [ticks enteredDeepMap setProgram setTags setDeepMaps setRefs].
  fold (deepStore f this w). fold m. fold tk.
  rewrite Hhas, Hstale. simpl.
  eexists. split; [reflexivity|].
  unfold afterCheck.
  destruct ((0 <? duration f)%Z && DeepEqualMap.has m tk); simpl; repeat split; auto;
    intros b; apply theDeepMap_readyDeep.
Qed.

Lemma deep_miss f this args w k p c p' :
  useDeepEqual f = true ->
  derivedKey f this args w = (Normal k, p) ->
  let m := deepStore f this w in
  let tk := timestampKeyOf f w k in
  DeepEqualMap.has m k &&
    negb (stale (duration f) (DeepEqualMap.has m tk) (DeepEqualMap.get m tk)
            (Date_now (ticks w))) = false ->
  originalMethod f this args p = (c, p') ->
  exists w', call f this args w = (c, w') /\
    invoked w' = S (invoked w) /\ program w' = p' /\
    (forall b, theMap w' b = theMap w b) /\
    (forall b, b <> (ref this, propDeepMapName f) -> theDeepMap w' b = theDeepMap w b) /\
    match c with
    | Throw _ => deepStore f this w' = m
    | Normal v =>
        let t := if (0 <? duration f)%Z && DeepEqualMap.has m tk then S (ticks w) else ticks w in
        let m1 := DeepEqualMap.set m k v (Date_now t) (Math_random (rolls w)) in
        deepStore f this w' =
        if (0 <? duration f)%Z
        then DeepEqualMap.set m1 tk (JNum (Date_now (S t)))
               (Date_now (S (S t))) (Math_random (S (rolls w)))
        else m1
    end.
Proof.
  intros Hm Hk m tk Hcond Hrun.
  rewrite call_eq, Hk, Hm, deepLookup_eq. cbv zeta.
  rewrite !theDeepMap_readyDeep.
  cbn [ticks rolls program enteredDeepMap setProgram setTags setDeepMaps setRefs].
  fold (deepStore f this w). fold m. fold tk.
  rewrite Hcond, Hrun.
  unfold deepStore, afterCheck, ran.
  destruct c as [v|e].
  - eexists. split; [reflexivity|].
    destruct (0 <? duration f)%Z eqn:Ed; simpl.
    + destruct (DeepEqualMap.has m tk) eqn:Et; unfold theDeepMap; simpl;
        rewrite lookup_insert_eq; simpl;
        repeat split; auto; intros b Hb; rewrite lookup_insert_ne by congruence;
        apply ensured_default.
    + unfold theDeepMap; simpl. rewrite lookup_insert_eq; simpl.
      repeat split; auto; intros b Hb; rewrite lookup_insert_ne by congruence;
        apply ensured_default.
  - eexists. split; [reflexivity|].
    destruct ((0 <? duration f)%Z && DeepEqualMap.has m tk); simpl; repeat split; auto;
      try (intros b Hb); apply theDeepMap_readyDeep.
Qed.

(** The key derivation throws. *)
Lemma call_key_throws f this args w e p :
  derivedKey f this args w = (Throw e, p) ->
  exists w', call f this args w = (Throw e, w') /\
    invoked w' = invoked w /\ program w' = p /\
    (forall b, theMap w' b = theMap w b) /\ (forall b, theDeepMap w' b = theDeepMap w b).
Proof.
  intros Hk. rewrite call_eq, Hk. eexists. split; [reflexivity|].
  destruct (useDeepEqual f); simpl; repeat split; auto; intros b.
  - apply (theDeepMap_readyDeep f this p (refs (enteredDeepMap f this w)) w b).
  - apply theMap_ready.
Qed.
End Calls.

(** ** Calls whose user code uses the module *)

Section General.
Context `{Host}.

Lemma general_open g this w :
  (let! _ := newRef in
   if Reentrant.useDeepEqual g then Reentrant.openDeepMap g this
   else Reentrant.openMap g this) w =
  if Reentrant.receptive this
  then (Normal (ref this, if Reentrant.useDeepEqual g then Reentrant.propDeepMapName g
                          else Reentrant.propMapName g),
        if Reentrant.useDeepEqual g then enteredDeepMap (optionsOf g) this w
        else enteredMap (optionsOf g) this w)
  else (Throw TypeError, setRefs (S (refs w)) w).
Proof.
  unfold enteredMap, enteredDeepMap, wrappers, Reentrant.openMap, Reentrant.openDeepMap,
    Reentrant.hasOwnProperty.
  cbn [tags optionsOf propMapName propDeepMapName].
  unfold bind at 1. unfold newRef at 1.
  destruct (Reentrant.receptive this); [|destruct (Reentrant.useDeepEqual g); reflexivity].
  destruct (Reentrant.useDeepEqual g).
  - unfold bind at 1. unfold ret at 1. unfold bind at 1. unfold bind at 1.
    unfold ownDeepMap, withDeepMaps.
    destruct (Reentrant.tags g) as [tgs|].
    + rewrite forEach_pushWrapper. destruct w; reflexivity.
    + destruct w; simpl. rewrite Nat.add_0_r. reflexivity.
  - unfold bind at 1. unfold ret at 1. unfold bind at 1. unfold bind at 1.
    unfold ownMap, withMaps.
    destruct (Reentrant.tags g) as [tgs|].
    + rewrite forEach_pushTag. destruct w; reflexivity.
    + destruct w; reflexivity.
Qed.

Lemma general_entered g this w :
  entered g this w =
  if Reentrant.receptive this
  then if Reentrant.useDeepEqual g then enteredDeepMap (optionsOf g) this w
       else enteredMap (optionsOf g) this w
  else setRefs (S (refs w)) w.
Proof.
  unfold entered. rewrite general_open. destruct (Reentrant.receptive this); reflexivity.
Qed.

Lemma general_entered_stores g this w b :
  theMap (entered g this w) b = theMap w b /\ theDeepMap (entered g this w) b = theDeepMap w b.
Proof.
  rewrite general_entered. unfold theMap, theDeepMap, enteredMap, enteredDeepMap.
  destruct (Reentrant.receptive this); [|split; reflexivity].
  destruct (Reentrant.useDeepEqual g); simpl; split; try reflexivity; apply ensured_default.
Qed.

Lemma general_shallowLookup g this args k tk w :
  Reentrant.useDeepEqual g = false ->
  Reentrant.shallowLookup g this args (ref this, Reentrant.propMapName g) k tk w =
  let w0 := afterCheck (Reentrant.duration g) (held g this w tk) w in
  if (0 <? Reentrant.duration g)%Z && held g this w tk && negb (printable (kept g this w tk))
  then (Throw TypeError, w0)
  else if usable (optionsOf g) this w k tk then (Normal (kept g this w k), w0)
  else
    match Reentrant.originalMethod g this args (setInvoked (S (invoked w0)) w0) with
    | (Throw e, w2) => (Throw e, w2)
    | (Normal v, w2) => (Normal v, recorded g this k tk v w2)
    end.
Proof.
  intros Hm. unfold usable, held, kept, present, stored, recorded, shallowStore. simpl. rewrite Hm.
  unfold Reentrant.shallowLookup, Reentrant.applyOriginal, Reentrant.complete,
    Reentrant.elapsedExceeds.
  exec. cbv zeta.
  destruct (0 <? Reentrant.duration g)%Z eqn:Ed; simpl;
  destruct (AnyMap_has (default [] (maps w !! (ref this, Reentrant.propMapName g))) tk) eqn:Et; simpl;
  try destruct (printable _) eqn:Ep; simpl;
  destruct (AnyMap_has (default [] (maps w !! (ref this, Reentrant.propMapName g))) k) eqn:Ek; simpl;
  try destruct (elapsedExceeds _ _ _) eqn:Ee; simpl; try reflexivity;
  match goal with |- context [Reentrant.originalMethod g this args ?W] =>
    destruct (Reentrant.originalMethod g this args W) as [[v|e] w2] end; simpl; reflexivity.
Qed.

Lemma general_deepLookup g this args k tk w :
  Reentrant.useDeepEqual g = true ->
  Reentrant.deepLookup g this args (ref this, Reentrant.propDeepMapName g) k tk w =
  let w0 := afterCheck (Reentrant.duration g) (held g this w tk) w in
  if (0 <? Reentrant.duration g)%Z && held g this w tk && negb (printable (kept g this w tk))
  then (Throw TypeError, w0)
  else if usable (optionsOf g) this w k tk then (Normal (kept g this w k), w0)
  else
    match Reentrant.originalMethod g this args (setInvoked (S (invoked w0)) w0) with
    | (Throw e, w2) => (Throw e, w2)
    | (Normal v, w2) => (Normal v, recorded g this k tk v w2)
    end.
Proof.
  intros Hm. unfold usable, held, kept, present, stored, recorded, deepStore. simpl. rewrite Hm.
  unfold Reentrant.deepLookup, Reentrant.applyOriginal, Reentrant.complete,
    Reentrant.elapsedExceeds.
  exec. cbv zeta.
  destruct (0 <? Reentrant.duration g)%Z eqn:Ed; simpl;
  destruct (DeepEqualMap.has (default [] (deepMaps w !! (ref this, Reentrant.propDeepMapName g))) tk)
    eqn:Et; simpl;
  try destruct (printable _) eqn:Ep; simpl;
  destruct (DeepEqualMap.has (default [] (deepMaps w !! (ref this, Reentrant.propDeepMapName g))) k)
    eqn:Ek; simpl;
  try destruct (elapsedExceeds _ _ _) eqn:Ee; simpl; try reflexivity;
  match goal with |- context [Reentrant.originalMethod g this args ?W] =>
    destruct (Reentrant.originalMethod g this args W) as [[v|e] w2] end; simpl; reflexivity.
Qed.

Lemma general_thisLookup g this args w :
  Reentrant.useDeepEqual g = false ->
  (Reentrant.duration g <= 0)%Z ->
  Reentrant.thisLookup g this args (ref this, Reentrant.propMapName g) w =
  Reentrant.shallowLookup g this args (ref this, Reentrant.propMapName g) (thisValue this)
    (timestampString (thisValue this)) w.
Proof.
  intros Hm Hd. assert (Ed : (0 <? Reentrant.duration g)%Z = false) by (apply Z.ltb_ge; assumption).
  unfold Reentrant.thisLookup, Reentrant.shallowLookup, Reentrant.applyOriginal.
  exec. rewrite Ed. simpl.
  destruct (AnyMap_has (default [] (maps w !! (ref this, Reentrant.propMapName g))) (thisValue this));
    simpl; [reflexivity|].
  match goal with |- context [Reentrant.originalMethod g this args ?W] =>
    destruct (Reentrant.originalMethod g this args W) as [[v|e] w2] end; simpl; reflexivity.
Qed.

Lemma keyed_window g args :
  Reentrant.keyed g args = false -> (0 <? Reentrant.duration g)%Z = false.
Proof. unfold Reentrant.keyed. intros Ek. apply orb_false_iff in Ek as [_ Ek]. exact Ek. Qed.

(** A call, up to its lookup. *)
Lemma general_call_lookup g this args w :
  Reentrant.call g this args w =
  if Reentrant.receptive this then
    match derivation g this args w with
    | (Throw e, w1) => (Throw e, w1)
    | (Normal k, w1) =>
        if printed g args && negb (printable k) then (Throw TypeError, w1)
        else if Reentrant.useDeepEqual g
        then Reentrant.deepLookup g this args (ref this, Reentrant.propDeepMapName g) k
               (timestampKeyAt g w1 k) (atLookup g w1)
        else Reentrant.shallowLookup g this args (ref this, Reentrant.propMapName g) k
               (timestampKeyAt g w1 k) (atLookup g w1)
    end
  else (Throw TypeError, entered g this w).
Proof.
  pose proof (general_open g this w) as Ho. pose proof (general_entered g this w) as He.
  unfold Reentrant.call, derivation.
  unfold bind at 1. unfold bind at 1 in Ho.
  unfold newRef at 1. unfold newRef at 1 in Ho.
  destruct (Reentrant.receptive this) eqn:Hr.
  - rewrite <- He in Ho. clear He.
    unfold printed, atLookup, timestampKeyAt.
    destruct (Reentrant.useDeepEqual g) eqn:Hm.
    + unfold bind at 1. rewrite Ho. cbn [negb andb].
      unfold bind at 1.
      destruct (Reentrant.deepHashKey g this args (JArr (refs w) args) (entered g this w))
        as [[k|e] w1]; reflexivity.
    + unfold bind at 1. rewrite Ho. cbn [negb andb].
      destruct (Reentrant.keyed g args) eqn:Ek.
      * unfold bind at 1.
        destruct (Reentrant.shallowHashKey g this args (entered g this w)) as [[k|e] w1];
          [|reflexivity].
        unfold bind at 1. unfold Reentrant.complete, Reentrant.timestampString.
        destruct (printable k); reflexivity.
      * pose proof (keyed_window g args Ek) as Ed.
        rewrite general_thisLookup; [|exact Hm|apply Z.ltb_ge; exact Ed]. reflexivity.
  - destruct (Reentrant.useDeepEqual g); unfold bind at 1; rewrite Ho, He; reflexivity.
Qed.

(** A call, up to the user code it runs. *)
Lemma general_call g this args w :
  Reentrant.call g this args w =
  if Reentrant.receptive this then
    match derivation g this args w with
    | (Throw e, w1) => (Throw e, w1)
    | (Normal k, w1) =>
        if printed g args && negb (printable k) then (Throw TypeError, w1)
        else if garbled g this w1 k then (Throw TypeError, tested g this w1 k)
        else if answered g this w1 k
        then (Normal (kept g this (atLookup g w1) k), tested g this w1 k)
        else
          match Reentrant.originalMethod g this args (atMethod g this w1 k) with
          | (Throw e, w2) => (Throw e, w2)
          | (Normal v, w2) => (Normal v, recorded g this k (timestampKeyAt g w1 k) v w2)
          end
    end
  else (Throw TypeError, entered g this w).
Proof.
  rewrite general_call_lookup.
  destruct (Reentrant.receptive this); [|reflexivity].
  destruct (derivation g this args w) as [[k|e] w1]; [|reflexivity].
  destruct (printed g args && negb (printable k)); [reflexivity|].
  unfold garbled, answered, atMethod, tested.
  destruct (Reentrant.useDeepEqual g) eqn:Hm.
  - rewrite general_deepLookup by exact Hm. reflexivity.
  - rewrite general_shallowLookup by exact Hm. reflexivity.
Qed.


Lemma general_derivation_key g this args w h :
  Reentrant.hashFunction g = Reentrant.HFfunction h ->
  derivation g this args w = h this args (entered g this w).
Proof.
  intros Hh. unfold derivation, Reentrant.deepHashKey, Reentrant.shallowHashKey, Reentrant.keyed.
  rewrite Hh. simpl. destruct (Reentrant.useDeepEqual g); reflexivity.
Qed.

(** What the derivation runs is the key function, if anything. *)
Lemma general_derivation_cases g this args w :
  (exists c, derivation g this args w = (c, entered g this w)) \/
  (exists h, Reentrant.hashFunction g = Reentrant.HFfunction h /\
             derivation g this args w = h this args (entered g this w)).
Proof.
  unfold derivation, Reentrant.deepHashKey, Reentrant.shallowHashKey.
  destruct (Reentrant.hashFunction g) as [|[|]|h] eqn:Hh.
  - left. destruct (Reentrant.useDeepEqual g); [|destruct (Reentrant.keyed g args)];
      try destruct (0 <? length args)%nat; eexists; reflexivity.
  - left. destruct (Reentrant.useDeepEqual g); [|destruct (Reentrant.keyed g args)];
      try destruct (Reentrant.mapToString args); eexists; reflexivity.
  - left. destruct (Reentrant.useDeepEqual g); [|destruct (Reentrant.keyed g args)];
      try destruct (0 <? length args)%nat; eexists; reflexivity.
  - right. exists h. split; [reflexivity|].
    unfold Reentrant.keyed. rewrite Hh. simpl. destruct (Reentrant.useDeepEqual g); reflexivity.
Qed.

Lemma general_derivation_quiet g this args w c w1 :
  quietKey g ->
  derivation g this args w = (c, w1) ->
  forall b, theMap w1 b = theMap w b /\ theDeepMap w1 b = theDeepMap w b.
Proof.
  unfold quietKey. intros Hq Hk b.
  assert (He := general_entered_stores g this w b).
  destruct (general_derivation_cases g this args w) as [[c0 E]|(h & Hh & E)]; rewrite E in Hk.
  - injection Hk as _ <-. exact He.
  - rewrite Hh in Hq. destruct (Hq _ _ _ _ _ Hk b) as [Hs Hd]. destruct He as [Hs' Hd'].
    split; congruence.
Qed.

Lemma general_atLookup_stores g w1 b :
  theMap (atLookup g w1) b = theMap w1 b /\ theDeepMap (atLookup g w1) b = theDeepMap w1 b.
Proof. unfold atLookup. destruct (Reentrant.useDeepEqual g); split; reflexivity. Qed.

Lemma general_tested_stores g this w1 k b :
  theMap (tested g this w1 k) b = theMap w1 b /\ theDeepMap (tested g this w1 k) b = theDeepMap w1 b.
Proof.
  unfold tested, afterCheck.
  destruct ((0 <? Reentrant.duration g)%Z && _); simpl; apply general_atLookup_stores.
Qed.

Lemma general_atMethod_stores g this w1 k b :
  theMap (atMethod g this w1 k) b = theMap w1 b /\
  theDeepMap (atMethod g this w1 k) b = theDeepMap w1 b.
Proof. unfold atMethod. apply (general_tested_stores g this w1 k b). Qed.

(** The two [set]s of a call go to the store of the member on the
    receiver. *)
Lemma general_recorded_frame g this k tk v w2 :
  (forall b, b <> (ref this, Reentrant.propMapName g) \/ Reentrant.useDeepEqual g = true ->
     theMap (recorded g this k tk v w2) b = theMap w2 b) /\
  (forall b, b <> (ref this, Reentrant.propDeepMapName g) \/ Reentrant.useDeepEqual g = false ->
     theDeepMap (recorded g this k tk v w2) b = theDeepMap w2 b).
Proof.
  unfold recorded.
  destruct (Reentrant.useDeepEqual g); destruct (0 <? Reentrant.duration g)%Z; exec; simpl;
    split; intros b [Hb|Hb]; try discriminate; try reflexivity;
    rewrite ?lookup_insert_ne by congruence; reflexivity.
Qed.

(** A call whose user code is quiet changes the store of its member on its
    receiver, if any. *)
Lemma general_call_frame g this args w :
  quietKey g -> quiet (Reentrant.originalMethod g) ->
  let w' := snd (Reentrant.call g this args w) in
  (forall b, b <> (ref this, Reentrant.propMapName g) \/ Reentrant.useDeepEqual g = true ->
     theMap w' b = theMap w b) /\
  (forall b, b <> (ref this, Reentrant.propDeepMapName g) \/ Reentrant.useDeepEqual g = false ->
     theDeepMap w' b = theDeepMap w b).
Proof.
  intros Hqk Hq. cbv zeta. rewrite general_call.
  assert (Hsame : forall w1, (forall b, theMap w1 b = theMap w b /\ theDeepMap w1 b = theDeepMap w b) ->
    (forall b, b <> (ref this, Reentrant.propMapName g) \/ Reentrant.useDeepEqual g = true ->
       theMap w1 b = theMap w b) /\
    (forall b, b <> (ref this, Reentrant.propDeepMapName g) \/ Reentrant.useDeepEqual g = false ->
       theDeepMap w1 b = theDeepMap w b)).
  { intros w1 Hw. split; intros b _; apply Hw. }
  destruct (Reentrant.receptive this); [|apply Hsame; apply general_entered_stores].
  destruct (derivation g this args w) as [[k|e] w1] eqn:Hk; simpl;
    [|apply Hsame; apply (general_derivation_quiet g this args w _ _ Hqk Hk)].
  pose proof (general_derivation_quiet g this args w _ _ Hqk Hk) as H1.
  assert (Ht : forall b, theMap (tested g this w1 k) b = theMap w b /\
                         theDeepMap (tested g this w1 k) b = theDeepMap w b).
  { intros b. destruct (general_tested_stores g this w1 k b), (H1 b). split; congruence. }
  destruct (printed g args && negb (printable k)); [apply Hsame; exact H1|].
  destruct (garbled g this w1 k); [apply Hsame; exact Ht|].
  destruct (answered g this w1 k); [apply Hsame; exact Ht|].
  destruct (Reentrant.originalMethod g this args (atMethod g this w1 k)) as [[v|e] w2] eqn:Hrun; simpl.
  - assert (H2 : forall b, theMap w2 b = theMap w b /\ theDeepMap w2 b = theDeepMap w b).
    { intros b. destruct (Hq _ _ _ _ _ Hrun b), (general_atMethod_stores g this w1 k b), (H1 b).
      split; congruence. }
    destruct (general_recorded_frame g this k (timestampKeyAt g w1 k) v w2) as [Fs Fd].
    split; intros b Hb; [rewrite Fs by exact Hb|rewrite Fd by exact Hb]; apply H2.
  - apply Hsame. intros b.
    destruct (Hq _ _ _ _ _ Hrun b), (general_atMethod_stores g this w1 k b), (H1 b).
    split; congruence.
Qed.

(** What the [set]s of a shallow call leave in its store. *)
Lemma general_recorded_shallow g this k tk v w2 :
  Reentrant.useDeepEqual g = false ->
  let m := theMap w2 (ref this, Reentrant.propMapName g) in
  theMap (recorded g this k tk v w2) (ref this, Reentrant.propMapName g) =
  if (0 <? Reentrant.duration g)%Z
  then AnyMap_set (AnyMap_set m k v) tk (JNum (Date_now (ticks w2)))
  else AnyMap_set m k v.
Proof.
  intros Hm. unfold recorded. rewrite Hm.
  destruct (0 <? Reentrant.duration g)%Z; exec; simpl; rewrite !lookup_insert_eq; reflexivity.
Qed.

Lemma general_entered_counters g this w :
  ticks (entered g this w) = ticks w /\ invoked (entered g this w) = invoked w /\
  symbols (entered g this w) = symbols w /\ program (entered g this w) = program w.
Proof.
  rewrite general_entered. unfold enteredMap, enteredDeepMap.
  destruct (Reentrant.receptive this); [destruct (Reentrant.useDeepEqual g)|]; simpl; auto.
Qed.

(** Detached user code is quiet. *)
Lemma onProgram_quiet (m : method) : quiet (fun this args => onProgram (m this args)).
Proof.
  intros this args w c w' E b. unfold onProgram in E.
  destruct (m this args (program w)) as [c0 p]. injection E as _ <-. split; reflexivity.
Qed.

Lemma detached_quiet f :
  quietKey (detached f) /\ quiet (Reentrant.originalMethod (detached f)).
Proof.
  split; [|apply onProgram_quiet].
  unfold quietKey, detached. simpl. destruct (hashFunction f) as [|b|h]; try exact I.
  apply onProgram_quiet.
Qed.
End General.

(** ** The two embeddings *)

Section Refinement.
Context `{Host}.

Lemma setProgram_same w : setProgram (program w) w = w.
Proof. destruct w; reflexivity. Qed.

Lemma detached_mapToString args :
  forallb printable args = true -> Reentrant.mapToString args = mapToString args.
Proof.
  induction args as [|x rest IH]; simpl; [reflexivity|].
  intros Hp. apply andb_true_iff in Hp as [Hx Hp]. rewrite (IH Hp).
  unfold Reentrant.toString, toString. rewrite Hx. destruct x; reflexivity.
Qed.

Lemma detached_entered f this w :
  Reentrant.receptive this = true ->
  entered (detached f) this w =
  if useDeepEqual f then enteredDeepMap f this w else enteredMap f this w.
Proof. intros Hr. rewrite general_entered, Hr. reflexivity. Qed.

(** The key derivation of a detached member is [derivedKey], run on the
    program state. *)
Lemma detached_derivation f this args w :
  Reentrant.receptive this = true ->
  (printed (detached f) args = true -> hashFunction f = HFboolean true ->
   forallb printable args = true) ->
  derivation (detached f) this args w =
  let '(c, p) := derivedKey f this args w in (c, setProgram p (entered (detached f) this w)).
Proof.
  intros Hr Hp.
  destruct (general_entered_counters (detached f) this w) as (_ & _ & _ & Ep).
  assert (Hret : forall x : any,
    (Normal x, entered (detached f) this w) =
    (Normal x, setProgram (program w) (entered (detached f) this w)))
    by (intros x; rewrite <- Ep, setProgram_same; reflexivity).
  assert (Hthrow : forall e : any,
    (@Throw any e, entered (detached f) this w) =
    (Throw e, setProgram (program w) (entered (detached f) this w)))
    by (intros x; rewrite <- Ep, setProgram_same; reflexivity).
  unfold derivation, derivedKey, printed, Reentrant.keyed, keyed in *.
  unfold Reentrant.deepHashKey, Reentrant.shallowHashKey, deepHashKey, shallowHashKey.
  cbn [detached Reentrant.useDeepEqual Reentrant.hashFunction Reentrant.duration] in *.
  destruct (useDeepEqual f); cbn [negb andb] in *.
  - destruct (hashFunction f) as [|[|]|h]; cbn [Reentrant.truthy truthy orb];
      try (destruct (0 <? length args)%nat); try apply Hret;
      unfold onProgram; rewrite Ep; destruct (h this args (program w)) as [c p]; reflexivity.
  - destruct (hashFunction f) as [|[|]|h]; cbn [Reentrant.truthy truthy orb] in *.
    + destruct ((0 <? length args)%nat || (0 <? duration f)%Z); apply Hret.
    + rewrite (detached_mapToString args (Hp eq_refl eq_refl)).
      destruct (mapToString args); [apply Hret|apply Hthrow].
    + destruct ((0 <? length args)%nat || (0 <? duration f)%Z); apply Hret.
    + unfold onProgram. rewrite Ep. destruct (h this args (program w)) as [c p]. reflexivity.
Qed.

Lemma detached_shallowLookup f this args a k tk w :
  ((0 <? duration f)%Z && AnyMap_has (theMap w a) tk && negb (printable (AnyMap_get (theMap w a) tk))
   = false) ->
  Reentrant.shallowLookup (detached f) this args a k tk w = shallowLookup f this args a k tk w.
Proof.
  intros Hg. unfold Reentrant.shallowLookup, shallowLookup, Reentrant.applyOriginal,
    Reentrant.complete, Reentrant.elapsedExceeds.
  cbn [detached Reentrant.duration Reentrant.originalMethod].
  exec.
  destruct (0 <? duration f)%Z; [|reflexivity].
  destruct (AnyMap_has (default [] (maps w !! a)) tk); [|reflexivity].
  simpl in Hg. apply negb_false_iff in Hg. simpl. rewrite Hg. reflexivity.
Qed.

Lemma detached_deepLookup f this args a k tk w :
  ((0 <? duration f)%Z && DeepEqualMap.has (theDeepMap w a) tk &&
   negb (printable (DeepEqualMap.get (theDeepMap w a) tk)) = false) ->
  Reentrant.deepLookup (detached f) this args a k tk w = deepLookup f this args a k tk w.
Proof.
  intros Hg. unfold Reentrant.deepLookup, deepLookup, Reentrant.applyOriginal,
    Reentrant.complete, Reentrant.elapsedExceeds.
  cbn [detached Reentrant.duration Reentrant.originalMethod].
  exec.
  destruct (0 <? duration f)%Z; [|reflexivity].
  destruct (DeepEqualMap.has (default [] (deepMaps w !! a)) tk); [|reflexivity].
  simpl in Hg. apply negb_false_iff in Hg. simpl. rewrite Hg. reflexivity.
Qed.

(** [call] is [Reentrant.call] at detached user code, wherever the wrapper
    itself throws no [TypeError]: the receiver has its [hasOwnProperty],
    the texts of lines 208 and 215 can be made, and so can the number of
    line 168 or 223. *)
Lemma call_detached f this args w :
  Reentrant.receptive this = true ->
  (printed (detached f) args = true -> hashFunction f = HFboolean true ->
   forallb printable args = true) ->
  (forall k p, derivedKey f this args w = (Normal k, p) ->
     (printed (detached f) args = true -> printable k = true) /\
     garbled (detached f) this (setProgram p (entered (detached f) this w)) k = false) ->
  Reentrant.call (detached f) this args w = call f this args w.
Proof.
  intros Hr Hp Hk.
  rewrite general_call_lookup, Hr, (detached_derivation f this args w Hr Hp), call_eq.
  rewrite (detached_entered f this w Hr).
  rewrite (detached_entered f this w Hr) in Hk.
  destruct (derivedKey f this args w) as [[k|e] p]; [|destruct (useDeepEqual f); reflexivity].
  destruct (Hk k p eq_refl) as [Hpk Hg].
  replace (printed (detached f) args && negb (printable k)) with false
    by (destruct (printed (detached f) args); [rewrite Hpk by reflexivity|]; reflexivity).
  unfold garbled, held, kept, present, stored, shallowStore, deepStore, atLookup, timestampKeyAt,
    timestampKeyOf in *.
  cbn [detached optionsOf Reentrant.useDeepEqual Reentrant.duration Reentrant.propMapName
       Reentrant.propDeepMapName useDeepEqual duration propMapName propDeepMapName] in *.
  destruct (useDeepEqual f).
  - rewrite detached_deepLookup by exact Hg. reflexivity.
  - rewrite detached_shallowLookup by exact Hg. reflexivity.
Qed.
End Refinement.

(** ** The claims *)

Section MapSame.
Context {K V : Type} (same : K -> K -> bool).
Hypothesis same_sym : forall a b, same a b = same b a.
Hypothesis same_trans : forall a b c, same a b = true -> same b c = true -> same a c = true.

Lemma Map_get_same (m : list (K * V)) k q :
  same k q = true -> Map_get same m k = Map_get same m q.
Proof.
  intros E. induction m as [|[k' v'] m IH]; simpl; [reflexivity|].
  destruct (same k' k) eqn:E1.
  - rewrite (same_trans _ _ _ E1 E). reflexivity.
  - destruct (same k' q) eqn:E2; [|exact IH].
    rewrite same_sym in E. rewrite (same_trans _ _ _ E2 E) in E1. discriminate.
Qed.
End MapSame.

Section Modes.
Context `{Host}.

(** The two modes at once. *)
Lemma call_hit f this args w k p :
  derivedKey f this args w = (Normal k, p) ->
  usable f this w k (timestampKeyOf f w k) = true ->
  exists w', call f this args w = (Normal (stored f this w k), w') /\
    invoked w' = invoked w /\ program w' = p /\
    (forall b, theMap w' b = theMap w b) /\ (forall b, theDeepMap w' b = theDeepMap w b).
Proof.
  unfold usable, present, stored. intros Hk Hu.
  apply andb_true_iff in Hu as [Hp Hs]. apply negb_true_iff in Hs.
  destruct (useDeepEqual f) eqn:Hm.
  - apply deep_hit; assumption.
  - apply shallow_hit; assumption.
Qed.

Lemma call_miss f this args w k p c p' :
  derivedKey f this args w = (Normal k, p) ->
  usable f this w k (timestampKeyOf f w k) = false ->
  originalMethod f this args p = (c, p') ->
  exists w', call f this args w = (c, w') /\
    invoked w' = S (invoked w) /\ program w' = p' /\
    match c with
    | Throw _ => (forall b, theMap w' b = theMap w b) /\ (forall b, theDeepMap w' b = theDeepMap w b)
    | Normal v =>
        let tk := timestampKeyOf f w k in
        let t := if (0 <? duration f)%Z && present f this w tk then S (ticks w) else ticks w in
        if useDeepEqual f then
          let m1 := DeepEqualMap.set (deepStore f this w) k v (Date_now t) (Math_random (rolls w)) in
          deepStore f this w' =
          if (0 <? duration f)%Z
          then DeepEqualMap.set m1 tk (JNum (Date_now (S t)))
                 (Date_now (S (S t))) (Math_random (S (rolls w)))
          else m1
        else
          shallowStore f this w' =
          if (0 <? duration f)%Z
          then AnyMap_set (AnyMap_set (shallowStore f this w) k v) tk (JNum (Date_now t))
          else AnyMap_set (shallowStore f this w) k v
    end.
Proof.
  unfold usable, present, stored. intros Hk Hu Hrun.
  destruct (useDeepEqual f) eqn:Hm.
  - destruct (deep_miss f this args w k p c p' Hm Hk Hu Hrun)
      as (w' & Hc & Hi & Hp & Hs & Hd & Hst).
    exists w'. repeat split; auto. destruct c as [v|e]; [exact Hst|].
    split; [exact Hs|]. intros b.
    destruct (decide (b = (ref this, propDeepMapName f))) as [->|Hb]; [exact Hst|auto].
  - destruct (shallow_miss f this args w k p c p' Hm Hk Hu Hrun)
      as (w' & Hc & Hi & Hp & Hd & Hs & Hst).
    exists w'. repeat split; auto. destruct c as [v|e].
    + cbv zeta. rewrite Hst. destruct (0 <? duration f)%Z; reflexivity.
    + split; [|exact Hd]. intros b.
      destruct (decide (b = (ref this, propMapName f))) as [->|Hb]; [exact Hst|auto].
Qed.
End Modes.

Section Failures.
Context `{Host}.

(** C7, as the code has it.  A key function or an original method that
    throws ends the call there: the call completes with what was thrown, in
    the world the function left, so the wrapper stores neither a value nor
    a timestamp for it, while an original method that returns has its
    value recorded.  Up to the user code the wrapper changes no entry of a
    store.  So the stores are as the function that threw left them; they
    are as they were before the call when the user code of the member is
    quiet. *)
Theorem C7_failures_are_not_memoized g this args w :
  (forall h e w1,
      Reentrant.receptive this = true ->
      Reentrant.hashFunction g = Reentrant.HFfunction h ->
      h this args (entered g this w) = (Throw e, w1) ->
      Reentrant.call g this args w = (Throw e, w1) /\
      (quiet h -> forall b, theMap w1 b = theMap w b /\ theDeepMap w1 b = theDeepMap w b)) /\
  (forall k w1 c w2,
      applies g this args w k w1 ->
      Reentrant.originalMethod g this args (atMethod g this w1 k) = (c, w2) ->
      Reentrant.call g this args w =
      match c with
      | Throw e => (Throw e, w2)
      | Normal v => (Normal v, recorded g this k (timestampKeyAt g w1 k) v w2)
      end /\
      (quietKey g -> quiet (Reentrant.originalMethod g) ->
       forall b, theMap w2 b = theMap w b /\ theDeepMap w2 b = theDeepMap w b)) /\
  (forall b,
      theMap (entered g this w) b = theMap w b /\
      theDeepMap (entered g this w) b = theDeepMap w b) /\
  (forall w1 k b,
      theMap (atMethod g this w1 k) b = theMap w1 b /\
      theDeepMap (atMethod g this w1 k) b = theDeepMap w1 b).
Proof.
  split; [|split; [|split]].
  - intros h e w1 Hr Hh He. split.
    + rewrite general_call, Hr, (general_derivation_key g this args w h Hh), He. reflexivity.
    + intros Hq b. destruct (Hq _ _ _ _ _ He b), (general_entered_stores g this w b).
      split; congruence.
  - intros k w1 c w2 (Hr & Hk & Hp & Hg & Ha) Hrun. split.
    + rewrite general_call, Hr, Hk, Hg, Ha, Hrun.
      destruct (printed g args); [rewrite Hp by reflexivity|]; destruct c; reflexivity.
    + intros Hqk Hq b.
      destruct (Hq _ _ _ _ _ Hrun b), (general_atMethod_stores g this w1 k b),
        (general_derivation_quiet g this args w _ _ Hqk Hk b).
      split; congruence.
  - apply general_entered_stores.
  - intros w1 k b. apply general_atMethod_stores.
Qed.
End Failures.

Section Expiration.
Context {H : Host}.

End Expiration.

Section After.
Context `{Host}.

Lemma stale_no_window d present timestamp now :
  (d <= 0)%Z -> stale d present timestamp now = false.
Proof.
  intros Hd. unfold stale. replace (0 <? d)%Z with false; [reflexivity|].
  symmetry. apply Z.ltb_ge. exact Hd.
Qed.

Lemma present_unchanged f this w w' :
  (forall b, theMap w' b = theMap w b) -> (forall b, theDeepMap w' b = theDeepMap w b) ->
  forall k, present f this w' k = present f this w k /\ stored f this w' k = stored f this w k.
Proof.
  intros Hs Hd k. unfold present, stored, shallowStore, deepStore. rewrite Hs, Hd. auto.
Qed.

(** What a shallow call returned is in the store afterwards, under the key
    it derived. *)
Lemma shallow_cached_after f this args w k p v w1 :
  useDeepEqual f = false ->
  derivedKey f this args w = (Normal k, p) ->
  call f this args w = (Normal v, w1) ->
  AnyMap_has (shallowStore f this w1) k = true /\ AnyMap_get (shallowStore f this w1) k = v.
Proof.
  intros Hm Hk Hc.
  destruct (usable f this w k (timestampKeyOf f w k)) eqn:Hu.
  - destruct (call_hit f this args w k p Hk Hu) as (w' & Hc' & _ & _ & Hs & Hd).
    rewrite Hc in Hc'. injection Hc' as -> ->.
    destruct (present_unchanged f this w w' Hs Hd k) as [Hp Hst].
    unfold present, stored in *. rewrite Hm in *. rewrite Hp.
    unfold usable, present in Hu. rewrite Hm in Hu. apply andb_true_iff in Hu as [Hu _]. auto.
  - destruct (originalMethod f this args p) as [c p'] eqn:Hrun.
    destruct (call_miss f this args w k p c p' Hk Hu Hrun) as (w' & Hc' & _ & _ & Hst).
    rewrite Hc in Hc'. injection Hc' as <- <-. cbv zeta in Hst. rewrite Hm in Hst.
    rewrite Hst. unfold timestampKeyOf. rewrite Hm.
    destruct (0 <? duration f)%Z.
    + rewrite AnyMap_has_set, !AnyMap_get_set, AnyMap_has_set.
      rewrite (sameValueZero_sym (timestampString k) k), timestampString_fresh.
      rewrite sameValueZero_refl. auto.
    + rewrite AnyMap_has_set, AnyMap_get_set, sameValueZero_refl. auto.
Qed.

(** Keys a store takes for the same are answered alike. *)
Lemma AnyMap_same m k q :
  sameValueZero k q = true ->
  AnyMap_has m k = AnyMap_has m q /\ AnyMap_get m k = AnyMap_get m q.
Proof.
  intros E. unfold AnyMap_has, AnyMap_get.
  rewrite !(Map_has_get sameValueZero).
  rewrite (Map_get_same sameValueZero sameValueZero_sym sameValueZero_trans m k q E). auto.
Qed.
End After.

Section AfterDeep.
Context `{EqualLaws}.
Import DeepEqualMap.


End AfterDeep.

Section Keys.
Context `{Host}.
Import DeepEqualMap.

Lemma In_Map_set_string {V} (m : list (string * V)) s e :
  In (s, e) (Map_set String.eqb m s e).
Proof.
  induction m as [|[s' e'] m IH]; simpl; [auto|].
  destruct (String.eqb s' s) eqn:Es; simpl; [|auto].
  apply String.eqb_eq in Es. subst. auto.
Qed.

Lemma In_set (m : t) k v now random :
  exists s, In (s, Entry k v) (set m k v now random).
Proof. unfold set. eexists. apply In_Map_set_string. Qed.

(** C6, as the code has it. A shallow member without key function keys a
    call by its first argument; without arguments it keys the call by the
    receiver when it has no expiration window, and by [undefined] when it
    has one.  The value a call returned is in the store under that key, and
    a later call with the same first argument and any other arguments is
    answered from the store for as long as the entry is not stale. *)
Theorem C6_shallow_default_key f this args w :
  useDeepEqual f = false ->
  truthy (hashFunction f) = false ->
  let key := match args with
             | x :: _ => x
             | [] => if (0 <? duration f)%Z then JUndefined else thisValue this
             end in
  derivedKey f this args w = (Normal key, program w) /\
  (forall v w1, call f this args w = (Normal v, w1) ->
     AnyMap_has (shallowStore f this w1) key = true /\
     AnyMap_get (shallowStore f this w1) key = v) /\
  (forall x rest rest' v w1,
     args = x :: rest ->
     call f this args w = (Normal v, w1) ->
     stale (duration f) (AnyMap_has (shallowStore f this w1) (timestampString x))
       (AnyMap_get (shallowStore f this w1) (timestampString x)) (Date_now (ticks w1)) = false ->
     exists w2, call f this (x :: rest') w1 = (Normal v, w2) /\ invoked w2 = invoked w1).
Proof.
  intros Hm Hh key.
  assert (Hkey : forall args0 w0,
    derivedKey f this args0 w0 =
    (Normal match args0 with
            | x :: _ => x
            | [] => if (0 <? duration f)%Z then JUndefined else thisValue this
            end, program w0)).
  { intros args0 w0. unfold derivedKey, shallowHashKey, keyed. rewrite Hm, Hh.
    destruct (hashFunction f) as [|[|]|]; try discriminate;
      destruct args0 as [|x rest]; simpl; destruct (0 <? duration f)%Z; reflexivity. }
  split; [apply Hkey|]. split.
  - intros v w1 Hc. eapply shallow_cached_after; eauto.
  - intros x rest rest' v w1 -> Hc Hfresh.
    destruct (shallow_cached_after f this (x :: rest) w x (program w) v w1 Hm (Hkey _ _) Hc)
      as [Hp Hg].
    destruct (call_hit f this (x :: rest') w1 x (program w1) (Hkey _ _)) as (w2 & Hc2 & Hi & _).
    + unfold usable, present, stored, timestampKeyOf. rewrite Hm, Hp, Hfresh. reflexivity.
    + exists w2. unfold stored in Hc2. rewrite Hm, Hg in Hc2. auto.
Qed.

(** C2, as the code has it. A deep member without key function keys a call
    by the array of all its arguments when [hashFunction] is [true]; when
    it is absent or [false], by the receiver when there are no arguments, by
    the argument itself when there is one, and by the array of all arguments
    when there are more.  A call that applies the original method stores the
    result in an entry with that key. *)
Theorem C2_deep_default_key f this args w :
  useDeepEqual f = true ->
  (forall h, hashFunction f <> HFfunction h) ->
  let key := if truthy (hashFunction f) then JArr (refs w) args
             else match args with
                  | [] => thisValue this
                  | [x] => x
                  | _ => JArr (refs w) args
                  end in
  derivedKey f this args w = (Normal key, program w) /\
  (forall v w1,
     (duration f <= 0)%Z ->
     call f this args w = (Normal v, w1) ->
     invoked w1 = S (invoked w) ->
     exists s, In (s, Entry key v) (deepStore f this w1)).
Proof.
  intros Hm Hh key.
  assert (Hkey : derivedKey f this args w = (Normal key, program w)).
  { unfold derivedKey, deepHashKey, key. rewrite Hm.
    destruct (hashFunction f) as [|[|]|h]; [| | |destruct (Hh h eq_refl)]; simpl;
      destruct args as [|x [|y rest]]; reflexivity. }
  split; [exact Hkey|].
  intros v w1 Hd Hc Hi.
  assert (Ed : (0 <? duration f)%Z = false) by (apply Z.ltb_ge; exact Hd).
  destruct (usable f this w key (timestampKeyOf f w key)) eqn:Hu.
  - destruct (call_hit f this args w key _ Hkey Hu) as (w' & Hc' & Hi' & _).
    rewrite Hc in Hc'. injection Hc' as -> ->. lia.
  - destruct (originalMethod f this args (program w)) as [c p'] eqn:Hrun.
    destruct (call_miss f this args w key _ c p' Hkey Hu Hrun) as (w' & Hc' & _ & _ & Hst).
    rewrite Hc in Hc'. injection Hc' as <- <-. cbv zeta in Hst. rewrite Hm, Ed in Hst.
    rewrite Hst. apply In_set.
Qed.
End Keys.

Section DeepClaims.
Context `{EqualLaws}.
Import DeepEqualMap.

Lemma matching_one (m : t) q :
  distinct (List.map snd m) = true -> has m q = true -> length (matching m q) = 1%nat.
Proof.
  unfold has, matching. induction (List.map snd m) as [|e es IH]; simpl; [discriminate|].
  intros Hd Hq. apply andb_true_iff in Hd as [Hh Hd]. apply negb_true_iff in Hh.
  destruct (equal (key e) q) eqn:E; simpl.
  - f_equal. rewrite (DeepFacts.has_in_equal _ _ _ E) in Hh.
    clear IH Hd Hq. induction es as [|e' es IH]; simpl in *; [reflexivity|].
    destruct (equal (key e') q); [discriminate|]. auto.
  - auto.
Qed.

Lemma matching_none (m : t) q : has m q = false -> matching m q = [].
Proof.
  unfold has, matching. induction (List.map snd m) as [|e es IH]; simpl; [reflexivity|].
  destruct (equal (key e) q); [discriminate|]. exact IH.
Qed.

(** C9. After any sequence of [set] operations on a new [DeepEqualMap] no
    two entries have keys that [equal] takes for the same; a further [set]
    leaves exactly one entry for the key it stores, holding the new value,
    and when the key was already there the store does not grow; and when no
    serialized key was drawn twice, the store has for every key one entry
    with the value written last for it, or none if nothing was written. *)
Theorem C9_one_entry_per_key (ops : list (any * any * Z * string)) :
  let m := after ops in
  wf m = true /\
  (forall k v now random q,
     equal k q = true ->
     let m' := set m k v now random in
     get m' q = v /\
     length (matching m' q) = 1%nat /\
     wf m' = true /\
     (has m k = true -> (length m' <= length m)%nat)) /\
  (once (serials ops) = true ->
   forall q,
     match written ops q with
     | Some v => has m q = true /\ get m q = v /\ length (matching m q) = 1%nat
     | None => has m q = false /\ matching m q = []
     end).
Proof.
  intros m. pose proof (DeepFacts.wf_after ops) as Hwf. fold m in Hwf.
  split; [exact Hwf|]. split.
  - intros k v now random q E m'.
    destruct (DeepFacts.set_same m k v now random q Hwf E) as (Hg & _ & Hl).
    repeat split; auto.
    + apply DeepFacts.wf_set. exact Hwf.
    + intros Hk. apply DeepFacts.set_replaces; assumption.
  - intros Ho q. destruct (DeepFacts.after_written ops q Ho) as [Hh Hg]. fold m in Hh, Hg.
    destruct (written ops q) as [v|]; simpl in *.
    + repeat split; auto. apply matching_one; [|exact Hh].
      unfold wf in Hwf. apply andb_true_iff in Hwf as [_ Hd]. exact Hd.
    + split; [exact Hh|]. apply matching_none. exact Hh.
Qed.


End DeepClaims.

Section Registry.
Context `{Host}.

Lemma lookup_pushInto (registry : gmap string (list Clearable)) t mp tag :
  default [] (pushInto registry t mp !! tag) =
  default [] (registry !! tag) ++ (if String.eqb t tag then [mp] else []).
Proof.
  unfold pushInto. destruct (String.eqb t tag) eqn:E.
  - apply String.eqb_eq in E. subst tag.
    destruct (registry !! t) as [mps|] eqn:Er; rewrite lookup_insert_eq; reflexivity.
  - apply String.eqb_neq in E.
    destruct (registry !! t) as [mps|] eqn:Er; rewrite lookup_insert_ne by exact E;
      rewrite app_nil_r; reflexivity.
Qed.

Lemma lookup_registered tgs mp (registry : gmap string (list Clearable)) tag :
  default [] (registered tgs mp registry !! tag) =
  default [] (registry !! tag) ++ repeat mp (occurrences tag tgs).
Proof.
  unfold registered, occurrences. revert registry.
  induction tgs as [|t tgs IH]; intros registry; simpl.
  - rewrite app_nil_r. reflexivity.
  - rewrite IH, lookup_pushInto. rewrite <- app_assoc. f_equal.
    destruct (String.eqb t tag); reflexivity.
Qed.

Lemma lookup_registeredDeep tgs myMap id (registry : gmap string (list Clearable)) tag :
  exists ids,
    default [] (registeredDeep tgs myMap id registry !! tag) =
    default [] (registry !! tag) ++ List.map (fun i => MapWrapper i myMap) ids /\
    length ids = occurrences tag tgs /\
    Forall (fun i => (id <= i < id + length tgs)%nat) ids /\ NoDup ids.
Proof.
  unfold occurrences. revert id registry.
  induction tgs as [|t tgs IH]; intros id registry; simpl.
  - exists []. rewrite app_nil_r. repeat split; constructor.
  - destruct (IH (S id) (pushInto registry t (MapWrapper id myMap))) as (ids & E & Hl & Hf & Hn).
    rewrite E, lookup_pushInto. destruct (String.eqb t tag).
    + exists (id :: ids). rewrite <- app_assoc. simpl. repeat split; auto.
      * constructor; [lia|]. revert Hf. apply List.Forall_impl. intros; lia.
      * constructor; [|exact Hn]. intros Hin. rewrite Forall_forall in Hf.
        apply list_elem_of_In in Hin. apply Hf in Hin. lia.
    + exists ids. rewrite app_nil_r. repeat split; auto.
      revert Hf. apply List.Forall_impl. intros; lia.
Qed.

(** Only the opening lines of a call touch the tag map. *)
Lemma call_registry f this args w c w' :
  call f this args w = (c, w') ->
  clearCacheTagsMap w' =
  clearCacheTagsMap (if useDeepEqual f then enteredDeepMap f this w else enteredMap f this w).
Proof.
  rewrite call_eq. destruct (derivedKey f this args w) as [[k|e] p].
  - destruct (useDeepEqual f).
    + rewrite deepLookup_eq. cbv zeta. unfold afterCheck, ran.
      destruct (_ && negb _); [|destruct (originalMethod f this args _) as [[v|e] p']];
        destruct ((0 <? duration f)%Z && _); try destruct (0 <? duration f)%Z;
        intros [= <- <-]; reflexivity.
    + rewrite shallowLookup_eq. cbv zeta. unfold afterCheck, ran.
      destruct (_ && negb _); [|destruct (originalMethod f this args _) as [[v|e] p']];
        destruct ((0 <? duration f)%Z && _); try destruct (0 <? duration f)%Z;
        intros [= <- <-]; reflexivity.
  - intros [= <- <-]. destruct (useDeepEqual f); reflexivity.
Qed.

End Registry.

(** ** [clear] *)

Section Clear.
Context `{Host}.

Lemma mp_clear_frame mp w :
  exists w', mp_clear mp w = (Normal tt, w') /\
    clearCacheTagsMap w' = clearCacheTagsMap w /\
    (forall b, b <> myMapOf mp -> theMap w' b = theMap w b /\ theDeepMap w' b = theDeepMap w b) /\
    (isTheMap mp = true -> forall b, theDeepMap w' b = theDeepMap w b) /\
    (isTheMap mp = false -> forall b, theMap w' b = theMap w b).
Proof.
  destruct mp as [a|i a]; simpl; unfold withMaps, withDeepMaps; eexists; split; try reflexivity;
    simpl; split; try reflexivity; unfold theMap, theDeepMap; simpl; repeat split; auto;
    try discriminate; rewrite lookup_alter_ne by congruence; reflexivity.
Qed.

Lemma clearEach_spec mps cleared w :
  exists w', clearEach mps cleared w = (Normal (collected mps cleared), w') /\
    clearCacheTagsMap w' = clearCacheTagsMap w /\
    (forall b, (forall mp, In mp mps -> myMapOf mp <> b) ->
       theMap w' b = theMap w b /\ theDeepMap w' b = theDeepMap w b).
Proof.
  revert cleared w. induction mps as [|mp mps IH]; intros cleared w; simpl.
  - exists w. auto.
  - destruct (Set_has cleared mp).
    + destruct (IH cleared w) as (w' & E & Hr & Hs). exists w'.
      split; [exact E|]. split; [exact Hr|].
      intros b Hb. apply Hs. intros mp0 Hin. apply Hb. right. exact Hin.
    + destruct (mp_clear_frame mp w) as (w1 & E1 & Hr1 & Hs1 & _).
      destruct (IH (cleared ++ [mp]) w1) as (w' & E & Hr & Hs).
      exists w'. unfold bind. rewrite E1, E. split; [reflexivity|]. split; [congruence|].
      intros b Hb.
      destruct (Hs b) as [Hm Hd]; [intros mp0 Hin; apply Hb; right; exact Hin|].
      destruct (Hs1 b) as [Hm1 Hd1]; [intros ->; apply (Hb mp); [left|]; reflexivity|].
      split; congruence.
Qed.

Lemma clearTags_spec tgs cleared w :
  exists w', clearTags tgs cleared w =
             (Normal (collected (reachable tgs (clearCacheTagsMap w)) cleared), w') /\
    clearCacheTagsMap w' = clearCacheTagsMap w /\
    (forall b, (forall mp, In mp (reachable tgs (clearCacheTagsMap w)) -> myMapOf mp <> b) ->
       theMap w' b = theMap w b /\ theDeepMap w' b = theDeepMap w b).
Proof.
  unfold reachable. revert cleared w. induction tgs as [|tag tgs IH]; intros cleared w; simpl.
  - exists w. auto.
  - unfold collected. rewrite fold_left_app. fold (collected (default [] (clearCacheTagsMap w !! tag)) cleared).
    destruct (clearCacheTagsMap w !! tag) as [mps|] eqn:Et; simpl.
    + destruct (clearEach_spec mps cleared w) as (w1 & E1 & Hr1 & Hs1).
      destruct (IH (collected mps cleared) w1) as (w' & E & Hr & Hs).
      exists w'. unfold bind. rewrite E1, E, Hr1. split; [reflexivity|]. split; [congruence|].
      intros b Hb.
      destruct (Hs1 b) as [Hm1 Hd1]; [intros mp Hin; apply Hb; apply in_or_app; auto|].
      destruct (Hs b) as [Hm Hd];
        [intros mp Hin; apply Hb; apply in_or_app; right; rewrite <- Hr1; exact Hin|].
      split; congruence.
    + destruct (IH cleared w) as (w' & E & Hr & Hs).
      exists w'. rewrite E. split; [reflexivity|]. split; [exact Hr|]. exact Hs.
Qed.

(** What [clear] returns and what it leaves alone: the count is that of the
    references it met, told apart by identity, and a store none of them
    leads to is as before. *)
Lemma clear_spec tgs w :
  exists w', clear tgs w =
             (Normal (length (collected (reachable tgs (clearCacheTagsMap w)) [])), w') /\
    clearCacheTagsMap w' = clearCacheTagsMap w /\
    (forall b, (forall mp, In mp (reachable tgs (clearCacheTagsMap w)) -> myMapOf mp <> b) ->
       theMap w' b = theMap w b /\ theDeepMap w' b = theDeepMap w b).
Proof.
  destruct (clearTags_spec tgs [] w) as (w' & E & Hr & Hs).
  exists w'. unfold clear, bind, ret. rewrite E. auto.
Qed.

Lemma reachable_unknown tgs (registry : gmap string (list Clearable)) :
  (forall tag, In tag tgs -> registry !! tag = None) -> reachable tgs registry = [].
Proof.
  unfold reachable. induction tgs as [|tag tgs IH]; intros Hu; simpl; [reflexivity|].
  rewrite (Hu tag) by (left; reflexivity). simpl. apply IH.
  intros t Ht. apply Hu. right. exact Ht.
Qed.

(** No tags, or tags the tag map does not know: nothing is cleared. *)
Lemma clear_unknown tgs w :
  (forall tag, In tag tgs -> clearCacheTagsMap w !! tag = None) ->
  exists w', clear tgs w = (Normal 0%nat, w') /\
    forall b, theMap w' b = theMap w b /\ theDeepMap w' b = theDeepMap w b.
Proof.
  intros Hu. destruct (clear_spec tgs w) as (w' & E & _ & Hs).
  rewrite (reachable_unknown tgs _ Hu) in E, Hs.
  exists w'. split; [exact E|]. intros b. apply Hs. intros mp [].
Qed.

(** When only shallow stores are reached, the count is the number of
    distinct stores. *)
Lemma collected_shallow mps cleared :
  forallb isTheMap mps = true -> forallb isTheMap cleared = true ->
  NoDup (List.map myMapOf cleared) ->
  length (collected mps cleared) =
  size (list_to_set (List.map myMapOf (cleared ++ mps)) : gset (nat * nat)).
Proof.
  revert cleared. induction mps as [|mp mps IH]; intros cleared Hm Hc Hn; simpl.
  - rewrite app_nil_r. rewrite size_list_to_set by exact Hn. rewrite length_map. reflexivity.
  - simpl in Hm. apply andb_true_iff in Hm as [Hmp Hm].
    destruct mp as [a|i a]; [|discriminate].
    assert (Hhas : Set_has cleared (TheMap a) = true <-> In a (List.map myMapOf cleared)).
    { unfold Set_has. rewrite existsb_exists. split.
      - intros (c & Hin & Hs). destruct c as [a'|]; simpl in Hs; [|discriminate].
        apply bool_decide_eq_true in Hs. subst. apply (in_map myMapOf) in Hin. exact Hin.
      - intros Hin. apply in_map_iff in Hin as (c & Ha & Hin).
        exists c. split; [exact Hin|].
        rewrite forallb_forall in Hc. specialize (Hc c Hin).
        destruct c as [a'|]; [|discriminate]. simpl in Ha. subst.
        simpl. apply bool_decide_eq_true. reflexivity. }
    destruct (Set_has cleared (TheMap a)) eqn:Es.
    + rewrite IH by assumption.
      f_equal. apply set_eq. intros x. rewrite !elem_of_list_to_set, !list_elem_of_In.
      rewrite !map_app, !in_app_iff. simpl.
      assert (In a (List.map myMapOf cleared)) by (apply Hhas; reflexivity).
      split; [tauto|]. intros [?|[<-|?]]; auto.
    + rewrite IH.
      * rewrite <- app_assoc. reflexivity.
      * exact Hm.
      * rewrite forallb_app, Hc. reflexivity.
      * rewrite map_app. simpl. apply list.NoDup_app. split; [exact Hn|]. split.
        -- intros x Hx Hin. apply list_elem_of_In in Hin. destruct Hin as [<-|[]].
           apply list_elem_of_In in Hx. apply Hhas in Hx. congruence.
        -- apply NoDup_singleton.
Qed.

Lemma clear_shallow_count tgs w :
  forallb isTheMap (reachable tgs (clearCacheTagsMap w)) = true ->
  exists w', clear tgs w =
    (Normal (size (list_to_set (List.map myMapOf (reachable tgs (clearCacheTagsMap w)))
                   : gset (nat * nat))), w').
Proof.
  intros Hs. destruct (clear_spec tgs w) as (w' & E & _).
  exists w'. rewrite E. rewrite (collected_shallow _ [] Hs eq_refl); [reflexivity|].
  simpl. apply list.NoDup_nil. trivial.
Qed.
End Clear.

(** ** The claims on the run host *)

Import Run.

Lemma run_host_laws step : EqualLaws (host step).
Proof.
  split; simpl; intros.
  - apply bool_decide_eq_true. reflexivity.
  - apply bool_decide_eq_true. apply bool_decide_eq_true in H. congruence.
  - apply bool_decide_eq_true. apply bool_decide_eq_true in H, H0. congruence.
Qed.

(** C1 on the code. With [@Memoize()] the second call of the scenario is
    answered from the store of the first: the original method runs once and
    both calls return ['Hola, Mundo'].  The behaviour the claim describes is
    that of [useDeepEqual: true]. *)
Theorem C1_default_is_first_argument_only :
  (forall H : Host,
     let out := holaTwice ParamUndefined (initial JUndefined) in
     fst out = Normal (JStr "Hola, Mundo", JStr "Hola, Mundo") /\ invoked (snd out) = 1%nat) /\
  (let out := @holaTwice (host 1) (options None None (Some true)) (initial JUndefined) in
   fst out = Normal (JStr "Hola, Mundo", JStr "Hola, Mars") /\ invoked (snd out) = 2%nat).
Proof.
  split.
  - intros H. vm_compute. split; reflexivity.
  - vm_compute. split; reflexivity.
Qed.

(** C3 on the code. One call of a deep member tagged [foo] and [bar] puts
    two wrapper objects around its one store into the tag map;
    [clear(['foo', 'bar'])] clears through both and returns 2.  The shallow
    member registers the store itself and the same scenario returns 1. *)
Theorem C3_clear_counts_wrappers :
  (let out := @clearAfterOneCall (host 1) true (initial JUndefined) in
   fst out = Normal 2%nat /\ size (deepMaps (snd out)) = 1%nat /\ size (maps (snd out)) = 0%nat) /\
  (let out := @clearAfterOneCall (host 1) false (initial JUndefined) in
   fst out = Normal 1%nat /\ size (maps (snd out)) = 1%nat).
Proof. vm_compute. repeat split; reflexivity. Qed.

Lemma C2_counterexample :
  let f := member getNumber HFundefined 0 None true in
  let w1 := snd (@call (host 1) f a [] (initial JUndefined)) in
  List.map (fun e => DeepEqualMap.key (snd e)) (deepStore f a w1) = [thisValue a] /\
  ~ (exists r, thisValue a = JArr r []).
Proof.
  split; [vm_compute; reflexivity|]. intros [r E]. discriminate E.
Qed.

Lemma C6_counterexample :
  (let f := member getNumber HFundefined 100 None false in
   let w1 := snd (@call (host 1) f a [] (initial JUndefined)) in
   List.map fst (shallowStore f a w1) = [JUndefined; JStr "undefined__timestamp"] /\
   AnyMap_has (shallowStore f a w1) (thisValue a) = false) /\
  (let f := member getGreeting HFundefined 100 None false in
   let w1 := snd (@call (host 200) f a Hola (initial JUndefined)) in
   let out := @call (host 200) f a [JStr "Hola"; JStr "Mars"] w1 in
   fst out = Normal (JStr "Hola, Mars") /\ invoked (snd out) = 2%nat).
Proof. vm_compute. repeat split; reflexivity. Qed.


Lemma C7_counterexample :
  let w := initial JUndefined in
  let out := @Reentrant.call (host 1) (@Nested.f (host 1)) a [JNum 1] w in
  fst out = Throw (JStr "boom") /\
  theMap w (100%nat, 0%nat) = [] /\
  theMap (snd out) (100%nat, 0%nat) = [(JNum 0, JNum 0)].
Proof. vm_compute. repeat split; reflexivity. Qed.

Lemma C2_witness :
  let f := member getGreeting HFundefined 0 None true in
  let f' := member getGreeting (HFboolean true) 0 None true in
  let w := initial JUndefined in
  useDeepEqual f = true /\ (forall h, hashFunction f <> HFfunction h) /\
  derivedKey f a Hola w = (Normal (JArr 0 Hola), JUndefined) /\
  (exists s, In (s, DeepEqualMap.Entry (JArr 0 Hola) (JStr "Hola, Mundo"))
               (deepStore f a (snd (@call (host 1) f a Hola w)))) /\
  derivedKey f a [obj1] w = (Normal obj1, JUndefined) /\
  derivedKey f' a [obj1] w = (Normal (JArr 0 [obj1]), JUndefined) /\
  derivedKey f' a [] w = (Normal (JArr 0 []), JUndefined).
Proof.
  intros f f' w.
  assert (Hf : forall h, hashFunction f <> HFfunction h) by (intros h E; discriminate E).
  assert (Hf' : forall h, hashFunction f' <> HFfunction h) by (intros h E; discriminate E).
  destruct (@C2_deep_default_key (host 1) f a Hola w eq_refl Hf) as [Hk Hin].
  split; [reflexivity|]. split; [exact Hf|]. split; [exact Hk|]. split.
  - apply Hin; [simpl; lia|vm_compute; reflexivity|vm_compute; reflexivity].
  - split; [exact (proj1 (@C2_deep_default_key (host 1) f a [obj1] w eq_refl Hf))|].
    split; [exact (proj1 (@C2_deep_default_key (host 1) f' a [obj1] w eq_refl Hf'))|].
    exact (proj1 (@C2_deep_default_key (host 1) f' a [] w eq_refl Hf')).
Defined.



Lemma C6_witness :
  let f := member getGreeting HFundefined 0 None false in
  let w := initial JUndefined in
  let w1 := snd (@call (host 1) f a Hola w) in
  useDeepEqual f = false /\ truthy (hashFunction f) = false /\
  @call (host 1) f a Hola w = (Normal (JStr "Hola, Mundo"), w1) /\
  exists w2, @call (host 1) f a [JStr "Hola"; JStr "Mars"] w1 = (Normal (JStr "Hola, Mundo"), w2) /\
    invoked w2 = invoked w1.
Proof.
  intros f w w1.
  assert (Hc : @call (host 1) f a Hola w = (Normal (JStr "Hola, Mundo"), w1))
    by (vm_compute; reflexivity).
  split; [reflexivity|]. split; [reflexivity|]. split; [exact Hc|].
  destruct (@C6_shallow_default_key (host 1) f a Hola w eq_refl eq_refl) as (_ & _ & Hagain).
  apply (Hagain (JStr "Hola") [JStr "Mundo"] [JStr "Mars"] _ w1 eq_refl Hc).
  vm_compute. reflexivity.
Defined.

Lemma C7_witness :
  let g := @Nested.f (host 1) in
  let w := initial JUndefined in
  let k := JNum 1 in
  let w1 := entered g a w in
  let w2 := snd (Reentrant.originalMethod g a [k] (@atMethod (host 1) g a w1 k)) in
  @applies (host 1) g a [k] w k w1 /\
  @Reentrant.call (host 1) g a [k] w = (Throw (JStr "boom"), w2) /\
  theMap w2 (100%nat, 0%nat) = [(JNum 0, JNum 0)] /\
  let f := detached (member failing HFundefined 0 None true) in
  let v1 := entered f a w in
  let v2 := snd (Reentrant.originalMethod f a [obj1] (@atMethod (host 1) f a v1 obj1)) in
  @applies (host 1) f a [obj1] w obj1 v1 /\
  @Reentrant.call (host 1) f a [obj1] w = (Throw (JStr "boom"), v2) /\
  forall b, theMap v2 b = theMap w b /\ theDeepMap v2 b = theDeepMap w b.
Proof.
  intros g w k w1 w2.
  assert (Ha : @applies (host 1) g a [k] w k w1).
  { repeat split; try (vm_compute; reflexivity). }
  destruct (@C7_failures_are_not_memoized (host 1) g a [k] w) as (_ & Hrun & _).
  split; [exact Ha|]. split.
  - apply (Hrun k w1 (Throw (JStr "boom")) w2 Ha). vm_compute. reflexivity.
  - split; [vm_compute; reflexivity|]. intros f v1 v2.
    assert (Ha' : @applies (host 1) f a [obj1] w obj1 v1).
    { repeat split; try (vm_compute; reflexivity). }
    destruct (@C7_failures_are_not_memoized (host 1) f a [obj1] w) as (_ & Hrun' & _).
    destruct (Hrun' obj1 v1 (Throw (JStr "boom")) v2 Ha') as [Hc Hq]; [vm_compute; reflexivity|].
    destruct (detached_quiet (member failing HFundefined 0 None true)) as [Hqk Hqm].
    split; [exact Ha'|]. split; [exact Hc|]. exact (Hq Hqk Hqm).
Defined.


Lemma C9_witness :
  let ops := [(obj1, JNum 1, 0%Z, "0.1"); (obj3, JNum 2, 1%Z, "0.2")] in
  let m := @DeepEqualMap.after (host 1) ops in
  let m' := @DeepEqualMap.set (host 1) m obj2 (JNum 3) 2%Z "0.3" in
  @equal (host 1) obj2 obj1 = true /\
  DeepEqualMap.once (DeepEqualMap.serials ops) = true /\
  @DeepEqualMap.wf (host 1) m = true /\
  @DeepEqualMap.get (host 1) m obj2 = JNum 1 /\
  @DeepEqualMap.get (host 1) m' obj1 = JNum 3 /\
  length (@DeepEqualMap.matching (host 1) m' obj1) = 1%nat /\
  (length m' <= length m)%nat.
Proof.
  intros ops m m'.
  assert (He : @equal (host 1) obj2 obj1 = true) by (vm_compute; reflexivity).
  assert (Ho : DeepEqualMap.once (DeepEqualMap.serials ops) = true) by (vm_compute; reflexivity).
  destruct (@C9_one_entry_per_key (host 1) (run_host_laws 1) ops) as (Hwf & Hset & Hall).
  destruct (Hset obj2 (JNum 3) 2%Z "0.3" obj1 He) as (Hg & Hl & _ & Hlen).
  pose proof (Hall Ho obj2) as Hlast.
  split; [exact He|]. split; [exact Ho|]. split; [exact Hwf|].
  split; [exact (proj1 (proj2 Hlast))|].
  split; [exact Hg|]. split; [exact Hl|].
  apply Hlen. vm_compute. reflexivity.
Defined.


(** * Further properties *)

(** ** More on [clear] *)

Section ClearMore.
Context `{Host}.

Lemma untouched_refl w : untouched w w.
Proof. repeat split. Qed.

Lemma untouched_trans w1 w2 w3 : untouched w1 w2 -> untouched w2 w3 -> untouched w1 w3.
Proof.
  unfold untouched. intros (?&?&?&?&?&?&?) (?&?&?&?&?&?&?). repeat split; congruence.
Qed.

Lemma shrunk_refl w : shrunk w w.
Proof. intros b. auto. Qed.

Lemma shrunk_trans w1 w2 w3 : shrunk w1 w2 -> shrunk w2 w3 -> shrunk w1 w3.
Proof.
  intros H12 H23 b. destruct (H12 b) as [[E1|E1] [D1|D1]], (H23 b) as [[E2|E2] [D2|D2]];
    split; solve [left; congruence | right; congruence].
Qed.

Lemma shrunk_emptied w w' mp : shrunk w w' -> emptied w mp -> emptied w' mp.
Proof.
  intros Hs. destruct mp as [a|i a]; simpl; intros E; destruct (Hs a) as [[E1|E1] [D1|D1]];
    congruence.
Qed.

Lemma default_alter_nil {E} (f : list E -> list E) (ms : gmap (nat * nat) (list E)) a :
  (forall l, f l = []) -> default [] (alter f a ms !! a) = [].
Proof. intros Hf. rewrite lookup_alter_eq. destruct (ms !! a); simpl; auto. Qed.

Lemma mp_clear_emptied mp w :
  exists w', mp_clear mp w = (Normal tt, w') /\ untouched w w' /\ shrunk w w' /\ emptied w' mp.
Proof.
  destruct mp as [a|i a]; simpl; unfold withMaps, withDeepMaps; eexists;
    (split; [reflexivity|]); (split; [repeat split|]); split.
  - intros b. unfold theMap, theDeepMap; simpl. split; [|auto].
    destruct (decide (b = a)) as [->|Hb].
    + right. apply default_alter_nil. reflexivity.
    + left. rewrite lookup_alter_ne by congruence. reflexivity.
  - unfold theMap; simpl. apply default_alter_nil. reflexivity.
  - intros b. unfold theMap, theDeepMap; simpl. split; [auto|].
    destruct (decide (b = a)) as [->|Hb].
    + right. apply default_alter_nil. reflexivity.
    + left. rewrite lookup_alter_ne by congruence. reflexivity.
  - unfold theDeepMap; simpl. apply default_alter_nil. reflexivity.
Qed.

Lemma collected_In mps cleared c :
  In c (collected mps cleared) -> In c cleared \/ In c mps.
Proof.
  unfold collected. revert cleared. induction mps as [|mp mps IH]; intros cleared; simpl; [auto|].
  intros Hin. apply IH in Hin. destruct (Set_has cleared mp).
  - tauto.
  - destruct Hin as [Hin|Hin]; [|tauto]. apply in_app_or in Hin. simpl in Hin. tauto.
Qed.

Lemma collected_keeps mps cleared c : In c cleared -> In c (collected mps cleared).
Proof.
  unfold collected. revert cleared. induction mps as [|mp mps IH]; intros cleared Hin; simpl; [auto|].
  apply IH. destruct (Set_has cleared mp); [exact Hin|]. apply in_or_app. auto.
Qed.

(** The loop over the elements under one tag. *)
Lemma clearEach_emptied (all : list Clearable) mps cleared w :
  (forall i a a', In (MapWrapper i a) all -> In (MapWrapper i a') all -> a = a') ->
  incl mps all -> incl cleared all ->
  (forall c, In c cleared -> emptied w c) ->
  exists w', clearEach mps cleared w = (Normal (collected mps cleared), w') /\
    untouched w w' /\ shrunk w w' /\
    (forall c, In c (collected mps cleared) -> emptied w' c) /\
    (forall mp, In mp mps -> emptied w' mp).
Proof.
  intros Hall. revert cleared w. induction mps as [|mp mps IH]; intros cleared w Hm Hc He; simpl.
  - exists w. split; [reflexivity|]. split; [apply untouched_refl|]. split; [apply shrunk_refl|].
    split; [exact He|]. intros mp [].
  - assert (Hm' : incl mps all) by (intros x Hx; apply Hm; right; exact Hx).
    assert (Hmp : In mp all) by (apply Hm; left; reflexivity).
    unfold collected. simpl. fold (collected mps (if Set_has cleared mp then cleared else cleared ++ [mp])).
    destruct (Set_has cleared mp) eqn:Es.
    + destruct (IH cleared w Hm' Hc He) as (w' & E & Hu & Hs & Hcl & Hmps).
      exists w'. split; [exact E|]. split; [exact Hu|]. split; [exact Hs|]. split; [exact Hcl|].
      intros mp0 [<-|Hin]; [|auto].
      apply (shrunk_emptied w w' _ Hs).
      unfold Set_has in Es. apply existsb_exists in Es as (c & Hin & Hsame).
      specialize (He c Hin). destruct c as [a|i a], mp as [a'|i' a']; simpl in Hsame;
        try discriminate; simpl in *.
      * apply bool_decide_eq_true in Hsame. subst. exact He.
      * apply Nat.eqb_eq in Hsame. subst i'.
        rewrite (Hall i a' a Hmp (Hc _ Hin)). exact He.
    + destruct (mp_clear_emptied mp w) as (w1 & E1 & Hu1 & Hs1 & He1).
      destruct (IH (cleared ++ [mp]) w1 Hm') as (w' & E & Hu & Hs & Hcl & Hmps).
      * intros x Hx. apply in_app_or in Hx as [Hx|[<-|[]]]; auto.
      * intros c Hin. apply in_app_or in Hin as [Hin|[<-|[]]]; [|exact He1].
        apply (shrunk_emptied w w1 _ Hs1). auto.
      * exists w'. unfold bind. rewrite E1, E. split; [reflexivity|].
        split; [exact (untouched_trans _ _ _ Hu1 Hu)|].
        split; [exact (shrunk_trans _ _ _ Hs1 Hs)|]. split; [exact Hcl|].
        intros mp0 [<-|Hin]; [|auto].
        apply Hcl. apply collected_keeps. apply in_or_app. right. left. reflexivity.
Qed.

Lemma reachable_In tgs (registry : gmap string (list Clearable)) mp :
  In mp (reachable tgs registry) <->
  exists tag, In tag tgs /\ In mp (default [] (registry !! tag)).
Proof.
  unfold reachable. rewrite in_concat. split.
  - intros (l & Hl & Hin). apply in_map_iff in Hl as (tag & <- & Ht). eauto.
  - intros (tag & Ht & Hin). eexists. split; [|exact Hin].
    apply in_map_iff. eauto.
Qed.

(** The loop over the tags. *)
Lemma clearTags_emptied (all : list Clearable) tgs cleared w :
  (forall i a a', In (MapWrapper i a) all -> In (MapWrapper i a') all -> a = a') ->
  incl (reachable tgs (clearCacheTagsMap w)) all -> incl cleared all ->
  (forall c, In c cleared -> emptied w c) ->
  exists w', clearTags tgs cleared w =
             (Normal (collected (reachable tgs (clearCacheTagsMap w)) cleared), w') /\
    untouched w w' /\ shrunk w w' /\
    (forall c, In c (collected (reachable tgs (clearCacheTagsMap w)) cleared) -> emptied w' c) /\
    (forall mp, In mp (reachable tgs (clearCacheTagsMap w)) -> emptied w' mp).
Proof.
  intros Hall. unfold reachable.
  revert cleared w. induction tgs as [|tag tgs IH]; intros cleared w Hr Hc He; simpl.
  - exists w. split; [reflexivity|]. split; [apply untouched_refl|]. split; [apply shrunk_refl|].
    split; [exact He|]. intros mp [].
  - simpl in Hr. unfold collected. rewrite fold_left_app.
    fold (collected (default [] (clearCacheTagsMap w !! tag)) cleared).
    set (cl1 := collected (default [] (clearCacheTagsMap w !! tag)) cleared).
    match goal with
    | |- context [fold_left ?g ?l cl1] => change (fold_left g l cl1) with (collected l cl1)
    end.
    assert (Hr1 : incl (default [] (clearCacheTagsMap w !! tag)) all)
      by (intros x Hx; apply Hr; apply in_or_app; auto).
    destruct (clearEach_emptied all (default [] (clearCacheTagsMap w !! tag)) cleared w
                Hall Hr1 Hc He) as (w1 & E1 & Hu1 & Hs1 & Hcl1 & Hmps1).
    fold cl1 in E1, Hcl1.
    assert (Ereg : clearCacheTagsMap w1 = clearCacheTagsMap w) by (apply Hu1).
    destruct (IH cl1 w1) as (w' & E & Hu & Hs & Hcl & Hmps).
    + rewrite Ereg. intros x Hx. apply Hr. apply in_or_app. auto.
    + intros c Hin. apply collected_In in Hin as [Hin|Hin]; auto.
    + exact Hcl1.
    + rewrite Ereg in E, Hcl, Hmps.
      exists w'. split.
      * destruct (clearCacheTagsMap w !! tag) as [mps|] eqn:Et; simpl in *.
        -- unfold bind. rewrite E1. exact E.
        -- injection E1 as <-. exact E.
      * split; [exact (untouched_trans _ _ _ Hu1 Hu)|].
        split; [exact (shrunk_trans _ _ _ Hs1 Hs)|]. split; [exact Hcl|].
        intros mp Hin. apply in_app_or in Hin as [Hin|Hin]; [|auto].
        apply (shrunk_emptied w1 w' _ Hs). auto.
Qed.

Lemma coherent_reachable w tgs i a a' :
  coherent w ->
  In (MapWrapper i a) (reachable tgs (clearCacheTagsMap w)) ->
  In (MapWrapper i a') (reachable tgs (clearCacheTagsMap w)) -> a = a'.
Proof.
  intros Hco Hin Hin'. apply reachable_In in Hin as (tag & _ & Hin).
  apply reachable_In in Hin' as (tag' & _ & Hin').
  destruct (Hco tag' i a' Hin') as [_ Hone]. apply (Hone tag a Hin).
Qed.

Lemma mp_clear_sparing mp w w' : mp_clear mp w = (Normal tt, w') -> sparing [mp] w w'.
Proof.
  destruct mp as [a|i a]; simpl; unfold withMaps, withDeepMaps; intros [= <-];
    split; intros b Hb; unfold theMap, theDeepMap; simpl; try reflexivity.
  - rewrite lookup_alter_ne; [reflexivity|]. intros ->. apply Hb. left. reflexivity.
  - rewrite lookup_alter_ne; [reflexivity|]. intros ->. apply (Hb i). left. reflexivity.
Qed.

Lemma clearEach_frame mps cleared w :
  exists w', clearEach mps cleared w = (Normal (collected mps cleared), w') /\
    untouched w w' /\ shrunk w w' /\ sparing mps w w'.
Proof.
  revert cleared w. induction mps as [|mp mps IH]; intros cleared w; simpl.
  - exists w. split; [reflexivity|]. split; [apply untouched_refl|]. split; [apply shrunk_refl|].
    split; intros; reflexivity.
  - unfold collected. simpl.
    fold (collected mps (if Set_has cleared mp then cleared else cleared ++ [mp])).
    destruct (Set_has cleared mp).
    + destruct (IH cleared w) as (w' & E & Hu & Hs & Hf1 & Hf2).
      exists w'. split; [exact E|]. split; [exact Hu|]. split; [exact Hs|]. split.
      * intros b Hb. apply Hf1. intros Hin. apply Hb. right. exact Hin.
      * intros b Hb. apply Hf2. intros i Hin. apply (Hb i). right. exact Hin.
    + destruct (mp_clear_emptied mp w) as (w1 & E1 & Hu1 & Hs1 & _).
      destruct (mp_clear_sparing mp w w1 E1) as [Hg1 Hg2].
      destruct (IH (cleared ++ [mp]) w1) as (w2 & E2 & Hu2 & Hs2 & Hf1 & Hf2).
      exists w2. unfold bind. rewrite E1, E2. split; [reflexivity|].
      split; [exact (untouched_trans _ _ _ Hu1 Hu2)|].
      split; [exact (shrunk_trans _ _ _ Hs1 Hs2)|]. split.
      * intros b Hb. rewrite Hf1, Hg1; [reflexivity| |].
        -- intros [Hin|[]]. apply Hb. left. exact Hin.
        -- intros Hin. apply Hb. right. exact Hin.
      * intros b Hb. rewrite Hf2, Hg2; [reflexivity| |].
        -- intros i [Hin|[]]. apply (Hb i). left. exact Hin.
        -- intros i Hin. apply (Hb i). right. exact Hin.
Qed.

Lemma clearTags_frame tgs cleared w :
  exists w', clearTags tgs cleared w =
             (Normal (collected (reachable tgs (clearCacheTagsMap w)) cleared), w') /\
    untouched w w' /\ shrunk w w' /\ sparing (reachable tgs (clearCacheTagsMap w)) w w'.
Proof.
  unfold reachable. revert cleared w. induction tgs as [|tag tgs IH]; intros cleared w; simpl.
  - exists w. split; [reflexivity|]. split; [apply untouched_refl|]. split; [apply shrunk_refl|].
    split; intros; reflexivity.
  - unfold collected. rewrite fold_left_app.
    fold (collected (default [] (clearCacheTagsMap w !! tag)) cleared).
    set (cl1 := collected (default [] (clearCacheTagsMap w !! tag)) cleared).
    match goal with
    | |- context [fold_left ?g ?l cl1] => change (fold_left g l cl1) with (collected l cl1)
    end.
    destruct (clearEach_frame (default [] (clearCacheTagsMap w !! tag)) cleared w)
      as (w1 & E1 & Hu1 & Hs1 & Hg1 & Hg2).
    fold cl1 in E1.
    assert (Ereg : clearCacheTagsMap w1 = clearCacheTagsMap w) by (apply Hu1).
    destruct (IH cl1 w1) as (w2 & E2 & Hu2 & Hs2 & Hf1 & Hf2).
    rewrite Ereg in E2, Hf1, Hf2.
    exists w2. split.
    + destruct (clearCacheTagsMap w !! tag) as [mps|] eqn:Et; simpl in *.
      * unfold bind. rewrite E1. exact E2.
      * injection E1 as <-. exact E2.
    + split; [exact (untouched_trans _ _ _ Hu1 Hu2)|].
      split; [exact (shrunk_trans _ _ _ Hs1 Hs2)|]. split.
      * intros b Hb. rewrite Hf1, Hg1; [reflexivity| |].
        -- intros Hin. apply Hb. apply in_or_app. left. exact Hin.
        -- intros Hin. apply Hb. apply in_or_app. right. exact Hin.
      * intros b Hb. rewrite Hf2, Hg2; [reflexivity| |].
        -- intros i Hin. apply (Hb i). apply in_or_app. left. exact Hin.
        -- intros i Hin. apply (Hb i). apply in_or_app. right. exact Hin.
Qed.

Lemma collected_length mps cleared :
  (length (collected mps cleared) <= length cleared + length mps)%nat.
Proof.
  unfold collected. revert cleared. induction mps as [|mp mps IH]; intros cleared; simpl; [lia|].
  destruct (Set_has cleared mp).
  - specialize (IH cleared). lia.
  - specialize (IH (cleared ++ [mp])). rewrite length_app in IH. simpl in IH. lia.
Qed.


(** [clear] in full: it returns, the count is that of the references it
    met, nothing but stores changes, every store is as before or empty, and
    in a coherent world the stores the tags lead to are empty. *)
Lemma clear_emptied tgs w :
  exists w', clear tgs w =
             (Normal (length (collected (reachable tgs (clearCacheTagsMap w)) [])), w') /\
    untouched w w' /\ shrunk w w' /\ sparing (reachable tgs (clearCacheTagsMap w)) w w' /\
    (coherent w -> forall mp, In mp (reachable tgs (clearCacheTagsMap w)) -> emptied w' mp).
Proof.
  destruct (clearTags_frame tgs [] w) as (w' & E & Hu & Hs & Hsp).
  exists w'. split; [unfold clear, bind, ret; rewrite E; reflexivity|].
  split; [exact Hu|]. split; [exact Hs|]. split; [exact Hsp|].
  intros Hco.
  destruct (clearTags_emptied (reachable tgs (clearCacheTagsMap w)) tgs [] w)
    as (w2 & E2 & _ & _ & _ & Hm).
  - intros i a a'. apply coherent_reachable. exact Hco.
  - intros x Hx. exact Hx.
  - intros x [].
  - intros c [].
  - rewrite E in E2. injection E2 as <-. exact Hm.
Qed.
End ClearMore.

(** ** What a call changes *)

Section CallEffects.
Context `{Host}.

(** The counters of a call: it makes objects, never symbols. *)
Lemma call_counters f this args w c w' :
  call f this args w = (c, w') ->
  symbols w' = symbols w /\
  (refs (if useDeepEqual f then enteredDeepMap f this w else enteredMap f this w) <= refs w')%nat.
Proof.
  rewrite call_eq. destruct (derivedKey f this args w) as [[k|e] p].
  - destruct (useDeepEqual f).
    + rewrite deepLookup_eq. cbv zeta. unfold afterCheck, ran.
      destruct (_ && negb _); [|destruct (originalMethod f this args _) as [[v|e] p']];
        destruct ((0 <? duration f)%Z && _); try destruct (0 <? duration f)%Z;
        intros [= <- <-]; simpl; split; try reflexivity; lia.
    + rewrite shallowLookup_eq. cbv zeta. unfold afterCheck, ran.
      destruct (_ && negb _); [|destruct (originalMethod f this args _) as [[v|e] p']];
        destruct ((0 <? duration f)%Z && _); try destruct (0 <? duration f)%Z;
        intros [= <- <-]; simpl; split; try reflexivity; lia.
  - intros [= <- <-]. destruct (useDeepEqual f); simpl; split; try reflexivity; lia.
Qed.

(** The stores of a shallow call: the deep stores and the other shallow
    stores are as before; its own store is as before, or has the value and,
    with a window, the timestamp put in. *)
Lemma call_shallow_stores f this args w c w' :
  useDeepEqual f = false ->
  call f this args w = (c, w') ->
  (forall b, theDeepMap w' b = theDeepMap w b) /\
  (forall b, b <> (ref this, propMapName f) -> theMap w' b = theMap w b) /\
  (shallowStore f this w' = shallowStore f this w \/
   exists k p v now,
     derivedKey f this args w = (Normal k, p) /\ c = Normal v /\
     usable f this w k (timestampKeyOf f w k) = false /\
     shallowStore f this w' =
     if (0 <? duration f)%Z
     then AnyMap_set (AnyMap_set (shallowStore f this w) k v) (timestampString k) (JNum now)
     else AnyMap_set (shallowStore f this w) k v).
Proof.
  intros Hm Hc.
  destruct (derivedKey f this args w) as [[k|e] p] eqn:Hk.
  - destruct (usable f this w k (timestampKeyOf f w k)) eqn:Hu.
    + destruct (call_hit f this args w k p Hk Hu) as (w1 & Hc1 & _ & _ & Hs & Hd).
      rewrite Hc in Hc1. injection Hc1 as -> ->.
      split; [exact Hd|]. split; [intros b _; apply Hs|]. left. apply Hs.
    + destruct (originalMethod f this args p) as [c0 p'] eqn:Hrun.
      assert (Hu' := Hu). unfold usable, present, stored in Hu'. rewrite Hm in Hu'.
      destruct (shallow_miss f this args w k p c0 p' Hm Hk Hu' Hrun)
        as (w1 & Hc1 & _ & _ & Hd & Hs & Hst).
      rewrite Hc in Hc1. injection Hc1 as -> ->.
      split; [exact Hd|]. split; [exact Hs|].
      destruct c0 as [v|e]; [|left; exact Hst].
      right. exists k, p, v. eexists. split; [reflexivity|]. split; [reflexivity|].
      split; [exact Hu|].
      rewrite Hst. unfold timestampKeyOf. rewrite Hm. reflexivity.
  - destruct (call_key_throws f this args w e p Hk) as (w1 & Hc1 & _ & _ & Hs & Hd).
    rewrite Hc in Hc1. injection Hc1 as -> ->.
    split; [exact Hd|]. split; [intros b _; apply Hs|]. left. apply Hs.
Qed.

(** The stores of a deep call. *)
Lemma call_deep_stores f this args w c w' :
  useDeepEqual f = true ->
  call f this args w = (c, w') ->
  (forall b, theMap w' b = theMap w b) /\
  (forall b, b <> (ref this, propDeepMapName f) -> theDeepMap w' b = theDeepMap w b) /\
  (deepStore f this w' = deepStore f this w \/
   exists k p v now random,
     derivedKey f this args w = (Normal k, p) /\ c = Normal v /\
     usable f this w k (timestampKeyOf f w k) = false /\
     let m1 := DeepEqualMap.set (deepStore f this w) k v now random in
     if (0 <? duration f)%Z
     then exists ts now' random',
            deepStore f this w' = DeepEqualMap.set m1 (timestampKeyOf f w k) ts now' random'
     else deepStore f this w' = m1).
Proof.
  intros Hm Hc.
  destruct (derivedKey f this args w) as [[k|e] p] eqn:Hk.
  - destruct (usable f this w k (timestampKeyOf f w k)) eqn:Hu.
    + destruct (call_hit f this args w k p Hk Hu) as (w1 & Hc1 & _ & _ & Hs & Hd).
      rewrite Hc in Hc1. injection Hc1 as -> ->.
      split; [exact Hs|]. split; [intros b _; apply Hd|]. left. apply Hd.
    + destruct (originalMethod f this args p) as [c0 p'] eqn:Hrun.
      assert (Hu' := Hu). unfold usable, present, stored in Hu'. rewrite Hm in Hu'.
      destruct (deep_miss f this args w k p c0 p' Hm Hk Hu' Hrun)
        as (w1 & Hc1 & _ & _ & Hs & Hd & Hst).
      rewrite Hc in Hc1. injection Hc1 as -> ->.
      split; [exact Hs|]. split; [exact Hd|].
      destruct c0 as [v|e]; [|left; exact Hst].
      right. exists k, p, v. cbv zeta in Hst.
      destruct (0 <? duration f)%Z; do 2 eexists;
        (split; [reflexivity|]); (split; [reflexivity|]); (split; [exact Hu|]); cbv zeta.
      * do 3 eexists. exact Hst.
      * exact Hst.
  - destruct (call_key_throws f this args w e p Hk) as (w1 & Hc1 & _ & _ & Hs & Hd).
    rewrite Hc in Hc1. injection Hc1 as -> ->.
    split; [exact Hs|]. split; [intros b _; apply Hd|]. left. apply Hd.
Qed.

Lemma Memoize_world args descriptor w :
  let w' := snd (Memoize args descriptor w) in
  maps w' = maps w /\ deepMaps w' = deepMaps w /\ clearCacheTagsMap w' = clearCacheTagsMap w /\
  refs w' = refs w /\ (symbols w <= symbols w')%nat.
Proof.
  unfold Memoize.
  destruct args as [|h|o]; destruct (descriptor_value descriptor) as [m|];
    destruct (descriptor_get descriptor) as [g|]; simpl; repeat split; lia.
Qed.

Lemma In_registeredDeep tgs a0 id (registry : gmap string (list Clearable)) tag i a :
  In (MapWrapper i a) (default [] (registeredDeep tgs a0 id registry !! tag)) ->
  In (MapWrapper i a) (default [] (registry !! tag)) \/
  (a = a0 /\ (id <= i < id + length tgs)%nat).
Proof.
  destruct (lookup_registeredDeep tgs a0 id registry tag) as (ids & E & _ & Hf & _).
  rewrite E. intros Hin. apply in_app_or in Hin as [Hin|Hin]; [auto|].
  right. apply in_map_iff in Hin as (j & [= <- <-] & Hj).
  split; [reflexivity|]. rewrite List.Forall_forall in Hf. apply Hf. exact Hj.
Qed.

Lemma In_registered tgs a0 (registry : gmap string (list Clearable)) tag i a :
  In (MapWrapper i a) (default [] (registered tgs (TheMap a0) registry !! tag)) ->
  In (MapWrapper i a) (default [] (registry !! tag)).
Proof.
  rewrite lookup_registered. intros Hin. apply in_app_or in Hin as [Hin|Hin]; [auto|].
  apply repeat_spec in Hin. discriminate.
Qed.

Lemma call_coherent f this args w :
  coherent w -> coherent (snd (call f this args w)).
Proof.
  intros Hco. destruct (call f this args w) as [c w'] eqn:Hc. simpl.
  destruct (call_counters f this args w c w' Hc) as [_ Hrefs].
  pose proof (call_registry f this args w c w' Hc) as Hreg.
  unfold coherent. rewrite Hreg. clear Hreg Hc.
  destruct (useDeepEqual f); simpl in *.
  - unfold wrappers in Hrefs.
    destruct (tags f) as [tgs|].
    + intros tag i a Hin. apply In_registeredDeep in Hin as [Hin|[-> Hi]].
      * destruct (Hco tag i a Hin) as [Hlt Hone]. split; [lia|].
        intros tag' a' Hin'. apply In_registeredDeep in Hin' as [Hin'|[-> Hi']]; [eauto|lia].
      * split; [lia|].
        intros tag' a' Hin'. apply In_registeredDeep in Hin' as [Hin'|[-> Hi']]; [|reflexivity].
        destruct (Hco tag' i a' Hin') as [Hlt _]. lia.
    + intros tag i a Hin. destruct (Hco tag i a Hin) as [Hlt Hone]. split; [lia|exact Hone].
  - destruct (tags f) as [tgs|].
    + intros tag i a Hin. apply In_registered in Hin.
      destruct (Hco tag i a Hin) as [Hlt Hone]. split; [lia|].
      intros tag' a' Hin'. apply In_registered in Hin'. eauto.
    + intros tag i a Hin. destruct (Hco tag i a Hin) as [Hlt Hone]. split; [lia|exact Hone].
Qed.

Lemma clear_coherent tgs w : coherent w -> coherent (snd (clear tgs w)).
Proof.
  intros Hco. destruct (clear_emptied tgs w) as (w' & E & Hu & _). rewrite E. simpl.
  destruct Hu as (Hreg & _ & Hrefs & _). unfold coherent. rewrite Hreg, Hrefs. exact Hco.
Qed.

Lemma Memoize_coherent args descriptor w :
  coherent w -> coherent (snd (Memoize args descriptor w)).
Proof.
  intros Hco. destruct (Memoize_world args descriptor w) as (_ & _ & Hreg & Hrefs & _).
  unfold coherent. rewrite Hreg, Hrefs. exact Hco.
Qed.

Lemma step_coherent w w' : step w w' -> coherent w -> coherent w'.
Proof.
  intros [args d w0|f this args w0|tgs w0];
    [apply Memoize_coherent|apply call_coherent|apply clear_coherent].
Qed.

Lemma Attainable_coherent w : Attainable w -> coherent w.
Proof.
  induction 1 as [p|w w' _ IH Hs].
  - intros tag i a Hin. simpl in Hin. rewrite lookup_empty in Hin. destruct Hin.
  - exact (step_coherent w w' Hs IH).
Qed.
End CallEffects.

(** ** Further properties of [clear] *)

Section ClearProperties.
Context `{Host}.

(** X1. [clear] of no tags, or of tags nothing was ever registered under,
    returns 0 and leaves the world exactly as it is. *)
Theorem X1_clear_of_unknown_tags tgs w :
  (forall tag, In tag tgs -> clearCacheTagsMap w !! tag = None) ->
  clear tgs w = (Normal 0%nat, w).
Proof.
  intros Hu. unfold clear, bind, ret.
  assert (E : forall cleared, clearTags tgs cleared w = (Normal cleared, w)).
  { induction tgs as [|tag tgs IH]; intros cleared; simpl; [reflexivity|].
    rewrite (Hu tag) by (left; reflexivity). apply IH.
    intros t Ht. apply Hu. right. exact Ht. }
  rewrite E. reflexivity.
Qed.

(** X2. [clear] always returns; it counts at most the elements the tags
    lead to; it changes nothing but cache stores (the tag map keeps every
    element, no method is applied); a shallow store changes only when it is
    itself under one of the tags and a deep store only when a wrapper around
    it is; and a store that changes ends with no entries. *)
Theorem X2_clear_changes_only_tagged_stores tgs w :
  exists n w', clear tgs w = (Normal n, w') /\
    (n <= length (reachable tgs (clearCacheTagsMap w)))%nat /\
    clearCacheTagsMap w' = clearCacheTagsMap w /\
    invoked w' = invoked w /\ program w' = program w /\
    (forall b, ~ In (TheMap b) (reachable tgs (clearCacheTagsMap w)) ->
       theMap w' b = theMap w b) /\
    (forall b, (forall i, ~ In (MapWrapper i b) (reachable tgs (clearCacheTagsMap w))) ->
       theDeepMap w' b = theDeepMap w b) /\
    (forall b, (theMap w' b = theMap w b \/ theMap w' b = []) /\
               (theDeepMap w' b = theDeepMap w b \/ theDeepMap w' b = [])).
Proof.
  destruct (clear_emptied tgs w) as (w' & E & Hu & Hs & [Hf1 Hf2] & _).
  destruct Hu as (Hreg & _ & _ & _ & _ & Hp & Hi).
  eexists. exists w'. split; [exact E|].
  split; [apply (collected_length _ [])|]. repeat split; auto; apply Hs.
Qed.

(** X3. When the tags lead to shallow stores only, the count [clear]
    returns is the number of distinct stores among them, however often each
    was registered. *)
Theorem X3_clear_counts_shallow_stores tgs w :
  forallb isTheMap (reachable tgs (clearCacheTagsMap w)) = true ->
  fst (clear tgs w) =
  Normal (size (list_to_set (List.map myMapOf (reachable tgs (clearCacheTagsMap w)))
                : gset (nat * nat))).
Proof.
  intros Hs. destruct (clear_emptied tgs w) as (w' & E & _).
  rewrite E. simpl. rewrite (collected_shallow _ [] Hs eq_refl); [reflexivity|].
  simpl. apply list.NoDup_nil. trivial.
Qed.

(** X4. In a world a program can reach, [clear] leaves every store its
    tags lead to without entries: the shallow stores under the tags and the
    deep stores behind the wrappers under the tags. *)
Theorem X4_clear_empties_the_tagged_stores tgs w :
  Attainable w ->
  forall mp, In mp (reachable tgs (clearCacheTagsMap w)) ->
    emptied (snd (clear tgs w)) mp.
Proof.
  intros Hr mp Hin. destruct (clear_emptied tgs w) as (w' & E & _ & _ & _ & He).
  rewrite E. simpl. apply He; [apply Attainable_coherent; exact Hr|exact Hin].
Qed.

(** X5. Clearing the same tags again changes nothing and returns the same
    count: the count tells how many references the tags lead to, not how
    many entries were dropped. *)
Theorem X5_clear_again tgs w :
  Attainable w ->
  forall n w1, clear tgs w = (Normal n, w1) ->
  exists w2, clear tgs w1 = (Normal n, w2) /\
    forall b, theMap w2 b = theMap w1 b /\ theDeepMap w2 b = theDeepMap w1 b.
Proof.
  intros Hr n w1 Hc.
  destruct (clear_emptied tgs w) as (w1' & E1 & Hu1 & _ & _ & He1).
  rewrite Hc in E1. injection E1 as -> <-.
  assert (Ereg : clearCacheTagsMap w1 = clearCacheTagsMap w) by (apply Hu1).
  destruct (clear_emptied tgs w1) as (w2 & E2 & _ & Hs2 & [Hf1 Hf2] & _).
  rewrite Ereg in E2, Hf1, Hf2.
  exists w2. split; [exact E2|].
  specialize (He1 (Attainable_coherent w Hr)).
  set (mps := reachable tgs (clearCacheTagsMap w)) in *.
  intros b. split.
  - destruct (existsb (fun mp => match mp with
                                 | TheMap a => bool_decide (a = b)
                                 | MapWrapper _ _ => false
                                 end) mps) eqn:Ex.
    + apply existsb_exists in Ex as ([a|i a] & Hin & Hb); [|discriminate].
      apply bool_decide_eq_true in Hb. subst a.
      pose proof (He1 _ Hin) as Hem. simpl in Hem.
      destruct (Hs2 b) as [[E|E] _]; congruence.
    + apply Hf1. intros Hin.
      assert (Ht : existsb (fun mp => match mp with
                                      | TheMap a => bool_decide (a = b)
                                      | MapWrapper _ _ => false
                                      end) mps = true).
      { apply existsb_exists. exists (TheMap b). split; [exact Hin|].
        apply bool_decide_eq_true. reflexivity. }
      congruence.
  - destruct (existsb (fun mp => match mp with
                                 | TheMap _ => false
                                 | MapWrapper _ a => bool_decide (a = b)
                                 end) mps) eqn:Ex.
    + apply existsb_exists in Ex as ([a|i a] & Hin & Hb); [discriminate|].
      apply bool_decide_eq_true in Hb. subst a.
      pose proof (He1 _ Hin) as Hem. simpl in Hem.
      destruct (Hs2 b) as [_ [E|E]]; congruence.
    + apply Hf2. intros i Hin.
      assert (Ht : existsb (fun mp => match mp with
                                      | TheMap _ => false
                                      | MapWrapper _ a => bool_decide (a = b)
                                      end) mps = true).
      { apply existsb_exists. exists (MapWrapper i b). split; [exact Hin|].
        apply bool_decide_eq_true. reflexivity. }
      congruence.
Qed.



End ClearProperties.

(** ** Stores per instance and per member *)

Section Isolation.
Context `{Host}.


(** X7. A call whose user code is quiet, that is, whose key function and
    original method leave every store with the entries it had, changes one
    store at most: the one its member keeps on its receiver.  Every other
    store is left as it is, in particular the stores of every other
    instance, whatever the outcome of the call. *)
Theorem X7_call_touches_its_own_store_only g this args w :
  quietKey g -> quiet (Reentrant.originalMethod g) ->
  let w' := snd (Reentrant.call g this args w) in
  (forall b, b <> (ref this, Reentrant.propMapName g) \/ Reentrant.useDeepEqual g = true ->
     theMap w' b = theMap w b) /\
  (forall b, b <> (ref this, Reentrant.propDeepMapName g) \/ Reentrant.useDeepEqual g = false ->
     theDeepMap w' b = theDeepMap w b) /\
  (forall that name, ref that <> ref this ->
     theMap w' (ref that, name) = theMap w (ref that, name) /\
     theDeepMap w' (ref that, name) = theDeepMap w (ref that, name)).
Proof.
  intros Hqk Hq w'. destruct (general_call_frame g this args w Hqk Hq) as [Fs Fd].
  split; [exact Fs|]. split; [exact Fd|].
  intros that name Hne. split; [apply Fs|apply Fd]; left; congruence.
Qed.

Lemma step_symbols w w' : step w w' -> (symbols w <= symbols w')%nat.
Proof.
  intros [args d w0|f this args w0|tgs w0].
  - apply Memoize_world.
  - destruct (call f this args w0) as [c w1] eqn:Hc. simpl.
    destruct (call_counters f this args w0 c w1 Hc) as [-> _]. lia.
  - destruct (clear_emptied tgs w0) as (w1 & E & Hu & _). rewrite E. simpl.
    destruct Hu as (_ & -> & _). lia.
Qed.

Lemma steps_symbols w w' : steps w w' -> (symbols w <= symbols w')%nat.
Proof.
  induction 1 as [w|w w' w'' Hs _ IH]; [lia|].
  apply step_symbols in Hs. lia.
Qed.

Lemma Memoize_symbols args descriptor w r w1 f :
  Memoize args descriptor w = (Normal r, w1) -> memoizedIn r = Some f ->
  propMapName f = symbols w /\ propDeepMapName f = S (symbols w) /\
  symbols w1 = S (S (symbols w)).
Proof.
  unfold Memoize, memoizedIn.
  destruct args as [|h|o]; destruct (descriptor_value descriptor) as [m|];
    destruct (descriptor_get descriptor) as [g|]; simpl;
    intros [= <- <-]; simpl; intros [= <-]; simpl; auto.
Qed.

(** X8. Two decorated members never share a store: [Memoize] gives each
    member two symbols that were not handed out before, so the four symbols
    of two members differ from one another, whatever the program did between
    the two decorations, and the stores of the two members are different
    ones on every pair of receivers. *)
Theorem X8_members_have_stores_of_their_own args1 d1 args2 d2 w r1 w1 w2 r2 w3 f1 f2 :
  Memoize args1 d1 w = (Normal r1, w1) -> memoizedIn r1 = Some f1 ->
  steps w1 w2 ->
  Memoize args2 d2 w2 = (Normal r2, w3) -> memoizedIn r2 = Some f2 ->
  propMapName f1 <> propMapName f2 /\ propDeepMapName f1 <> propDeepMapName f2 /\
  propMapName f1 <> propDeepMapName f2 /\ propDeepMapName f1 <> propMapName f2 /\
  propMapName f1 <> propDeepMapName f1 /\ propMapName f2 <> propDeepMapName f2 /\
  (symbols w <= propMapName f1)%nat /\ (symbols w <= propDeepMapName f1)%nat /\
  (symbols w2 <= propMapName f2)%nat /\ (symbols w2 <= propDeepMapName f2)%nat /\
  forall this that,
    (ref this, propMapName f1) <> (ref that, propMapName f2) /\
    (ref this, propDeepMapName f1) <> (ref that, propDeepMapName f2).
Proof.
  intros Hm1 Hf1 Hst Hm2 Hf2.
  destruct (Memoize_symbols _ _ _ _ _ _ Hm1 Hf1) as (Ea & Eb & Es).
  destruct (Memoize_symbols _ _ _ _ _ _ Hm2 Hf2) as (Ea' & Eb' & _).
  apply steps_symbols in Hst.
  repeat (split; [lia|]).
  intros this that. split; intros E; injection E as _ E; lia.
Qed.

End Isolation.

(** ** The deep stores of a running program *)

Section Invariant.
Context `{EqualLaws}.
Import DeepEqualMap.

Lemma call_wf f this args w :
  (forall b, wf (theDeepMap w b) = true) ->
  forall b, wf (theDeepMap (snd (call f this args w)) b) = true.
Proof.
  intros Hwf b. destruct (call f this args w) as [c w'] eqn:Hc. simpl.
  destruct (useDeepEqual f) eqn:Hm.
  - destruct (call_deep_stores f this args w c w' Hm Hc) as (_ & Hd & Hown).
    destruct (decide (b = (ref this, propDeepMapName f))) as [->|Hb];
      [|rewrite Hd by exact Hb; apply Hwf].
    fold (deepStore f this w'). specialize (Hwf (ref this, propDeepMapName f)).
    fold (deepStore f this w) in Hwf.
    destruct Hown as [->|(k & p & v & now & random & _ & _ & _ & Hst)]; [exact Hwf|].
    cbv zeta in Hst. destruct (0 <? duration f)%Z.
    + destruct Hst as (ts & now' & random' & ->). apply DeepFacts.wf_set, DeepFacts.wf_set, Hwf.
    + rewrite Hst. apply DeepFacts.wf_set, Hwf.
  - destruct (call_shallow_stores f this args w c w' Hm Hc) as (Hd & _). rewrite Hd. apply Hwf.
Qed.

Lemma step_wf w w' :
  step w w' -> (forall b, wf (theDeepMap w b) = true) -> forall b, wf (theDeepMap w' b) = true.
Proof.
  intros [args d w0|f this args w0|tgs w0] Hwf b.
  - destruct (Memoize_world args d w0) as (_ & Hd & _). unfold theDeepMap. rewrite Hd. apply Hwf.
  - apply call_wf. exact Hwf.
  - destruct (clear_emptied tgs w0) as (w1 & E & _ & Hs & _). rewrite E. simpl.
    destruct (Hs b) as [_ [-> | ->]]; [apply Hwf|reflexivity].
Qed.

Lemma Attainable_wf w : Attainable w -> forall b, wf (theDeepMap w b) = true.
Proof.
  induction 1 as [p|w w' _ IH Hs]; [reflexivity|]. exact (step_wf w w' Hs IH).
Qed.

(** X10. Every deep store of a running program is well formed, whatever the
    program decorated, called and cleared: its private map has one entry per
    serialized key, no two entries have keys that [equal] takes for the
    same, and so a key matches one entry when [has] finds it and none
    otherwise. *)
Theorem X10_deep_stores_stay_well_formed w b q :
  Attainable w ->
  wf (theDeepMap w b) = true /\
  length (matching (theDeepMap w b) q) = if has (theDeepMap w b) q then 1%nat else 0%nat.
Proof.
  intros Hr. pose proof (Attainable_wf w Hr b) as Hwf. split; [exact Hwf|].
  destruct (has (theDeepMap w b) q) eqn:Hq.
  - apply matching_one; [|exact Hq].
    unfold wf in Hwf. apply andb_true_iff in Hwf as [_ Hd]. exact Hd.
  - rewrite (matching_none _ _ Hq). reflexivity.
Qed.

End Invariant.

(** ** Keys made of all arguments, shallow mode *)

Section AllArguments.
Context `{Host}.

Lemma mapToString_defined args :
  existsb nullish args = false -> mapToString args = Normal (List.map ToString args).
Proof.
  induction args as [|x args IH]; simpl; [reflexivity|].
  intros Hn. apply orb_false_iff in Hn as [Hx Hn]. rewrite (IH Hn).
  destruct x; simpl in *; try discriminate; reflexivity.
Qed.

Lemma mapToString_nullish args :
  existsb nullish args = true -> mapToString args = Throw TypeError.
Proof.
  induction args as [|x args IH]; simpl; [discriminate|].
  destruct (nullish x) eqn:Hx; simpl.
  - intros _. destruct x; simpl in *; try discriminate; reflexivity.
  - intros Hn. rewrite (IH Hn). destruct x; simpl in *; try discriminate; reflexivity.
Qed.

Lemma derivedKey_all_arguments f this args w :
  useDeepEqual f = false -> hashFunction f = HFboolean true ->
  derivedKey f this args w =
  if existsb nullish args then (Throw TypeError, program w)
  else (Normal (JStr (String.concat "!" (List.map ToString args))), program w).
Proof.
  intros Hm Hh. unfold derivedKey, keyed, shallowHashKey. rewrite Hm, Hh. simpl.
  destruct (existsb nullish args) eqn:Hn.
  - rewrite (mapToString_nullish args Hn). reflexivity.
  - rewrite (mapToString_defined args Hn). reflexivity.
Qed.

Lemma general_mapToString args :
  existsb nullish args = false -> forallb printable args = true ->
  Reentrant.mapToString args = Normal (List.map ToString args).
Proof.
  induction args as [|x rest IH]; simpl; [reflexivity|].
  intros Hn Hp. apply orb_false_iff in Hn as [Hx Hn]. apply andb_true_iff in Hp as [Hpx Hp].
  rewrite (IH Hn Hp). unfold Reentrant.toString. rewrite Hpx.
  destruct x; try discriminate; reflexivity.
Qed.

(** What a shallow call that returns leaves in its store: the value under
    the key, and a timestamp record of which a number can be made. *)
Lemma general_shallow_cached g this args w k w0 v w1 :
  Reentrant.useDeepEqual g = false ->
  derivation g this args w = (Normal k, w0) ->
  Reentrant.call g this args w = (Normal v, w1) ->
  let a := (ref this, Reentrant.propMapName g) in
  let tk := timestampString k in
  Reentrant.receptive this = true /\
  AnyMap_has (theMap w1 a) k = true /\ AnyMap_get (theMap w1 a) k = v /\
  ((0 <? Reentrant.duration g)%Z && AnyMap_has (theMap w1 a) tk &&
   negb (printable (AnyMap_get (theMap w1 a) tk))) = false.
Proof.
  intros Hm Hk Hc a tk. rewrite general_call, Hk in Hc.
  destruct (Reentrant.receptive this); [|discriminate]. split; [reflexivity|].
  destruct (printed g args && negb (printable k)); [discriminate|].
  destruct (garbled g this w0 k) eqn:Hg; [discriminate|].
  assert (Hl : atLookup g w0 = w0) by (unfold atLookup; rewrite Hm; reflexivity).
  assert (Htk : timestampKeyAt g w0 k = tk) by (unfold timestampKeyAt; rewrite Hm; reflexivity).
  destruct (answered g this w0 k) eqn:Ha.
  - injection Hc as <- <-.
    destruct (general_tested_stores g this w0 k a) as [-> _].
    unfold answered, usable, present, stored, shallowStore in Ha. simpl in Ha.
    rewrite Hm, Hl in Ha. apply andb_true_iff in Ha as [Ha _].
    unfold garbled, held, kept, present, stored, shallowStore in Hg. simpl in Hg.
    rewrite Hm, Hl, Htk in Hg.
    unfold kept, stored, shallowStore. simpl. rewrite Hm, Hl. auto.
  - destruct (Reentrant.originalMethod g this args (atMethod g this w0 k)) as [[v'|e] w2];
      [|discriminate].
    injection Hc as <- <-. rewrite Htk. unfold a.
    rewrite (general_recorded_shallow g this k tk v' w2 Hm). cbv zeta.
    destruct (0 <? Reentrant.duration g)%Z.
    + rewrite !AnyMap_has_set, !AnyMap_get_set.
      unfold tk. rewrite (sameValueZero_sym (timestampString k) k), timestampString_fresh.
      rewrite !sameValueZero_refl. simpl. auto.
    + rewrite AnyMap_has_set, AnyMap_get_set, sameValueZero_refl. auto.
Qed.

(** X12. With [hashFunction: true] a shallow member keys a call by the
    texts of its arguments joined with ['!']: after a call returned [v], a
    call whose arguments give the same joined text is answered [v] from the
    store while the entry is not stale, whatever the arguments themselves
    are (the number 1 and the string ['1'] are one key, and so are the
    arguments ['a', 'b'] and the one argument ['a!b']).  The arguments are
    such that [toString] makes their texts, and the numbers among them
    print in decimal; the original method is any user code. *)
Theorem X12_all_arguments_are_keyed_by_their_text g this args w v w1 args' :
  Reentrant.useDeepEqual g = false ->
  Reentrant.hashFunction g = Reentrant.HFboolean true ->
  existsb nullish args = false -> existsb nullish args' = false ->
  forallb printable args = true -> forallb printable args' = true ->
  forallb decimal args = true -> forallb decimal args' = true ->
  String.concat "!" (List.map ToString args') = String.concat "!" (List.map ToString args) ->
  Reentrant.call g this args w = (Normal v, w1) ->
  let key := JStr (String.concat "!" (List.map ToString args)) in
  let a := (ref this, Reentrant.propMapName g) in
  stale (Reentrant.duration g) (AnyMap_has (theMap w1 a) (timestampString key))
    (AnyMap_get (theMap w1 a) (timestampString key)) (Date_now (ticks w1)) = false ->
  derivation g this args w = (Normal key, entered g this w) /\
  derivation g this args' w1 = (Normal key, entered g this w1) /\
  exists w2, Reentrant.call g this args' w1 = (Normal v, w2) /\ invoked w2 = invoked w1.
Proof.
  intros Hm Hh Hn Hn' Hp Hp' _ _ Etext Hc key a Hfresh.
  assert (Hkey : forall args0 w0,
    existsb nullish args0 = false -> forallb printable args0 = true ->
    derivation g this args0 w0 =
    (Normal (JStr (String.concat "!" (List.map ToString args0))), entered g this w0)).
  { intros args0 w0 Hn0 Hp0.
    unfold derivation, Reentrant.shallowHashKey, Reentrant.keyed. rewrite Hm, Hh. simpl.
    rewrite (general_mapToString args0 Hn0 Hp0). reflexivity. }
  pose proof (Hkey args w Hn Hp) as Hk. pose proof (Hkey args' w1 Hn' Hp') as Hk'.
  rewrite Etext in Hk'. fold key in Hk, Hk'.
  split; [exact Hk|]. split; [exact Hk'|].
  destruct (general_shallow_cached g this args w key _ v w1 Hm Hk Hc) as (Hr & Hhas & Hget & Hts).
  fold a in Hhas, Hget, Hts.
  destruct (general_entered_stores g this w1 a) as [Es _].
  destruct (general_entered_counters g this w1) as (Et & Ei & _).
  exists (tested g this (entered g this w1) key).
  rewrite general_call, Hr, Hk'. cbn [printable negb]. rewrite andb_false_r.
  unfold garbled, answered, tested, held, kept, usable, present, stored, shallowStore, atLookup,
    timestampKeyAt, afterCheck.
  cbn [useDeepEqual duration propMapName optionsOf]. rewrite Hm. fold a.
  rewrite Es, Et, Hts, Hhas, Hget, Hfresh. cbn [andb negb].
  split; [reflexivity|].
  destruct ((0 <? Reentrant.duration g)%Z && _); simpl; exact Ei.
Qed.

(** X13. With [hashFunction: true] a shallow member calls [toString] on
    every argument, so a call with an [undefined] or [null] argument throws
    a [TypeError] before the original method is applied; no store and no
    program state changes. *)
Theorem X13_all_arguments_need_toString f this args w :
  useDeepEqual f = false -> hashFunction f = HFboolean true ->
  existsb nullish args = true ->
  exists w', call f this args w = (Throw TypeError, w') /\
    invoked w' = invoked w /\ program w' = program w /\
    (forall b, theMap w' b = theMap w b) /\ (forall b, theDeepMap w' b = theDeepMap w b).
Proof.
  intros Hm Hh Hn. apply call_key_throws.
  rewrite (derivedKey_all_arguments f this args w Hm Hh), Hn. reflexivity.
Qed.

End AllArguments.

(** ** Windows *)

Section Windows.
Context `{Host}.

(** Without a window the window itself is never looked at. *)
Lemma call_no_window f f' this args w :
  originalMethod f = originalMethod f' -> hashFunction f = hashFunction f' ->
  tags f = tags f' -> useDeepEqual f = useDeepEqual f' ->
  propMapName f = propMapName f' -> propDeepMapName f = propDeepMapName f' ->
  (duration f <= 0)%Z -> (duration f' <= 0)%Z ->
  call f this args w = call f' this args w.
Proof.
  intros Eo Eh Et Em Ea Eb Hd Hd'.
  assert (Ed : (0 <? duration f)%Z = false) by (apply Z.ltb_ge; exact Hd).
  assert (Ed' : (0 <? duration f')%Z = false) by (apply Z.ltb_ge; exact Hd').
  rewrite !call_eq.
  assert (Ek : derivedKey f this args w = derivedKey f' this args w).
  { unfold derivedKey, keyed, deepHashKey, shallowHashKey. rewrite Eh, Em, Ed, Ed'. reflexivity. }
  assert (Ee : enteredMap f this w = enteredMap f' this w)
    by (unfold enteredMap; rewrite Et, Ea; reflexivity).
  assert (Ee' : enteredDeepMap f this w = enteredDeepMap f' this w)
    by (unfold enteredDeepMap, wrappers; rewrite Et, Eb; reflexivity).
  assert (Ew : wrappers f = wrappers f') by (unfold wrappers; rewrite Et; reflexivity).
  rewrite Ek, Ee, Ee', Em, Ew, Ea, Eb.
  destruct (derivedKey f' this args w) as [[k|e] p]; [|reflexivity].
  unfold timestampKeyOf. rewrite Em, Ew.
  destruct (useDeepEqual f').
  - rewrite !deepLookup_eq. cbv zeta. unfold stale, afterCheck. rewrite Ed, Ed', Eo. reflexivity.
  - rewrite !shallowLookup_eq. cbv zeta. unfold stale, afterCheck. rewrite Ed, Ed', Eo. reflexivity.
Qed.

(** X15. A window of zero or less is no window: the member
    [MemoizeExpiring(d, h)] makes for [d <= 0] behaves in every call, on
    every receiver and in every world, exactly like the member [Memoize(h)]
    makes in its place. *)
Theorem X15_a_window_of_zero_is_no_window d h descriptor w r w1 :
  (d <= 0)%Z ->
  MemoizeExpiring d h descriptor w = (Normal r, w1) ->
  exists r' f f',
    Memoize (ParamHashFunction h) descriptor w = (Normal r', w1) /\
    memoizedIn r = Some f /\ memoizedIn r' = Some f' /\
    duration f = d /\ duration f' = 0%Z /\
    forall this args w0, call f this args w0 = call f' this args w0.
Proof.
  intros Hd. unfold MemoizeExpiring, Memoize.
  destruct (descriptor_value descriptor) as [m|]; [|destruct (descriptor_get descriptor) as [g|]];
    simpl; intros [= <- <-]; try discriminate;
    do 3 eexists; (split; [reflexivity|]); (split; [reflexivity|]); (split; [reflexivity|]);
    (split; [reflexivity|]); (split; [reflexivity|]);
    intros this args w0; apply call_no_window; simpl; try reflexivity; try lia; exact Hd.
Qed.


(** The store of a shallow member without window keeps an entry through a
    call of the member, when its user code is quiet. *)
Lemma general_keeps_entry g this k this' args' w :
  quietKey g -> quiet (Reentrant.originalMethod g) ->
  Reentrant.useDeepEqual g = false -> (Reentrant.duration g <= 0)%Z ->
  let a := (ref this, Reentrant.propMapName g) in
  AnyMap_has (theMap w a) k = true ->
  let w' := snd (Reentrant.call g this' args' w) in
  AnyMap_has (theMap w' a) k = true /\ AnyMap_get (theMap w' a) k = AnyMap_get (theMap w a) k.
Proof.
  intros Hqk Hq Hm Hd a Hhas w'.
  assert (Ed : (0 <? Reentrant.duration g)%Z = false) by (apply Z.ltb_ge; exact Hd).
  destruct (decide (a = (ref this', Reentrant.propMapName g))) as [Ea|Hne].
  - unfold w'. rewrite general_call.
    assert (Hsame : forall w1, theMap w1 a = theMap w a ->
      AnyMap_has (theMap w1 a) k = true /\ AnyMap_get (theMap w1 a) k = AnyMap_get (theMap w a) k).
    { intros w1 ->. auto. }
    destruct (Reentrant.receptive this'); [|apply Hsame; apply general_entered_stores].
    destruct (derivation g this' args' w) as [[k'|e] w1] eqn:Hk; simpl;
      [|apply Hsame; apply (general_derivation_quiet g this' args' w _ _ Hqk Hk)].
    pose proof (general_derivation_quiet g this' args' w _ _ Hqk Hk a) as [H1 _].
    assert (Ht : theMap (tested g this' w1 k') a = theMap w a)
      by (destruct (general_tested_stores g this' w1 k' a); congruence).
    destruct (printed g args' && negb (printable k')); [apply Hsame; exact H1|].
    destruct (garbled g this' w1 k'); [apply Hsame; exact Ht|].
    destruct (answered g this' w1 k') eqn:Ha; [apply Hsame; exact Ht|].
    destruct (Reentrant.originalMethod g this' args' (atMethod g this' w1 k')) as [[v|e] w2] eqn:Hrun;
      simpl.
    + assert (H2 : theMap w2 a = theMap w a).
      { destruct (Hq _ _ _ _ _ Hrun a), (general_atMethod_stores g this' w1 k' a). congruence. }
      rewrite Ea. rewrite (general_recorded_shallow g this' k' _ v w2 Hm). cbv zeta.
      rewrite Ed, <- Ea, H2.
      assert (Ek : sameValueZero k' k = false).
      { destruct (sameValueZero k' k) eqn:E; [|reflexivity].
        destruct (AnyMap_same (theMap w a) k' k E) as [Eh _].
        unfold answered, usable, present, stale, shallowStore, atLookup in Ha. simpl in Ha.
        rewrite Hm, Ed in Ha. simpl in Ha. rewrite andb_true_r in Ha.
        rewrite <- Ea, H1 in Ha. congruence. }
      rewrite AnyMap_has_set, AnyMap_get_set, Ek, Hhas. auto.
    + apply Hsame.
      destruct (Hq _ _ _ _ _ Hrun a), (general_atMethod_stores g this' w1 k' a). congruence.
  - destruct (general_call_frame g this' args' w Hqk Hq) as [Fs _].
    unfold w'. rewrite Fs by (left; exact Hne). auto.
Qed.

(** X17. A shallow member without window whose user code is quiet never
    drops or overwrites an entry: through any calls of the member, on any
    receivers and with any arguments, a key that is in the store of a
    receiver stays there with its value, and a call that derives it is
    answered from the store without the original method being applied: it
    ends in the world its key derivation left. *)
Theorem X17_entries_stay_until_cleared g this k calls w :
  quietKey g -> quiet (Reentrant.originalMethod g) ->
  Reentrant.useDeepEqual g = false -> (Reentrant.duration g <= 0)%Z ->
  let a := (ref this, Reentrant.propMapName g) in
  AnyMap_has (theMap w a) k = true ->
  let w' := Reentrant.callEach g calls w in
  AnyMap_has (theMap w' a) k = true /\
  AnyMap_get (theMap w' a) k = AnyMap_get (theMap w a) k /\
  forall args' k' w1,
    Reentrant.receptive this = true ->
    derivation g this args' w' = (Normal k', w1) ->
    (printed g args' = true -> printable k' = true) ->
    sameValueZero k k' = true ->
    Reentrant.call g this args' w' = (Normal (AnyMap_get (theMap w a) k), w1).
Proof.
  intros Hqk Hq Hm Hd a Hhas w'.
  assert (Ed : (0 <? Reentrant.duration g)%Z = false) by (apply Z.ltb_ge; exact Hd).
  assert (Hkeep : AnyMap_has (theMap w' a) k = true /\
                  AnyMap_get (theMap w' a) k = AnyMap_get (theMap w a) k).
  { unfold w'. clear w'. revert w Hhas. induction calls as [|[this' args'] calls IH]; intros w Hhas.
    - simpl. auto.
    - simpl. destruct (general_keeps_entry g this k this' args' w Hqk Hq Hm Hd Hhas) as [Hh Hg].
      destruct (IH _ Hh) as [Hh' Hg']. split; [exact Hh'|]. unfold a in *. congruence. }
  destruct Hkeep as [Hh Hg]. split; [exact Hh|]. split; [exact Hg|].
  intros args' k' w1 Hr Hk' Hp E.
  pose proof (general_derivation_quiet g this args' w' _ _ Hqk Hk' a) as [H1 _].
  destruct (AnyMap_same (theMap w' a) k k' E) as [Eh Eg].
  rewrite general_call, Hr, Hk'.
  replace (printed g args' && negb (printable k')) with false
    by (destruct (printed g args'); [rewrite Hp by reflexivity|]; reflexivity).
  unfold garbled, answered, tested, kept, usable, present, stored, stale, afterCheck, shallowStore,
    atLookup.
  cbn [useDeepEqual duration propMapName optionsOf]. rewrite Hm, Ed. cbn [andb negb].
  fold a. rewrite H1, <- Eh, Hh, <- Eg, Hg. reflexivity.
Qed.
End Windows.

(** ** [DeepEqualMap.set] and the other keys *)

Section OtherKeys.
Context `{EqualLaws}.
Import DeepEqualMap.

Lemma find_in_has (map : t) q :
  has map q = match find_in map q with Some _ => true | None => false end.
Proof.
  unfold has. induction map as [|[s e] rest IH]; simpl; [reflexivity|].
  destruct (equal (key e) q); [reflexivity|exact IH].
Qed.

Lemma find_in_drop_match (map : t) k q :
  equal k q = false -> find_in (drop_match map k) q = find_in map q.
Proof.
  intros E. induction map as [|[s e] rest IH]; simpl; [reflexivity|].
  destruct (equal (key e) k) eqn:Ek; simpl.
  - destruct (equal (key e) q) eqn:Eq; [|reflexivity].
    apply equal_sym in Ek. rewrite (equal_trans _ _ _ Ek Eq) in E. discriminate.
  - destruct (equal (key e) q); [reflexivity|exact IH].
Qed.

Lemma find_in_other_serial (map : t) q s sq :
  Map_has String.eqb map s = false -> find_in map q = Some sq -> String.eqb sq s = false.
Proof.
  intros Hs Hf. apply DeepFacts.find_in_serial in Hf.
  destruct (String.eqb sq s) eqn:E; [|reflexivity].
  apply String.eqb_eq in E. subst. congruence.
Qed.

(** Putting an entry for [k] under serialized key [s] into a well-formed
    store: a key that is not [equal] to [k] keeps its entry unless that
    entry sits under [s]. *)
Lemma put_over (map : t) s k v q :
  wf map = true -> equal k q = false ->
  let map' := Map_set String.eqb map s (Entry k v) in
  has map' q = match find_in map q with
               | Some sq => negb (String.eqb sq s)
               | None => false
               end /\
  (has map' q = true -> get map' q = get map q).
Proof.
  unfold wf, has, get. intros Hwf E. cbv zeta.
  induction map as [|[s' e] rest IH]; simpl.
  - rewrite E. split; [reflexivity|discriminate].
  - simpl in Hwf. apply andb_true_iff in Hwf as [Hw Hd].
    apply andb_true_iff in Hw as [Hs Hw]. apply andb_true_iff in Hd as [Hh Hd].
    apply negb_true_iff in Hs. apply negb_true_iff in Hh.
    assert (Hwf' : Map_wf String.eqb rest && distinct (List.map snd rest) = true)
      by (rewrite Hw, Hd; reflexivity).
    specialize (IH Hwf'). destruct IH as [IHh IHg].
    destruct (String.eqb s' s) eqn:Es; simpl.
    + apply String.eqb_eq in Es. subst s'. rewrite E.
      destruct (equal (key e) q) eqn:Eq.
      * rewrite <- (DeepFacts.has_in_equal _ _ _ Eq), Hh, String.eqb_refl. simpl.
        split; [reflexivity|discriminate].
      * pose proof (find_in_has rest q) as Hf. unfold has in Hf. rewrite Hf.
        destruct (find_in rest q) as [sq|] eqn:Ef.
        -- rewrite (find_in_other_serial rest q s sq Hs Ef). simpl. auto.
        -- split; [reflexivity|discriminate].
    + destruct (equal (key e) q) eqn:Eq.
      * rewrite Es. simpl. auto.
      * exact (conj IHh IHg).
Qed.

(** X19. What [set] does to the other keys: a key that is not [equal] to
    the key being stored keeps its entry and its value, except when its
    entry sits under the very serialized key
    [`${Date.now()}_${Math.random()}`] that this [set] draws; then the entry
    is replaced and the key is gone from the store. *)
Theorem X19_set_and_the_other_keys (map : t) k v now random q :
  wf map = true -> equal k q = false ->
  let map' := set map k v now random in
  has map' q = match find_in map q with
               | Some serializedKey =>
                   negb (String.eqb serializedKey (pretty now +:+ "_" +:+ random))
               | None => false
               end /\
  (has map' q = true -> get map' q = get map q).
Proof.
  intros Hwf E map'. unfold map'.
  assert (Hw : Map_wf String.eqb map = true)
    by (unfold wf in Hwf; apply andb_true_iff in Hwf as [Hw _]; exact Hw).
  rewrite (DeepFacts.set_eq map k v now random Hw).
  assert (Hwf1 : wf (drop_match map k) = true).
  { unfold wf in *. apply andb_true_iff in Hwf as [_ Hd].
    rewrite (DeepFacts.Map_wf_drop map k Hw), (DeepFacts.distinct_drop map k Hd). reflexivity. }
  destruct (put_over (drop_match map k) (pretty now +:+ "_" +:+ random) k v q Hwf1 E)
    as [Hh Hg].
  rewrite (find_in_drop_match map k q E) in Hh. split; [exact Hh|].
  intros Hq. rewrite (Hg Hq). apply (DeepFacts.drop_match_other map k q E).
Qed.
End OtherKeys.

(** ** The count of [clear] *)

Section Count.
Context `{Host}.

Lemma storesIn_app l l' : storesIn (l ++ l') = storesIn l ++ storesIn l'.
Proof. apply flat_map_app. Qed.

Lemma wrapperIds_app l l' : wrapperIds (l ++ l') = wrapperIds l ++ wrapperIds l'.
Proof. apply flat_map_app. Qed.

Lemma wrapperIds_wrappers a0 ids : wrapperIds (List.map (fun i => MapWrapper i a0) ids) = ids.
Proof. induction ids as [|i ids IH]; simpl; [reflexivity|]. rewrite IH. reflexivity. Qed.

Lemma wrapperIds_repeat a0 n : wrapperIds (repeat (TheMap a0) n) = [].
Proof. induction n as [|n IH]; simpl; [reflexivity|exact IH]. Qed.

Lemma length_storesIn_wrapperIds mps :
  (length (storesIn mps) + length (wrapperIds mps) = length mps)%nat.
Proof.
  induction mps as [|[a0|i a0] mps IH]; simpl; [reflexivity| |]; lia.
Qed.

Lemma Set_has_store cleared a0 :
  Set_has cleared (TheMap a0) = true <-> In a0 (storesIn cleared).
Proof.
  unfold Set_has. rewrite existsb_exists. unfold storesIn. rewrite in_flat_map. split.
  - intros ([a1|i a1] & Hin & Hs); simpl in Hs; [|discriminate].
    apply bool_decide_eq_true in Hs. subst. exists (TheMap a0). simpl. auto.
  - intros ([a1|i a1] & Hin & Hx); simpl in Hx; [|destruct Hx].
    destruct Hx as [->|[]]. exists (TheMap a0). split; [exact Hin|].
    simpl. apply bool_decide_eq_true. reflexivity.
Qed.

Lemma Set_has_wrapper cleared i a0 :
  Set_has cleared (MapWrapper i a0) = true -> In i (wrapperIds cleared).
Proof.
  unfold Set_has. rewrite existsb_exists. unfold wrapperIds. rewrite in_flat_map.
  intros ([a1|j a1] & Hin & Hs); simpl in Hs; [discriminate|].
  apply Nat.eqb_eq in Hs. subst. exists (MapWrapper i a1). simpl. auto.
Qed.

(** The [Set] named [cleared] grows by every store it has not met and by
    every wrapper object, when no wrapper object comes twice. *)
Lemma collected_mixed mps cleared :
  List.NoDup (storesIn cleared) -> List.NoDup (wrapperIds (cleared ++ mps)) ->
  length (collected mps cleared) =
  (size (list_to_set (storesIn (cleared ++ mps)) : gset (nat * nat)) +
   length (wrapperIds (cleared ++ mps)))%nat.
Proof.
  revert cleared. induction mps as [|mp mps IH]; intros cleared Hs Hw.
  - simpl. rewrite app_nil_r in *. rewrite size_list_to_set.
    + apply eq_sym, length_storesIn_wrapperIds.
    + apply NoDup_ListNoDup. exact Hs.
  - unfold collected. simpl.
    fold (collected mps (if Set_has cleared mp then cleared else cleared ++ [mp])).
    destruct mp as [a0|i a0].
    + assert (Hw' : List.NoDup (wrapperIds (cleared ++ mps)))
        by (rewrite wrapperIds_app in *; exact Hw).
      assert (Ew : wrapperIds (cleared ++ TheMap a0 :: mps) = wrapperIds (cleared ++ mps))
        by (rewrite !wrapperIds_app; reflexivity).
      rewrite Ew. destruct (Set_has cleared (TheMap a0)) eqn:Es.
      * rewrite (IH cleared Hs Hw'). f_equal. f_equal.
        apply set_eq. intros x. rewrite !elem_of_list_to_set, !list_elem_of_In.
        rewrite !storesIn_app, !in_app_iff. simpl.
        apply Set_has_store in Es. split; [tauto|]. intros [?|[<-|?]]; auto.
      * assert (Hnot : ~ In a0 (storesIn cleared)).
        { intros Hin. apply Set_has_store in Hin. congruence. }
        rewrite (IH (cleared ++ [TheMap a0])).
        -- rewrite <- !app_assoc. simpl. rewrite Ew. reflexivity.
        -- rewrite storesIn_app. simpl. apply List.NoDup_app; [exact Hs| |].
           ++ constructor; [intros []|constructor].
           ++ intros x Hx [<-|[]]. exact (Hnot Hx).
        -- rewrite <- app_assoc. simpl. rewrite Ew. exact Hw'.
    + assert (Hnot : Set_has cleared (MapWrapper i a0) = false).
      { destruct (Set_has cleared (MapWrapper i a0)) eqn:Es; [|reflexivity].
        apply Set_has_wrapper in Es. rewrite wrapperIds_app in Hw. simpl in Hw.
        apply List.NoDup_remove_2 in Hw. exfalso. apply Hw. apply in_or_app. left. exact Es. }
      rewrite Hnot. rewrite (IH (cleared ++ [MapWrapper i a0])).
      * rewrite <- !app_assoc. reflexivity.
      * rewrite storesIn_app. simpl. rewrite app_nil_r. exact Hs.
      * rewrite <- app_assoc. exact Hw.
Qed.

Lemma lookup_registeredDeep_ids tgs a0 id (registry : gmap string (list Clearable)) tag :
  default [] (registeredDeep tgs a0 id registry !! tag) =
  default [] (registry !! tag) ++ List.map (fun i => MapWrapper i a0) (idsFor tag tgs id).
Proof.
  revert id registry. induction tgs as [|t tgs IH]; intros id registry; simpl.
  - rewrite app_nil_r. reflexivity.
  - rewrite IH, lookup_pushInto, map_app, <- app_assoc. f_equal. f_equal.
    destruct (String.eqb t tag); reflexivity.
Qed.

Lemma idsFor_bounds tag tgs id i :
  In i (idsFor tag tgs id) -> (id <= i < id + length tgs)%nat.
Proof.
  revert id. induction tgs as [|t tgs IH]; intros id; simpl; [intros []|].
  intros Hin. apply in_app_or in Hin as [Hin|Hin].
  - destruct (String.eqb t tag); [|destruct Hin]. destruct Hin as [<-|[]]. lia.
  - apply IH in Hin. lia.
Qed.

Lemma idsFor_NoDup tag tgs id : List.NoDup (idsFor tag tgs id).
Proof.
  revert id. induction tgs as [|t tgs IH]; intros id; simpl; [constructor|].
  destruct (String.eqb t tag); simpl; [|apply IH].
  constructor; [|apply IH]. intros Hin. apply idsFor_bounds in Hin. lia.
Qed.

Lemma idsFor_disjoint tag tag' tgs id i :
  tag <> tag' -> In i (idsFor tag tgs id) -> ~ In i (idsFor tag' tgs id).
Proof.
  intros Hne. revert id. induction tgs as [|t tgs IH]; intros id; simpl; [intros []|].
  intros Hin Hin'. apply in_app_or in Hin as [Hin|Hin]; apply in_app_or in Hin' as [Hin'|Hin'].
  - destruct (String.eqb t tag) eqn:E; [|destruct Hin].
    destruct (String.eqb t tag') eqn:E'; [|destruct Hin'].
    apply String.eqb_eq in E, E'. congruence.
  - destruct (String.eqb t tag); [|destruct Hin]. destruct Hin as [<-|[]].
    apply idsFor_bounds in Hin'. lia.
  - destruct (String.eqb t tag'); [|destruct Hin']. destruct Hin' as [<-|[]].
    apply idsFor_bounds in Hin. lia.
  - exact (IH (S id) Hin Hin').
Qed.

Lemma call_unshared f this args w : unshared w -> unshared (snd (call f this args w)).
Proof.
  intros (Hn & Hx & Hb). destruct (call f this args w) as [c w'] eqn:Hc. simpl.
  destruct (call_counters f this args w c w' Hc) as [_ Hrefs].
  pose proof (call_registry f this args w c w' Hc) as Hreg.
  unfold unshared. rewrite Hreg. clear Hreg Hc.
  destruct (useDeepEqual f); simpl in *.
  - unfold wrappers in Hrefs. destruct (tags f) as [tgs|].
    + assert (E : forall tag,
        wrapperIds (default [] (registeredDeep tgs (ref this, propDeepMapName f) (S (refs w))
                                  (clearCacheTagsMap w) !! tag)) =
        wrapperIds (default [] (clearCacheTagsMap w !! tag)) ++ idsFor tag tgs (S (refs w))).
      { intros tag. rewrite lookup_registeredDeep_ids, wrapperIds_app, wrapperIds_wrappers.
        reflexivity. }
      split; [|split].
      * intros tag. rewrite E. apply List.NoDup_app; [apply Hn|apply idsFor_NoDup|].
        intros i Hi Hi'. apply Hb in Hi. apply idsFor_bounds in Hi'. lia.
      * intros tag tag' i Hne. rewrite !E. intros Hi Hi'.
        apply in_app_or in Hi as [Hi|Hi]; apply in_app_or in Hi' as [Hi'|Hi'].
        -- exact (Hx tag tag' i Hne Hi Hi').
        -- apply Hb in Hi. apply idsFor_bounds in Hi'. lia.
        -- apply Hb in Hi'. apply idsFor_bounds in Hi. lia.
        -- exact (idsFor_disjoint tag tag' tgs _ i Hne Hi Hi').
      * intros tag i. rewrite E. intros Hi. apply in_app_or in Hi as [Hi|Hi].
        -- apply Hb in Hi. lia.
        -- apply idsFor_bounds in Hi. lia.
    + split; [exact Hn|]. split; [exact Hx|]. intros tag i Hi. apply Hb in Hi. lia.
  - destruct (tags f) as [tgs|].
    + assert (E : forall tag,
        wrapperIds (default [] (registered tgs (TheMap (ref this, propMapName f))
                                  (clearCacheTagsMap w) !! tag)) =
        wrapperIds (default [] (clearCacheTagsMap w !! tag))).
      { intros tag. rewrite lookup_registered, wrapperIds_app, wrapperIds_repeat.
        apply app_nil_r. }
      split; [|split].
      * intros tag. rewrite E. apply Hn.
      * intros tag tag' i Hne. rewrite !E. apply Hx. exact Hne.
      * intros tag i. rewrite E. intros Hi. apply Hb in Hi. lia.
    + split; [exact Hn|]. split; [exact Hx|]. intros tag i Hi. apply Hb in Hi. lia.
Qed.

Lemma step_unshared w w' : step w w' -> unshared w -> unshared w'.
Proof.
  intros [args d w0|f this args w0|tgs w0] Hu.
  - destruct (Memoize_world args d w0) as (_ & _ & Hreg & Hrefs & _).
    unfold unshared. rewrite Hreg, Hrefs. exact Hu.
  - apply call_unshared. exact Hu.
  - destruct (clear_emptied tgs w0) as (w1 & E & Hun & _). rewrite E. simpl.
    destruct Hun as (Hreg & _ & Hrefs & _). unfold unshared. rewrite Hreg, Hrefs. exact Hu.
Qed.

Lemma Attainable_unshared w : Attainable w -> unshared w.
Proof.
  induction 1 as [p|w w' _ IH Hs]; [|exact (step_unshared w w' Hs IH)].
  unfold unshared. simpl. split; [|split].
  - intros tag. rewrite lookup_empty. constructor.
  - intros tag tag' i _. rewrite lookup_empty. intros [].
  - intros tag i. rewrite lookup_empty. intros [].
Qed.

Lemma reachable_unshared tgs w :
  unshared w -> List.NoDup tgs ->
  List.NoDup (wrapperIds (reachable tgs (clearCacheTagsMap w))).
Proof.
  intros (Hn & Hx & _). unfold reachable.
  induction tgs as [|tag tgs IH]; intros Hd; simpl; [constructor|].
  inversion Hd as [|? ? Hnot Hd']; subst.
  rewrite wrapperIds_app. apply List.NoDup_app; [apply Hn|apply IH; exact Hd'|].
  intros i Hi Hi'.
  fold (reachable tgs (clearCacheTagsMap w)) in Hi'.
  unfold wrapperIds in Hi'. apply in_flat_map in Hi' as (mp & Hmp & Hi').
  apply reachable_In in Hmp as (tag' & Ht' & Hmp).
  apply (Hx tag tag' i); [intros ->; exact (Hnot Ht')|exact Hi|].
  unfold wrapperIds. apply in_flat_map. eauto.
Qed.

(** X20. What [clear] counts in a running program, for a list of distinct
    tags: every shallow store the tags lead to once, however often it is
    registered, and every wrapper object the tags lead to, so a deep store
    counts once for each wrapper made around it. *)
Theorem X20_what_clear_counts tgs w :
  Attainable w -> List.NoDup tgs ->
  let mps := reachable tgs (clearCacheTagsMap w) in
  fst (clear tgs w) =
  Normal (size (list_to_set (storesIn mps) : gset (nat * nat)) + length (wrapperIds mps))%nat.
Proof.
  intros Ha Hd mps. destruct (clear_emptied tgs w) as (w' & E & _).
  rewrite E. simpl. f_equal. apply (collected_mixed _ []); [constructor|].
  apply reachable_unshared; [apply Attainable_unshared; exact Ha|exact Hd].
Qed.
End Count.

(** ** The order of the method and its [set] *)

Section StoredLast.
Context `{Host}.

(** X21. In shallow mode what a call returns is what its store answers
    for the key afterwards, whatever the user code did to the stores.  The
    [set] of line 231 comes after the original method: the store is the one
    the method left with the value put under the key, then the timestamp, so
    the entry a nested call made for the same key is overwritten, and a
    store that a [clear] in the method emptied holds the new entry. *)
Theorem X21_the_result_is_stored_last g this args w k w0 v w1 :
  Reentrant.useDeepEqual g = false ->
  derivation g this args w = (Normal k, w0) ->
  Reentrant.call g this args w = (Normal v, w1) ->
  let a := (ref this, Reentrant.propMapName g) in
  AnyMap_has (theMap w1 a) k = true /\ AnyMap_get (theMap w1 a) k = v /\
  (answered g this w0 k = false ->
   exists w2,
     Reentrant.originalMethod g this args (atMethod g this w0 k) = (Normal v, w2) /\
     theMap w1 a =
     if (0 <? Reentrant.duration g)%Z
     then AnyMap_set (AnyMap_set (theMap w2 a) k v) (timestampString k)
            (JNum (Date_now (ticks w2)))
     else AnyMap_set (theMap w2 a) k v).
Proof.
  intros Hm Hk Hc a.
  destruct (general_shallow_cached g this args w k w0 v w1 Hm Hk Hc) as (Hr & Hh & Hg & _).
  split; [exact Hh|]. split; [exact Hg|].
  intros Ha. rewrite general_call, Hr, Hk, Ha in Hc.
  destruct (printed g args && negb (printable k)); [discriminate|].
  destruct (garbled g this w0 k); [discriminate|].
  destruct (Reentrant.originalMethod g this args (atMethod g this w0 k)) as [[v'|e] w2];
    [|discriminate].
  injection Hc as <- <-. exists w2. split; [reflexivity|].
  unfold timestampKeyAt. rewrite Hm.
  apply (general_recorded_shallow g this k (timestampString k) v' w2 Hm).
Qed.
End StoredLast.

(** ** Runs of the properties above *)

Import Examples.

Lemma X1_witness :
  let w := snd (@call (host 1) (tagged false) a Hola (initial JUndefined)) in
  clearCacheTagsMap w !! "foo" = Some [TheMap (100, 0)%nat] /\
  clear ["unknown"; "other"] w = (Normal 0%nat, w).
Proof.
  intros w. split; [vm_compute; reflexivity|].
  apply X1_clear_of_unknown_tags.
  intros tag [<-|[<-|[]]]; vm_compute; reflexivity.
Defined.

Lemma X3_witness :
  let w1 := snd (@call (host 1) (tagged false) a Hola (initial JUndefined)) in
  let w2 := snd (@call (host 1) (tagged false) b Hola w1) in
  let w3 := snd (@call (host 1) (tagged false) a Hola w2) in
  length (reachable ["foo"; "bar"] (clearCacheTagsMap w3)) = 6%nat /\
  fst (clear ["foo"; "bar"] w3) = Normal 2%nat.
Proof.
  intros w1 w2 w3. split; [vm_compute; reflexivity|].
  rewrite (X3_clear_counts_shallow_stores ["foo"; "bar"] w3); [|vm_compute; reflexivity].
  vm_compute. reflexivity.
Defined.

Lemma X4_witness :
  let w1 := snd (@call (host 1) (tagged true) a Hola (initial JUndefined)) in
  let w2 := snd (clear ["bar"] w1) in
  In (MapWrapper 2 (100, 1)%nat) (reachable ["bar"] (clearCacheTagsMap w1)) /\
  length (theDeepMap w1 (100, 1)%nat) = 1%nat /\
  theDeepMap w2 (100, 1)%nat = [].
Proof.
  intros w1 w2.
  assert (Hin : In (MapWrapper 2 (100, 1)%nat) (reachable ["bar"] (clearCacheTagsMap w1)))
    by (vm_compute; auto).
  split; [exact Hin|]. split; [vm_compute; reflexivity|].
  assert (Hr : @Attainable (host 1) w1)
    by (apply (Attainable_step (initial JUndefined)); [apply Attainable_initial|apply step_call]).
  exact (@X4_clear_empties_the_tagged_stores (host 1) ["bar"] w1 Hr
           (MapWrapper 2 (100, 1)%nat) Hin).
Defined.

Lemma X5_witness :
  let w := snd (@call (host 1) (tagged true) a Hola (initial JUndefined)) in
  let w1 := snd (clear ["foo"; "bar"] w) in
  clear ["foo"; "bar"] w = (Normal 2%nat, w1) /\
  exists w2, clear ["foo"; "bar"] w1 = (Normal 2%nat, w2) /\
    forall b0, theMap w2 b0 = theMap w1 b0 /\ theDeepMap w2 b0 = theDeepMap w1 b0.
Proof.
  intros w w1.
  assert (Hc : clear ["foo"; "bar"] w = (Normal 2%nat, w1)) by (vm_compute; reflexivity).
  split; [exact Hc|].
  apply (@X5_clear_again (host 1) ["foo"; "bar"] w); [|exact Hc].
  apply (Attainable_step (initial JUndefined)); [apply Attainable_initial|apply step_call].
Defined.


Lemma X7_witness :
  let f1 := member getGreeting HFundefined 0 None false in
  let f2 := {| originalMethod := getNumber; hashFunction := HFundefined; duration := 0;
               tags := None; useDeepEqual := false;
               propMapName := 2; propDeepMapName := 3 |} in
  let w := snd (@Reentrant.call (host 1) (detached f1) a Hola (initial JUndefined)) in
  let w' := snd (@Reentrant.call (host 1) (detached f2) a [] w) in
  quietKey (detached f2) /\ quiet (Reentrant.originalMethod (detached f2)) /\
  theMap w (100%nat, 0%nat) = [(JStr "Hola", JStr "Hola, Mundo")] /\
  theMap w' (100%nat, 0%nat) = theMap w (100%nat, 0%nat) /\
  theMap w' (100%nat, 2%nat) <> theMap w (100%nat, 2%nat).
Proof.
  intros f1 f2 w w'.
  destruct (detached_quiet f2) as [Hqk Hq].
  destruct (@X7_call_touches_its_own_store_only (host 1) (detached f2) a [] w Hqk Hq) as (Hs & _).
  split; [exact Hqk|]. split; [exact Hq|]. split; [vm_compute; reflexivity|].
  split; [apply Hs; left; discriminate|].
  vm_compute. discriminate.
Defined.

Lemma X8_witness :
  let w := initial JUndefined in
  let f1 := member getGreeting HFundefined 0 None false in
  let f2 := {| originalMethod := getNumber; hashFunction := HFundefined; duration := 0;
               tags := None; useDeepEqual := false;
               propMapName := 2; propDeepMapName := 3 |} in
  let r1 := {| descriptor_value := Some (Memoized f1); descriptor_get := None |} in
  let r2 := {| descriptor_value := None; descriptor_get := Some (Memoized f2) |} in
  let w1 := snd (Memoize ParamUndefined (ofMethod getGreeting) w) in
  let w2 := snd (@call (host 1) f1 a Hola w1) in
  let w3 := snd (Memoize ParamUndefined (ofAccessor getNumber) w2) in
  Memoize ParamUndefined (ofMethod getGreeting) w = (Normal r1, w1) /\
  Memoize ParamUndefined (ofAccessor getNumber) w2 = (Normal r2, w3) /\
  @steps (host 1) w1 w2 /\
  propMapName f1 <> propMapName f2 /\
  (ref a, propMapName f1) <> (ref a, propMapName f2).
Proof.
  intros w f1 f2 r1 r2 w1 w2 w3.
  assert (H1 : Memoize ParamUndefined (ofMethod getGreeting) w = (Normal r1, w1)) by reflexivity.
  assert (H2 : Memoize ParamUndefined (ofAccessor getNumber) w2 = (Normal r2, w3)) by reflexivity.
  assert (Hs : @steps (host 1) w1 w2) by (apply (steps_more w1 w2 w2); [apply step_call|apply steps_none]).
  split; [exact H1|]. split; [exact H2|]. split; [exact Hs|].
  destruct (@X8_members_have_stores_of_their_own (host 1) _ _ _ _ w r1 w1 w2 r2 w3 f1 f2
              H1 eq_refl Hs H2 eq_refl) as (Hne & _ & _ & _ & _ & _ & _ & _ & _ & _ & Hst).
  split; [exact Hne|]. exact (proj1 (Hst a a)).
Defined.


Lemma X10_witness :
  let f := member describe HFundefined 100 None true in
  let w1 := snd (@call (host 200) f a [obj1] (initial JUndefined)) in
  let w2 := snd (@call (host 200) f a [obj2] w1) in
  invoked w2 = 2%nat /\
  @DeepEqualMap.wf (host 200) (theDeepMap w2 (100, 1)%nat) = true /\
  length (@DeepEqualMap.matching (host 200) (theDeepMap w2 (100, 1)%nat) obj1) = 1%nat.
Proof.
  intros f w1 w2. split; [vm_compute; reflexivity|].
  assert (Hr : @Attainable (host 200) w2).
  { apply (Attainable_step w1); [|apply step_call].
    apply (Attainable_step (initial JUndefined)); [apply Attainable_initial|apply step_call]. }
  destruct (@X10_deep_stores_stay_well_formed (host 200) (run_host_laws 200) w2
              (100, 1)%nat obj1 Hr) as [Hwf Hone].
  split; [exact Hwf|]. rewrite Hone. vm_compute. reflexivity.
Defined.


Lemma X12_witness :
  let g := detached (member multiply2 (HFboolean true) 0 None false) in
  let w := initial JUndefined in
  let w1 := snd (@Reentrant.call (host 1) g a [JNum 4; JNum 6] w) in
  @Reentrant.call (host 1) g a [JNum 4; JNum 6] w = (Normal (JNum 24), w1) /\
  derivation g a [JNum 4; JNum 6] w = (Normal (JStr "4!6"), entered g a w) /\
  exists w2, @Reentrant.call (host 1) g a [JStr "4!6"] w1 = (Normal (JNum 24), w2) /\
    invoked w2 = invoked w1.
Proof.
  intros g w w1.
  assert (Hc : @Reentrant.call (host 1) g a [JNum 4; JNum 6] w = (Normal (JNum 24), w1))
    by (vm_compute; reflexivity).
  split; [exact Hc|].
  destruct (@X12_all_arguments_are_keyed_by_their_text (host 1) g a [JNum 4; JNum 6] w
              (JNum 24) w1 [JStr "4!6"] eq_refl eq_refl eq_refl eq_refl eq_refl eq_refl
              eq_refl eq_refl)
    as (Hk & _ & Hagain).
  - vm_compute. reflexivity.
  - exact Hc.
  - vm_compute. reflexivity.
  - split; [|exact Hagain]. rewrite Hk. vm_compute. reflexivity.
Defined.

Lemma X13_witness :
  let f := member describe (HFboolean true) 0 None false in
  exists w', @call (host 1) f a [JStr "Hola"; JUndefined] (initial JUndefined) =
             (Throw TypeError, w') /\ invoked w' = 0%nat.
Proof.
  intros f.
  destruct (@X13_all_arguments_need_toString (host 1) f a [JStr "Hola"; JUndefined]
              (initial JUndefined) eq_refl eq_refl eq_refl) as (w' & Hc & Hi & _).
  exists w'. split; [exact Hc|exact Hi].
Defined.


Lemma X15_witness :
  let w := initial JUndefined in
  let out := MemoizeExpiring 0 HFundefined (ofMethod getGreeting) w in
  exists r r' f f',
    out = (Normal r, snd out) /\
    Memoize (ParamHashFunction HFundefined) (ofMethod getGreeting) w = (Normal r', snd out) /\
    memoizedIn r = Some f /\ memoizedIn r' = Some f' /\
    @call (host 1) f a Hola (snd out) = @call (host 1) f' a Hola (snd out).
Proof.
  intros w out.
  assert (Hd : (0 <= 0)%Z) by lia.
  assert (Ho : out = (Normal {| descriptor_value :=
                                  Some (Memoized (member getGreeting HFundefined 0 None false));
                                descriptor_get := None |}, snd out)) by reflexivity.
  destruct (@X15_a_window_of_zero_is_no_window (host 1) 0 HFundefined (ofMethod getGreeting) w
              _ (snd out) Hd Ho) as (r' & f & f' & Hm & Hf & Hf' & _ & _ & Hcalls).
  eexists. exists r', f, f'. split; [exact Ho|]. split; [exact Hm|].
  split; [exact Hf|]. split; [exact Hf'|]. apply Hcalls.
Defined.


Lemma X17_witness :
  let g := detached (member getGreeting HFundefined 0 None false) in
  let w := snd (@Reentrant.call (host 1) g a Hola (initial JUndefined)) in
  let calls := [(a, [JStr "Hello"; JStr "World"]); (b, Hola); (a, [JStr "Hola"; JStr "Mars"])] in
  let w' := @Reentrant.callEach (host 1) g calls w in
  invoked w' = 3%nat /\
  exists w2, @Reentrant.call (host 1) g a [JStr "Hola"; JStr "Venus"] w' =
               (Normal (JStr "Hola, Mundo"), w2) /\
    invoked w2 = 3%nat.
Proof.
  intros g w calls w'.
  destruct (detached_quiet (member getGreeting HFundefined 0 None false)) as [Hqk Hq].
  assert (Hd : (Reentrant.duration g <= 0)%Z) by (simpl; lia).
  assert (Hhas : AnyMap_has (theMap w (ref a, Reentrant.propMapName g)) (JStr "Hola") = true)
    by (vm_compute; reflexivity).
  destruct (@X17_entries_stay_until_cleared (host 1) g a (JStr "Hola") calls w Hqk Hq eq_refl Hd Hhas)
    as (_ & _ & Hagain).
  assert (Hi : invoked w' = 3%nat) by (vm_compute; reflexivity).
  split; [exact Hi|].
  eexists. split.
  - apply (Hagain [JStr "Hola"; JStr "Venus"] (JStr "Hola") _ eq_refl); [|reflexivity|reflexivity].
    vm_compute. reflexivity.
  - vm_compute. reflexivity.
Defined.

Lemma X19_witness :
  let m := @DeepEqualMap.after (host 1) [(obj1, JNum 1, 0%Z, "0.1"); (JStr "x", JNum 2, 0%Z, "0.2")] in
  @DeepEqualMap.wf (host 1) m = true /\
  @equal (host 1) obj3 obj1 = false /\
  @DeepEqualMap.has (host 1) m obj1 = true /\
  @DeepEqualMap.has (host 1) (@DeepEqualMap.set (host 1) m obj3 (JNum 3) 0%Z "0.1") obj1 = false /\
  @DeepEqualMap.has (host 1) (@DeepEqualMap.set (host 1) m obj3 (JNum 3) 0%Z "0.2") obj1 = true /\
  @DeepEqualMap.get (host 1) (@DeepEqualMap.set (host 1) m obj3 (JNum 3) 0%Z "0.2") obj1 = JNum 1.
Proof.
  intros m.
  assert (Hwf : @DeepEqualMap.wf (host 1) m = true) by (vm_compute; reflexivity).
  assert (E : @equal (host 1) obj3 obj1 = false) by (vm_compute; reflexivity).
  destruct (@X19_set_and_the_other_keys (host 1) (run_host_laws 1) m obj3 (JNum 3) 0%Z "0.1"
              obj1 Hwf E) as [Hclash _].
  destruct (@X19_set_and_the_other_keys (host 1) (run_host_laws 1) m obj3 (JNum 3) 0%Z "0.2"
              obj1 Hwf E) as [Hkeep Hget].
  split; [exact Hwf|]. split; [exact E|]. split; [vm_compute; reflexivity|].
  split; [exact Hclash|]. split; [exact Hkeep|].
  rewrite (Hget Hkeep). vm_compute. reflexivity.
Defined.

Lemma X20_witness :
  let w1 := snd (@call (host 1) (tagged true) a Hola (initial JUndefined)) in
  let w2 := snd (@call (host 1) (tagged true) a Hola w1) in
  let w3 := snd (@call (host 1) (tagged false) b Hola w2) in
  let w4 := snd (@call (host 1) (tagged false) b Hola w3) in
  size (deepMaps w4) = 1%nat /\ size (maps w4) = 1%nat /\
  fst (clear ["foo"; "bar"] w4) = Normal 5%nat.
Proof.
  intros w1 w2 w3 w4. split; [vm_compute; reflexivity|]. split; [vm_compute; reflexivity|].
  assert (Ha : @Attainable (host 1) w4).
  { apply (Attainable_step w3); [|apply step_call].
    apply (Attainable_step w2); [|apply step_call].
    apply (Attainable_step w1); [|apply step_call].
    apply (Attainable_step (initial JUndefined)); [apply Attainable_initial|apply step_call]. }
  assert (Hd : List.NoDup ["foo"; "bar"]).
  { constructor; [simpl; intros [E|[]]; discriminate E|]. constructor; [intros []|constructor]. }
  rewrite (@X20_what_clear_counts (host 1) ["foo"; "bar"] w4 Ha Hd).
  vm_compute. reflexivity.
Defined.

Lemma X21_witness :
  (let w := initial JUndefined in
   let g := @Nested.g (host 1) in
   let out := @Reentrant.call (host 1) g a [JNum 1] w in
   let w1 := snd out in
   Reentrant.useDeepEqual g = false /\
   derivation g a [JNum 1] w = (Normal (JStr "x"), entered g a w) /\
   out = (Normal (JNum 1), w1) /\
   (exists w2,
      Reentrant.originalMethod g a [JNum 1] (@atMethod (host 1) g a (entered g a w) (JStr "x")) =
        (Normal (JNum 1), w2) /\
      theMap w2 (100%nat, 0%nat) = [(JStr "x", JNum 0)]) /\
   theMap w1 (100%nat, 0%nat) = [(JStr "x", JNum 1)] /\
   fst (@Reentrant.call (host 1) g a [JNum 0] w1) = Normal (JNum 1)) /\
  (let h := Nested.h in
   let w := snd (@Reentrant.call (host 1) h a [JNum 1] (initial JUndefined)) in
   let out := @Reentrant.call (host 1) h a [JNum 2] w in
   theMap w (100%nat, 0%nat) = [(JNum 1, JNum 1)] /\
   out = (Normal (JNum 2), snd out) /\
   (exists w2,
      Reentrant.originalMethod h a [JNum 2] (@atMethod (host 1) h a (entered h a w) (JNum 2)) =
        (Normal (JNum 2), w2) /\
      theMap w2 (100%nat, 0%nat) = []) /\
   theMap (snd out) (100%nat, 0%nat) = [(JNum 2, JNum 2)]).
Proof.
  split.
  - intros w g out w1.
    assert (Hk : derivation g a [JNum 1] w = (Normal (JStr "x"), entered g a w)) by reflexivity.
    assert (Hc : out = (Normal (JNum 1), w1)) by (vm_compute; reflexivity).
    destruct (@X21_the_result_is_stored_last (host 1) g a [JNum 1] w (JStr "x") (entered g a w)
                (JNum 1) w1 eq_refl Hk Hc) as (_ & _ & Hlast).
    destruct (Hlast ltac:(vm_compute; reflexivity)) as (w2 & Hrun & Hst).
    split; [reflexivity|]. split; [exact Hk|]. split; [exact Hc|]. split.
    + exists w2. split; [exact Hrun|].
      assert (E : w2 = snd (Reentrant.originalMethod g a [JNum 1]
                              (@atMethod (host 1) g a (entered g a w) (JStr "x"))))
        by (rewrite Hrun; reflexivity).
      rewrite E. vm_compute. reflexivity.
    + split; vm_compute; reflexivity.
  - intros h w out.
    assert (Hk : derivation h a [JNum 2] w = (Normal (JNum 2), entered h a w)) by reflexivity.
    assert (Hc : out = (Normal (JNum 2), snd out)) by (vm_compute; reflexivity).
    destruct (@X21_the_result_is_stored_last (host 1) h a [JNum 2] w (JNum 2) (entered h a w)
                (JNum 2) (snd out) eq_refl Hk Hc) as (_ & _ & Hlast).
    destruct (Hlast ltac:(vm_compute; reflexivity)) as (w2 & Hrun & Hst).
    split; [vm_compute; reflexivity|]. split; [exact Hc|]. split.
    + exists w2. split; [exact Hrun|].
      assert (E : w2 = snd (Reentrant.originalMethod h a [JNum 2]
                              (@atMethod (host 1) h a (entered h a w) (JNum 2))))
        by (rewrite Hrun; reflexivity).
      rewrite E. vm_compute. reflexivity.
    + vm_compute. reflexivity.
Defined.
